(** * Simpress: route registry, path patterns and the tiered middleware pipeline

    A shallow embedding of the request-dispatch engine of the repository:
    the classes [Route], [Router] and [Simpress].  The single-file version
    and the modular version of the sources have the same methods; their
    listeners differ only in [req.url ? req.url : ''], which is [req.url]
    on the strings that the server delivers.

    - JavaScript strings are Rocq strings: sequences of code units below 256.
    - [RegExp] models the built-in pattern engine (ECMAScript with the
      grammar of its Annex B, no flags): a machine driven by the characters
      of the pattern text builds a syntax tree, and a matcher enumerates the
      positions where a match may end.  Back-references, legacy octal
      escapes, pattern modifiers, group names beyond ASCII or repeated, and
      the escapes c, x, u and digits inside a class are not modelled: the
      constructor then answers [Unmodelled].
    - Objects that the program shares by reference ([Route], [Router] and
      [Simpress] instances) live in a store and are named by their address.
    - Middlewares, error middlewares and request listeners are function
      objects with an identity; a call acts on the request and the response
      and settles the promise that the listener awaits.  They do not change
      the registry while a request is dispatched.
    - The asynchronous listener is run to completion: its result records the
      calls it made, in order, and how the promise it returned settled. *)

From Stdlib Require Import String Ascii NArith ZArith List Bool Arith Lia.
From stdpp Require Import base list.
Import ListNotations.

Local Open Scope char_scope.
Local Open Scope N_scope.
Local Open Scope nat_scope.
Local Open Scope list_scope.

(** ** Results of operations that may throw *)

Inductive exn : Type :=
| SyntaxError          (* thrown by the RegExp constructor *)
| HeadersSent          (* ERR_HTTP_HEADERS_SENT, thrown by writeHead *)
| Unmodelled.          (* the input leaves the modelled fragment *)

Inductive result (A : Type) : Type :=
| Ok (a : A)
| Err (e : exn).
Arguments Ok {A} a.
Arguments Err {A} e.

Definition bind {A B : Type} (m : result A) (k : A -> result B) : result B :=
  match m with
  | Ok a => k a
  | Err e => Err e
  end.

(** ** The pattern engine *)

Module RegExp.

(** *** Syntax trees *)

Inductive class_escape : Type :=
| EDigit | ENotDigit | EWord | ENotWord | ESpace | ENotSpace.

Inductive class_item : Type :=
| CChar (c : N)
| CRange (lo hi : N)
| CEsc (e : class_escape).

Inductive group_kind : Type :=
| Capture
| Named (name : string)
| NonCapture
| Lookahead (neg : bool)
| Lookbehind (neg : bool).

Inductive regex : Type :=
| Empty
| Char (c : N)
| Any
| Esc (e : class_escape)
| Class (neg : bool) (items : list class_item)
| Bol
| Eol
| WordBoundary (neg : bool)
| Seq (r1 r2 : regex)
| Alt (r1 r2 : regex)
| Quant (min : N) (max : option N) (greedy : bool) (r : regex)
| Group (k : group_kind) (r : regex).

(** *** Tokens *)

Inductive token : Type :=
| TAtom (r : regex)
| TAssert (r : regex)
| TQuant (min : N) (max : option N)
| TQuest
| TOpen (k : group_kind)
| TClose
| TBar.

(** *** Character helpers *)

Definition code (c : ascii) : N := N_of_ascii c.
Arguments code : simpl never.

Definition between (lo hi : N) (n : N) : bool := (lo <=? n)%N && (n <=? hi)%N.

Definition is_digit (c : ascii) : bool := between 48 57 (code c).
Definition is_upper (c : ascii) : bool := between 65 90 (code c).
Definition is_lower (c : ascii) : bool := between 97 122 (code c).
Definition is_letter (c : ascii) : bool := is_upper c || is_lower c.
Definition is_hex (c : ascii) : bool :=
  is_digit c || between 65 70 (code c) || between 97 102 (code c).

Definition digit_val (c : ascii) : N := (code c - 48)%N.

Definition hex_val (c : ascii) : N :=
  if is_digit c then (code c - 48)%N
  else if is_upper c then (code c - 55)%N
  else (code c - 87)%N.

(** value of a digit string given most significant digit first *)
Definition number (base : N) (val : ascii -> N) (ds : list ascii) : N :=
  fold_left (fun acc d => (acc * base + val d)%N) ds 0%N.

Definition is_id_start (c : ascii) : bool :=
  is_letter c || Ascii.eqb c "$" || Ascii.eqb c "_".
Definition is_id_part (c : ascii) : bool := is_id_start c || is_digit c.
Definition is_ascii7 (c : ascii) : bool := (code c <? 128)%N.

(** *** The lexer: one character at a time *)

Inductive brace_state : Type :=
| BMin (ds : list ascii)                 (* {ddd      digits reversed *)
| BMax (ds : list ascii) (es : list ascii). (* {ddd,eee  *)

Inductive pending : Type :=
| PNone
| PAtom (a : class_item)
| PDash (a : class_item).

Record class_state : Type := mkClass {
  c_neg : bool;
  c_start : bool;               (* nothing read after the opening bracket *)
  c_esc : bool;                 (* a backslash was just read *)
  c_items : list class_item;    (* reversed *)
  c_pend : pending
}.

Inductive lmode : Type :=
| LNormal
| LEscape
| LCtrl
| LZero
| LHex (want : nat) (letter : ascii) (have : list ascii)
| LParen
| LParenQ
| LParenQLt
| LName (acc : list ascii)
| LBrace (b : brace_state)
| LClass (c : class_state).

Definition lit (c : ascii) : token := TAtom (Char (code c)).

Definition class_init : class_state :=
  {| c_neg := false; c_start := true; c_esc := false; c_items := []; c_pend := PNone |}.

Definition lex_normal (c : ascii) : lmode * list token :=
  match c with
  | "^" => (LNormal, [TAssert Bol])
  | "$" => (LNormal, [TAssert Eol])
  | "\" => (LEscape, [])
  | "." => (LNormal, [TAtom Any])
  | "*" => (LNormal, [TQuant 0 None])
  | "+" => (LNormal, [TQuant 1 None])
  | "?" => (LNormal, [TQuest])
  | "(" => (LParen, [])
  | ")" => (LNormal, [TClose])
  | "[" => (LClass class_init, [])
  | "{" => (LBrace (BMin []), [])
  | "|" => (LNormal, [TBar])
  | _ => (LNormal, [lit c])
  end.

(** re-read [c] in normal mode after the tokens [ts] of an abandoned form *)
Definition resume (ts : list token) (c : ascii) : result (lmode * list token) :=
  let '(m, ts') := lex_normal c in Ok (m, ts ++ ts').

Definition lex_escape (c : ascii) : result (lmode * list token) :=
  match c with
  | "d" => Ok (LNormal, [TAtom (Esc EDigit)])
  | "D" => Ok (LNormal, [TAtom (Esc ENotDigit)])
  | "w" => Ok (LNormal, [TAtom (Esc EWord)])
  | "W" => Ok (LNormal, [TAtom (Esc ENotWord)])
  | "s" => Ok (LNormal, [TAtom (Esc ESpace)])
  | "S" => Ok (LNormal, [TAtom (Esc ENotSpace)])
  | "b" => Ok (LNormal, [TAssert (WordBoundary false)])
  | "B" => Ok (LNormal, [TAssert (WordBoundary true)])
  | "f" => Ok (LNormal, [TAtom (Char 12)])
  | "n" => Ok (LNormal, [TAtom (Char 10)])
  | "r" => Ok (LNormal, [TAtom (Char 13)])
  | "t" => Ok (LNormal, [TAtom (Char 9)])
  | "v" => Ok (LNormal, [TAtom (Char 11)])
  | "c" => Ok (LCtrl, [])
  | "0" => Ok (LZero, [])
  | "x" => Ok (LHex 2 "x" [], [])
  | "u" => Ok (LHex 4 "u" [], [])
  | "k" => Err Unmodelled              (* named back-reference *)
  | _ => if is_digit c then Err Unmodelled   (* back-reference, legacy octal *)
         else Ok (LNormal, [lit c])          (* identity escape *)
  end.

Definition brace_text (b : brace_state) : list ascii :=
  match b with
  | BMin ds => "{" :: rev ds
  | BMax ds es => "{" :: rev ds ++ "," :: rev es
  end.

Definition dec (ds : list ascii) : N := number 10 digit_val (rev ds).

(** the bounds of a quantifier as V8 reads them: a number stops at
    [kMaxInt], which as an upper bound stands for no bound *)
Definition kMaxInt : N := 2147483647.

Definition lower (ds : list ascii) : N := N.min (dec ds) kMaxInt.

Definition upper (ds : list ascii) : option N :=
  if (kMaxInt <=? dec ds)%N then None else Some (dec ds).

Definition lex_brace (b : brace_state) (c : ascii) : result (lmode * list token) :=
  if is_digit c then
    match b with
    | BMin ds => Ok (LBrace (BMin (c :: ds)), [])
    | BMax ds es => Ok (LBrace (BMax ds (c :: es)), [])
    end
  else
    match b, c with
    | BMin (d :: ds), "," => Ok (LBrace (BMax (d :: ds) []), [])
    | BMin (d :: ds), "}" => Ok (LNormal, [TQuant (lower (d :: ds)) (upper (d :: ds))])
    | BMax ds [], "}" => Ok (LNormal, [TQuant (lower ds) None])
    | BMax ds (e :: es), "}" => Ok (LNormal, [TQuant (lower ds) (upper (e :: es))])
    | _, _ => resume (map lit (brace_text b)) c
    end.

(** a class atom enters the class: alone, or as an end of a range *)
Definition class_range (a b : class_item) : result (list class_item) :=
  match a, b with
  | CChar lo, CChar hi => if (lo <=? hi)%N then Ok [CRange lo hi] else Err SyntaxError
  | _, _ => Ok [b; CChar 45; a]
  end.

Definition class_atom (cs : class_state) (a : class_item) : result class_state :=
  match c_pend cs with
  | PNone =>
      Ok {| c_neg := c_neg cs; c_start := false; c_esc := false;
            c_items := c_items cs; c_pend := PAtom a |}
  | PAtom p =>
      Ok {| c_neg := c_neg cs; c_start := false; c_esc := false;
            c_items := p :: c_items cs; c_pend := PAtom a |}
  | PDash p =>
      bind (class_range p a) (fun its =>
      Ok {| c_neg := c_neg cs; c_start := false; c_esc := false;
            c_items := its ++ c_items cs; c_pend := PNone |})
  end.

Definition class_dash (cs : class_state) : result class_state :=
  match c_pend cs with
  | PAtom p =>
      Ok {| c_neg := c_neg cs; c_start := false; c_esc := false;
            c_items := c_items cs; c_pend := PDash p |}
  | _ => class_atom cs (CChar 45)
  end.

Definition class_close (cs : class_state) : regex :=
  Class (c_neg cs)
    (rev (match c_pend cs with
          | PNone => c_items cs
          | PAtom p => p :: c_items cs
          | PDash p => CChar 45 :: p :: c_items cs
          end)).

Definition class_escaped (c : ascii) : result class_item :=
  match c with
  | "d" => Ok (CEsc EDigit)
  | "D" => Ok (CEsc ENotDigit)
  | "w" => Ok (CEsc EWord)
  | "W" => Ok (CEsc ENotWord)
  | "s" => Ok (CEsc ESpace)
  | "S" => Ok (CEsc ENotSpace)
  | "b" => Ok (CChar 8)
  | "f" => Ok (CChar 12)
  | "n" => Ok (CChar 10)
  | "r" => Ok (CChar 13)
  | "t" => Ok (CChar 9)
  | "v" => Ok (CChar 11)
  | "c" | "x" | "u" | "k" => Err Unmodelled
  | _ => if is_digit c then Err Unmodelled else Ok (CChar (code c))
  end.

Definition lex_class (cs : class_state) (c : ascii) : result (lmode * list token) :=
  if c_esc cs then
    bind (class_escaped c) (fun a =>
    bind (class_atom cs a) (fun cs' => Ok (LClass cs', [])))
  else
    match c with
    | "\" =>
        Ok (LClass {| c_neg := c_neg cs; c_start := false; c_esc := true;
                      c_items := c_items cs; c_pend := c_pend cs |}, [])
    | "]" => Ok (LNormal, [TAtom (class_close cs)])
    | "^" =>
        if c_start cs then
          Ok (LClass {| c_neg := true; c_start := false; c_esc := false;
                        c_items := c_items cs; c_pend := c_pend cs |}, [])
        else bind (class_atom cs (CChar (code c))) (fun cs' => Ok (LClass cs', []))
    | "-" => bind (class_dash cs) (fun cs' => Ok (LClass cs', []))
    | _ => bind (class_atom cs (CChar (code c))) (fun cs' => Ok (LClass cs', []))
    end.

Definition lex (m : lmode) (c : ascii) : result (lmode * list token) :=
  match m with
  | LNormal => Ok (lex_normal c)
  | LEscape => lex_escape c
  | LCtrl =>
      if is_letter c then Ok (LNormal, [TAtom (Char (code c mod 32))])
      else resume [lit "\"; lit "c"] c
  | LZero =>
      if is_digit c then Err Unmodelled     (* legacy octal escape *)
      else resume [TAtom (Char 0)] c
  | LHex want letter have =>
      if is_hex c then
        match want with
        | 0 | 1 => Ok (LNormal, [TAtom (Char (number 16 hex_val (rev (c :: have))))])
        | S w => Ok (LHex w letter (c :: have), [])
        end
      else resume (map lit (letter :: rev have)) c
  | LParen =>
      match c with
      | "?" => Ok (LParenQ, [])
      | _ => resume [TOpen Capture] c
      end
  | LParenQ =>
      match c with
      | ":" => Ok (LNormal, [TOpen NonCapture])
      | "=" => Ok (LNormal, [TOpen (Lookahead false)])
      | "!" => Ok (LNormal, [TOpen (Lookahead true)])
      | "<" => Ok (LParenQLt, [])
      | "i" | "m" | "s" | "-" => Err Unmodelled   (* pattern modifiers *)
      | _ => Err SyntaxError
      end
  | LParenQLt =>
      match c with
      | "=" => Ok (LNormal, [TOpen (Lookbehind false)])
      | "!" => Ok (LNormal, [TOpen (Lookbehind true)])
      | "\" => Err Unmodelled
      | _ => if is_id_start c then Ok (LName [c], [])
             else if is_ascii7 c then Err SyntaxError else Err Unmodelled
      end
  | LName acc =>
      match c with
      | ">" => Ok (LNormal, [TOpen (Named (string_of_list_ascii (rev acc)))])
      | "\" => Err Unmodelled
      | _ => if is_id_part c then Ok (LName (c :: acc), [])
             else if is_ascii7 c then Err SyntaxError else Err Unmodelled
      end
  | LBrace b => lex_brace b c
  | LClass cs => lex_class cs c
  end.

(** what is pending when the pattern text ends *)
Definition lex_end (m : lmode) : result (list token) :=
  match m with
  | LNormal => Ok []
  | LEscape => Err SyntaxError
  | LCtrl => Ok [lit "\"; lit "c"]
  | LZero => Ok [TAtom (Char 0)]
  | LHex _ letter have => Ok (map lit (letter :: rev have))
  | LParen => Ok [TOpen Capture]
  | LParenQ | LParenQLt | LName _ => Err SyntaxError
  | LBrace b => Ok (map lit (brace_text b))
  | LClass _ => Err SyntaxError
  end.

(** *** The parser: one token at a time *)

Inductive last_kind : Type :=
| KNone        (* start of an alternative *)
| KAtom        (* a term that a quantifier may follow *)
| KAssert      (* an assertion *)
| KQuant       (* a quantified term: only the lazy mark may follow *)
| KLazy.

Record pstate : Type := mkP {
  p_stack : list (group_kind * list regex * list regex);
                             (* open groups: kind, and what encloses them *)
  p_alts : list regex;       (* finished alternatives, reversed *)
  p_seq : list regex;        (* terms of the current alternative, reversed *)
  p_last : last_kind;
  p_names : list string      (* group names seen so far *)
}.

Definition p_init : pstate :=
  {| p_stack := []; p_alts := []; p_seq := []; p_last := KNone; p_names := [] |}.

Definition mk_seq (ts : list regex) : regex :=
  fold_left (fun acc t => Seq t acc) ts Empty.

Definition close (alts ts : list regex) : regex :=
  fold_left (fun acc a => Alt a acc) alts (mk_seq ts).

(** the bounds of a quantifier are in order; they are the numbers that
    [lower] and [upper] read, none beyond [kMaxInt] *)
Definition range_ok (mn : N) (mx : option N) : bool :=
  match mx with
  | Some m => (mn <=? m)%N
  | None => true
  end.

Definition parse (p : pstate) (t : token) : result pstate :=
  match t with
  | TAtom r =>
      Ok {| p_stack := p_stack p; p_alts := p_alts p; p_seq := r :: p_seq p;
            p_last := KAtom; p_names := p_names p |}
  | TAssert r =>
      Ok {| p_stack := p_stack p; p_alts := p_alts p; p_seq := r :: p_seq p;
            p_last := KAssert; p_names := p_names p |}
  | TQuant mn mx =>
      match p_last p, p_seq p with
      | KAtom, a :: ts =>
          if range_ok mn mx then
            Ok {| p_stack := p_stack p; p_alts := p_alts p;
                  p_seq := Quant mn mx true a :: ts;
                  p_last := KQuant; p_names := p_names p |}
          else Err SyntaxError
      | _, _ => Err SyntaxError
      end
  | TQuest =>
      match p_last p, p_seq p with
      | KAtom, a :: ts =>
          Ok {| p_stack := p_stack p; p_alts := p_alts p;
                p_seq := Quant 0 (Some 1%N) true a :: ts;
                p_last := KQuant; p_names := p_names p |}
      | KQuant, Quant mn mx _ a :: ts =>
          Ok {| p_stack := p_stack p; p_alts := p_alts p;
                p_seq := Quant mn mx false a :: ts;
                p_last := KLazy; p_names := p_names p |}
      | _, _ => Err SyntaxError
      end
  | TOpen k =>
      let opened names :=
        Ok {| p_stack := (k, p_alts p, p_seq p) :: p_stack p; p_alts := [];
              p_seq := []; p_last := KNone; p_names := names |} in
      match k with
      | Named n =>
          if existsb (String.eqb n) (p_names p) then Err Unmodelled
          else opened (n :: p_names p)
      | _ => opened (p_names p)
      end
  | TClose =>
      match p_stack p with
      | [] => Err SyntaxError
      | (k, alts, ts) :: st =>
          Ok {| p_stack := st; p_alts := alts;
                p_seq := Group k (close (p_alts p) (p_seq p)) :: ts;
                p_last := match k with Lookbehind _ => KAssert | _ => KAtom end;
                p_names := p_names p |}
      end
  | TBar =>
      Ok {| p_stack := p_stack p; p_alts := mk_seq (p_seq p) :: p_alts p;
            p_seq := []; p_last := KNone; p_names := p_names p |}
  end.

Definition parse_all (p : result pstate) (ts : list token) : result pstate :=
  fold_left (fun acc t => bind acc (fun q => parse q t)) ts p.

Definition parse_end (p : pstate) : result regex :=
  match p_stack p with
  | [] => Ok (close (p_alts p) (p_seq p))
  | _ :: _ => Err SyntaxError
  end.

(** *** The machine: lexer and parser driven by the pattern text *)

Abbreviation mstate := (lmode * pstate)%type.

Definition feed (s : result mstate) (c : ascii) : result mstate :=
  bind s (fun '(m, p) =>
  bind (lex m c) (fun '(m', ts) =>
  bind (parse_all (Ok p) ts) (fun p' => Ok (m', p')))).

Definition finish (s : result mstate) : result regex :=
  bind s (fun '(m, p) =>
  bind (lex_end m) (fun ts =>
  bind (parse_all (Ok p) ts) parse_end)).

Definition run (s : result mstate) (text : list ascii) : result mstate :=
  fold_left feed text s.

Definition compile (pattern : string) : result regex :=
  finish (run (Ok (LNormal, p_init)) (list_ascii_of_string pattern)).

(** *** Matching *)

Definition is_word_code (n : N) : bool :=
  between 48 57 n || between 65 90 n || between 97 122 n || (n =? 95)%N.

Definition is_space_code (n : N) : bool :=
  between 9 13 n || (n =? 32)%N || (n =? 160)%N.

Definition is_line_end (n : N) : bool := (n =? 10)%N || (n =? 13)%N.

Definition in_escape (e : class_escape) (n : N) : bool :=
  match e with
  | EDigit => between 48 57 n
  | ENotDigit => negb (between 48 57 n)
  | EWord => is_word_code n
  | ENotWord => negb (is_word_code n)
  | ESpace => is_space_code n
  | ENotSpace => negb (is_space_code n)
  end.

Definition in_item (i : class_item) (n : N) : bool :=
  match i with
  | CChar c => (n =? c)%N
  | CRange lo hi => between lo hi n
  | CEsc e => in_escape e n
  end.

(** one character at position [i], when it satisfies [p] *)
Definition one (p : N -> bool) (s : list ascii) (i : nat) : list nat :=
  match nth_error s i with
  | Some c => if p (code c) then [S i] else []
  | None => []
  end.

Definition word_at (s : list ascii) (i : nat) : bool :=
  match nth_error s i with
  | Some c => is_word_code (code c)
  | None => false
  end.

Definition at_boundary (s : list ascii) (i : nat) : bool :=
  xorb (match i with 0 => false | S j => word_at s j end) (word_at s i).

Definition guard (b : bool) (i : nat) : list nat := if b then [i] else [].

(** the positions reached by repeating a step, as RepeatMatcher does: once the
    minimum is reached an iteration that consumes nothing is dropped.  The
    fuel bounds the depth: [mn] iterations to reach the minimum, then one for
    each position of the input. *)
Fixpoint repeat (step : nat -> list nat) (fuel : nat) (mn : nat) (mx : option nat)
    (greedy : bool) (x : nat) : list nat :=
  match mx with
  | Some 0 => [x]
  | _ =>
      match fuel with
      | 0 => []
      | S fuel' =>
          let more :=
            flat_map (fun y =>
              if (mn =? 0) && (y =? x) then []
              else repeat step fuel' (pred mn) (option_map pred mx) greedy y)
              (step x) in
          if mn =? 0 then (if greedy then more ++ [x] else x :: more) else more
      end
  end.

Definition nonempty {A : Type} (l : list A) : bool :=
  match l with [] => false | _ :: _ => true end.

(** [ends r s i]: the positions where a match of [r] that starts at position
    [i] of [s] may end, in the order in which backtracking tries them *)
Fixpoint ends (r : regex) (s : list ascii) (i : nat) {struct r} : list nat :=
  match r with
  | Empty => [i]
  | Char c => one (N.eqb c) s i
  | Any => one (fun n => negb (is_line_end n)) s i
  | Esc e => one (in_escape e) s i
  | Class neg items =>
      one (fun n => xorb neg (existsb (fun it => in_item it n) items)) s i
  | Bol => guard (i =? 0) i
  | Eol => guard (i =? length s) i
  | WordBoundary neg => guard (xorb neg (at_boundary s i)) i
  | Seq r1 r2 => flat_map (ends r2 s) (ends r1 s i)
  | Alt r1 r2 => ends r1 s i ++ ends r2 s i
  | Quant mn mx greedy r1 =>
      repeat (ends r1 s) (S (length s + N.to_nat mn)) (N.to_nat mn)
        (option_map N.to_nat mx) greedy i
  | Group (Lookahead neg) r1 => guard (xorb neg (nonempty (ends r1 s i))) i
  | Group (Lookbehind neg) r1 =>
      guard (xorb neg (existsb (fun j => existsb (Nat.eqb i) (ends r1 s j))
                         (seq 0 (S i)))) i
  | Group _ r1 => ends r1 s i
  end.

(** a match may start at any position, the end of the input included *)
Definition matches (r : regex) (s : string) : bool :=
  let l := list_ascii_of_string s in
  existsb (fun i => nonempty (ends r l i)) (seq 0 (S (length l))).

(** *** The pattern text of a path string *)

(** the text that [route] puts behind a path string, and the tokens that it
    yields when it is read in normal mode *)
Definition tail_text : list ascii := ["\"; "/"; "?"; "$"; "|"; "\"; "?"].

Definition tail_tokens : list token := [lit "/"; TQuest; TAssert Eol; TBar; lit "?"].

Definition after_tail (p : pstate) : result mstate :=
  bind (parse_all (Ok p) tail_tokens) (fun p' => Ok (LNormal, p')).

(** a match of [r] may start at every question mark *)
Definition accepts_query (r : regex) : Prop :=
  forall s i, nth_error s i = Some "?" -> nonempty (ends r s i) = true.

(** the characters that are not read as themselves in normal mode *)
Definition metachars : list ascii :=
  ["^"; "$"; "\"; "."; "*"; "+"; "?"; "("; ")"; "["; "{"; "|"].

Definition plain (c : ascii) : bool := negb (existsb (Ascii.eqb c) metachars).

(** a path string without metacharacters *)
Definition literal (path : string) : bool :=
  forallb plain (list_ascii_of_string path).

(** what a plain character does to the parser *)
Definition push_lit (p : pstate) (c : ascii) : pstate :=
  {| p_stack := p_stack p; p_alts := p_alts p; p_seq := Char (code c) :: p_seq p;
     p_last := KAtom; p_names := p_names p |}.

(** the characters [cs] one after the other, then [k] *)
Definition chain (cs : list ascii) (k : regex) : regex :=
  fold_right (fun c acc => Seq (Char (code c)) acc) k cs.

Definition optional_slash_end : regex :=
  Seq (Quant 0 (Some 1%N) true (Char (code "/"))) (Seq Eol Empty).

(** the tree of the pattern text of a literal path *)
Definition path_regex (cs : list ascii) : regex :=
  Alt (Seq Bol (chain cs optional_slash_end)) (Seq (Char (code "?")) Empty).

(** [cs] is read in [s] from position [i] on *)
Fixpoint starts_at (cs s : list ascii) (i : nat) : bool :=
  match cs with
  | [] => true
  | c :: cs' =>
      match nth_error s i with
      | Some d => Ascii.eqb d c && starts_at cs' s (S i)
      | None => false
      end
  end.

(** *** RegExp objects *)

(** the [source] text of a pattern as V8 prints it: a slash outside a class
    and a line terminator are escaped, an escaped character is kept *)
Fixpoint escape_source (in_class : bool) (cs : list ascii) : list ascii :=
  match cs with
  | [] => []
  | "\" :: c :: rest =>
      if (code c =? 10)%N then "\" :: "n" :: escape_source in_class rest
      else if (code c =? 13)%N then "\" :: "r" :: escape_source in_class rest
      else "\" :: c :: escape_source in_class rest
  | c :: rest =>
      if (code c =? 10)%N then "\" :: "n" :: escape_source in_class rest
      else if (code c =? 13)%N then "\" :: "r" :: escape_source in_class rest
      else if Ascii.eqb c "/" && negb in_class then "\" :: "/" :: escape_source in_class rest
      else if Ascii.eqb c "[" then c :: escape_source true rest
      else if Ascii.eqb c "]" then c :: escape_source false rest
      else c :: escape_source in_class rest
  end.

Definition source_of (pattern : string) : string :=
  match pattern with
  | EmptyString => "(?:)"
  | _ => string_of_list_ascii (escape_source false (list_ascii_of_string pattern))
  end.

(** a RegExp object without flags; [lastIndex] stays 0 and is left out *)
Record t : Type := mk {
  source : string;
  program : regex
}.

(** [new RegExp(pattern)] *)
Definition new (pattern : string) : result t :=
  bind (compile pattern) (fun r => Ok {| source := source_of pattern; program := r |}).

(** [re.test(s)]: a match may start at any position *)
Definition test (re : t) (s : string) : bool := matches (program re) s.

End RegExp.

(** ** JavaScript values carried by continuations *)

(** numbers are the integer-valued ones; objects are named by reference and
    are not thenables; a thenable is known by how it settles *)
Inductive jsval : Type :=
| JUndefined
| JNull
| JBool (b : bool)
| JNum (n : Z)
| JStr (s : string)
| JObj (ref : nat)
| JResolves (v : jsval)        (* a thenable that resolves with [v] *)
| JRejects (e : jsval)         (* a thenable that rejects with [e] *)
| JNever.                      (* a thenable that never settles *)

(** [v === undefined] *)
Definition is_undefined (v : jsval) : bool :=
  match v with
  | JUndefined => true
  | _ => false
  end.

(** ** The http collaborator *)

Record Request : Type := mkRequest {
  url : string;
  method : string;
  pathRegex : option RegExp.t;
  body : jsval;
  props : list (string * jsval)    (* whatever else middlewares attach *)
}.

Record Response : Type := mkResponse {
  statusCode : nat;
  headers : list (string * string);
  headersSent : bool;
  chunks : list string;            (* body written so far *)
  finished : bool
}.

(** the response object handed to a listener by the server *)
Definition fresh_response : Response :=
  {| statusCode := 200; headers := []; headersSent := false; chunks := [];
     finished := false |}.

(** [res.writeHead(code)] *)
Definition writeHead (code : nat) (res : Response) : result Response :=
  if headersSent res then Err HeadersSent
  else Ok {| statusCode := code; headers := headers res; headersSent := true;
             chunks := chunks res; finished := finished res |}.

(** [res.end()] without data *)
Definition end_ (res : Response) : Response :=
  if finished res then res
  else {| statusCode := statusCode res; headers := headers res; headersSent := true;
          chunks := chunks res; finished := true |}.

Definition set_pathRegex (re : RegExp.t) (req : Request) : Request :=
  {| url := url req; method := method req; pathRegex := Some re;
     body := body req; props := props req |}.

(** ** Middlewares, error middlewares and request listeners *)

(** how the promise wrapped around a middleware call settles: the
    continuation is called with [v] (first call), the call throws before
    that, or neither ever happens *)
Inductive signal : Type :=
| Next (v : jsval)
| Throws (e : jsval)
| NoNext.

(** the continuation is the [resolve] of the promise that the listener
    awaits: a thenable handed to it is adopted, any other value fulfils the
    promise *)
Fixpoint adopt (v : jsval) : signal :=
  match v with
  | JResolves w => adopt w
  | JRejects e => Throws e
  | JNever => NoNext
  | _ => Next v
  end.

(** what [await new Promise(resolve => f(..., resolve))] comes to: [Next v],
    the promise yields [v]; [Throws e], the [await] throws [e]; [NoNext], it
    never returns *)
Definition awaited (s : signal) : signal :=
  match s with
  | Next v => adopt v
  | Throws e => Throws e
  | NoNext => NoNext
  end.

(** a function object: its identity and what a call does to the request and
    response it is handed *)
Record Middleware : Type := mkMw {
  mw_id : nat;
  mw_run : Request -> Response -> Request * Response * signal
}.

Record ErrorMiddleware : Type := mkEm {
  em_id : nat;
  em_run : jsval -> Request -> Response -> Request * Response * signal
}.

Record RequestListener : Type := mkListener {
  l_id : nat;
  l_run : Request -> Response -> Request * Response * option jsval
                                   (* [Some e]: the call throws [e] *)
}.

(** [list.includes(f)] on function objects *)
Definition includes_mw (l : list Middleware) (m : Middleware) : bool :=
  existsb (fun x => mw_id x =? mw_id m) l.

Definition includes_em (l : list ErrorMiddleware) (m : ErrorMiddleware) : bool :=
  existsb (fun x => em_id x =? em_id m) l.

(** [if (!list.includes(f)) list.push(f)] *)
Definition push_mw (l : list Middleware) (m : Middleware) : list Middleware :=
  if includes_mw l m then l else l ++ [m].

Definition push_em (l : list ErrorMiddleware) (m : ErrorMiddleware) : list ErrorMiddleware :=
  if includes_em l m then l else l ++ [m].

(** ** The classes *)

Definition addr : Type := nat.

(** a path given to [route] or [findRoute] *)
Inductive path_spec : Type :=
| PString (s : string)
| PRegExp (re : RegExp.t).

(** [if (typeof path === 'string') path = new RegExp('^' + path + '\\/?$|\\?')] *)
Definition to_regexp (path : path_spec) : result RegExp.t :=
  match path with
  | PString s => RegExp.new ("^" ++ s ++ "\/?$|\?")%string
  | PRegExp re => Ok re
  end.

(** [method + '|' + path.source] *)
Definition route_key (method : string) (re : RegExp.t) : string :=
  (method ++ "|" ++ RegExp.source re)%string.

(** a [Map] with string keys, in insertion order *)
Module JsMap.

Definition t (V : Type) : Type := list (string * V).

Fixpoint get {V : Type} (m : t V) (k : string) : option V :=
  match m with
  | [] => None
  | (k', v) :: rest => if String.eqb k' k then Some v else get rest k
  end.

(** an existing key keeps its place, a new key goes last *)
Fixpoint set {V : Type} (m : t V) (k : string) (v : V) : t V :=
  match m with
  | [] => [(k, v)]
  | (k', v') :: rest =>
      if String.eqb k' k then (k', v) :: rest else (k', v') :: set rest k v
  end.

End JsMap.

Module Route.

Record t : Type := mk {
  path : RegExp.t;
  method : string;
  listener : RequestListener;
  middlewares : list Middleware;
  errMiddlewares : list ErrorMiddleware
}.

(** the constructor *)
Definition new (path : RegExp.t) (method : string) (listener : RequestListener) : t :=
  {| path := path; method := method; listener := listener;
     middlewares := []; errMiddlewares := [] |}.

Definition with_use (m : Middleware) (r : t) : t :=
  {| path := path r; method := method r; listener := listener r;
     middlewares := push_mw (middlewares r) m; errMiddlewares := errMiddlewares r |}.

Definition with_useForError (m : ErrorMiddleware) (r : t) : t :=
  {| path := path r; method := method r; listener := listener r;
     middlewares := middlewares r; errMiddlewares := push_em (errMiddlewares r) m |}.

End Route.

Module Router.

Record t : Type := mk {
  routes : JsMap.t addr;             (* key to Route object *)
  middlewares : list Middleware;
  errMiddlewares : list ErrorMiddleware
}.

Definition new : t := {| routes := []; middlewares := []; errMiddlewares := [] |}.

Definition with_use (m : Middleware) (r : t) : t :=
  {| routes := routes r; middlewares := push_mw (middlewares r) m;
     errMiddlewares := errMiddlewares r |}.

Definition with_useForError (m : ErrorMiddleware) (r : t) : t :=
  {| routes := routes r; middlewares := middlewares r;
     errMiddlewares := push_em (errMiddlewares r) m |}.

Definition with_route (k : string) (a : addr) (r : t) : t :=
  {| routes := JsMap.set (routes r) k a; middlewares := middlewares r;
     errMiddlewares := errMiddlewares r |}.

End Router.

Module Simpress.

Record t : Type := mk {
  middlewares : list Middleware;
  errMiddlewares : list ErrorMiddleware;
  _routers : list addr               (* Router objects *)
}.

Definition with_use (m : Middleware) (a : t) : t :=
  {| middlewares := push_mw (middlewares a) m; errMiddlewares := errMiddlewares a;
     _routers := _routers a |}.

Definition with_useForError (m : ErrorMiddleware) (a : t) : t :=
  {| middlewares := middlewares a; errMiddlewares := push_em (errMiddlewares a) m;
     _routers := _routers a |}.

(** [if (!this._routers.includes(router)) this._routers.push(router)] *)
Definition with_useRouter (r : addr) (a : t) : t :=
  {| middlewares := middlewares a; errMiddlewares := errMiddlewares a;
     _routers := if existsb (Nat.eqb r) (_routers a) then _routers a
                 else _routers a ++ [r] |}.

End Simpress.

(** ** The store of shared objects *)

Record Store : Type := mkStore {
  route_objs : list Route.t;
  router_objs : list Router.t;
  app_objs : list Simpress.t
}.

Definition empty_store : Store :=
  {| route_objs := []; router_objs := []; app_objs := [] |}.

(** a computation on the store that may throw *)
Definition M (A : Type) : Type := Store -> result (A * Store).

Definition ret {A : Type} (a : A) : M A := fun st => Ok (a, st).

Definition bindM {A B : Type} (m : M A) (k : A -> M B) : M B :=
  fun st => match m st with
            | Ok (a, st') => k a st'
            | Err e => Err e
            end.

Definition lift {A : Type} (r : result A) : M A :=
  fun st => match r with
            | Ok a => Ok (a, st)
            | Err e => Err e
            end.

Notation "'let*' x ':=' m 'in' k" := (bindM m (fun x => k))
  (at level 10, x name, m at level 100, k at level 200).

(** dereferencing; an address outside the store cannot arise in the program *)
Definition the {A : Type} (o : option A) : result A :=
  match o with
  | Some a => Ok a
  | None => Err Unmodelled
  end.

Definition get_route (a : addr) : M Route.t := fun st => lift (the (route_objs st !! a)) st.
Definition get_router (a : addr) : M Router.t := fun st => lift (the (router_objs st !! a)) st.
Definition get_app (a : addr) : M Simpress.t := fun st => lift (the (app_objs st !! a)) st.

Definition alloc_route (r : Route.t) : M addr :=
  fun st => Ok (length (route_objs st),
                {| route_objs := route_objs st ++ [r]; router_objs := router_objs st;
                   app_objs := app_objs st |}).

Definition alloc_router (r : Router.t) : M addr :=
  fun st => Ok (length (router_objs st),
                {| route_objs := route_objs st; router_objs := router_objs st ++ [r];
                   app_objs := app_objs st |}).

Definition alloc_app (a : Simpress.t) : M addr :=
  fun st => Ok (length (app_objs st),
                {| route_objs := route_objs st; router_objs := router_objs st;
                   app_objs := app_objs st ++ [a] |}).

Definition update_route (a : addr) (f : Route.t -> Route.t) : M unit :=
  let* r := get_route a in
  fun st => Ok (tt, {| route_objs := <[a := f r]> (route_objs st);
                       router_objs := router_objs st; app_objs := app_objs st |}).

Definition update_router (a : addr) (f : Router.t -> Router.t) : M unit :=
  let* r := get_router a in
  fun st => Ok (tt, {| route_objs := route_objs st;
                       router_objs := <[a := f r]> (router_objs st);
                       app_objs := app_objs st |}).

Definition update_app (a : addr) (f : Simpress.t -> Simpress.t) : M unit :=
  let* r := get_app a in
  fun st => Ok (tt, {| route_objs := route_objs st; router_objs := router_objs st;
                       app_objs := <[a := f r]> (app_objs st) |}).

(** ** Methods *)

(** [Route.use], [Route.useForError]: both return [this] *)
Definition Route_use (this : addr) (m : Middleware) : M addr :=
  let* _ := update_route this (Route.with_use m) in ret this.

Definition Route_useForError (this : addr) (m : ErrorMiddleware) : M addr :=
  let* _ := update_route this (Route.with_useForError m) in ret this.

Definition Router_new : M addr := alloc_router Router.new.

Definition Router_use (this : addr) (m : Middleware) : M addr :=
  let* _ := update_router this (Router.with_use m) in ret this.

Definition Router_useForError (this : addr) (m : ErrorMiddleware) : M addr :=
  let* _ := update_router this (Router.with_useForError m) in ret this.

(** [Router.route] *)
Definition Router_route (this : addr) (path : path_spec) (method : string)
    (listener : RequestListener) : M addr :=
  let* re := lift (to_regexp path) in
  let* route := alloc_route (Route.new re method listener) in
  let* _ := update_router this (Router.with_route (route_key method re) route) in
  ret route.

(** [Router.findRoute]: [None] is [null] *)
Definition Router_findRoute (this : addr) (path : path_spec) (method : string)
    : M (option addr) :=
  let* re := lift (to_regexp path) in
  let* r := get_router this in
  ret (JsMap.get (Router.routes r) (route_key method re)).

(** the constructor of [Simpress]: [this._routers = [new Router()]] *)
Definition Simpress_new : M addr :=
  let* r := Router_new in
  alloc_app {| Simpress.middlewares := []; Simpress.errMiddlewares := [];
               Simpress._routers := [r] |}.

Definition Simpress_use (this : addr) (m : Middleware) : M addr :=
  let* _ := update_app this (Simpress.with_use m) in ret this.

Definition Simpress_useForError (this : addr) (m : ErrorMiddleware) : M addr :=
  let* _ := update_app this (Simpress.with_useForError m) in ret this.

Definition Simpress_useRouter (this : addr) (router : addr) : M addr :=
  let* _ := update_app this (Simpress.with_useRouter router) in ret this.

(** [Simpress.route]: the route goes to [this._routers[0]] *)
Definition Simpress_route (this : addr) (path : path_spec) (method : string)
    (listener : RequestListener) : M addr :=
  let* re := lift (to_regexp path) in
  let* route := alloc_route (Route.new re method listener) in
  let* app := get_app this in
  let* r0 := lift (the (head (Simpress._routers app))) in
  let* _ := update_router r0 (Router.with_route (route_key method re) route) in
  ret route.

(** [for (const router of this._routers) { ... if (route) return route; }] *)
Fixpoint find_in_routers (routers : list addr) (k : string) : M (option addr) :=
  match routers with
  | [] => ret None
  | a :: rest =>
      let* r := get_router a in
      match JsMap.get (Router.routes r) k with
      | Some route => ret (Some route)
      | None => find_in_routers rest k
      end
  end.

(** [Simpress.findRoute] *)
Definition Simpress_findRoute (this : addr) (path : path_spec) (method : string)
    : M (option addr) :=
  let* re := lift (to_regexp path) in
  let* app := get_app this in
  find_in_routers (Simpress._routers app) (route_key method re).

(** ** The listener *)

(** what the listener did, in order; a call is recorded with what the
    awaited promise came to *)
Inductive event : Type :=
| CallMiddleware (id : nat) (s : signal)
| CallErrMiddleware (id : nat) (err : jsval) (s : signal)
| CallListener (id : nat)
| WriteHead (code : nat)
| End_.

(** the promise returned by the async listener *)
Inductive status : Type :=
| Fulfilled
| Rejected (reason : jsval + exn)
| Pending.

Record Outcome : Type := mkOutcome {
  o_req : Request;
  o_res : Response;
  o_trace : list event;
  o_status : status
}.

Definition stop (s : status) (req : Request) (res : Response) : Outcome :=
  {| o_req := req; o_res := res; o_trace := []; o_status := s |}.

Definition emit (e : event) (o : Outcome) : Outcome :=
  {| o_req := o_req o; o_res := o_res o; o_trace := e :: o_trace o;
     o_status := o_status o |}.

(** a level of the pipeline: anything with the two lists *)
Class Level (A : Type) : Type := {
  level_middlewares : A -> list Middleware;
  level_errMiddlewares : A -> list ErrorMiddleware
}.

#[export] Instance Simpress_Level : Level Simpress.t :=
  {| level_middlewares := Simpress.middlewares;
     level_errMiddlewares := Simpress.errMiddlewares |}.

#[export] Instance Router_Level : Level Router.t :=
  {| level_middlewares := Router.middlewares;
     level_errMiddlewares := Router.errMiddlewares |}.

#[export] Instance Route_Level : Level Route.t :=
  {| level_middlewares := Route.middlewares;
     level_errMiddlewares := Route.errMiddlewares |}.

(** an element of the array [[this, router, route]] *)
Definition tier : Type := list Middleware * list ErrorMiddleware.

Definition as_tier {A : Type} `{Level A} (a : A) : tier :=
  (level_middlewares a, level_errMiddlewares a).

(** [for (const errMiddleware of level.errMiddlewares) { err = await ...;
    if (err === undefined) return; } return;] *)
Fixpoint run_errMiddlewares (ems : list ErrorMiddleware) (err : jsval)
    (req : Request) (res : Response) : Outcome :=
  match ems with
  | [] => stop Fulfilled req res
  | em :: rest =>
      let '(req', res', s) := em_run em err req res in
      emit (CallErrMiddleware (em_id em) err (awaited s))
        match awaited s with
        | Next v =>
            if is_undefined v then stop Fulfilled req' res'
            else run_errMiddlewares rest v req' res'
        | Throws e => stop (Rejected (inl e)) req' res'
        | NoNext => stop Pending req' res'
        end
  end.

(** [for (const middleware of level.middlewares) { let err = await ...;
    if (err !== undefined) { ... return; } }], then [k] *)
Fixpoint run_middlewares (mws : list Middleware) (ems : list ErrorMiddleware)
    (k : Request -> Response -> Outcome) (req : Request) (res : Response) : Outcome :=
  match mws with
  | [] => k req res
  | mw :: rest =>
      let '(req', res', s) := mw_run mw req res in
      emit (CallMiddleware (mw_id mw) (awaited s))
        match awaited s with
        | Next v =>
            if negb (is_undefined v) then run_errMiddlewares ems v req' res'
            else run_middlewares rest ems k req' res'
        | Throws e => stop (Rejected (inl e)) req' res'
        | NoNext => stop Pending req' res'
        end
  end.

(** [for (const level of [this, router, route]) { ... }], then [k] *)
Fixpoint run_levels (levels : list tier) (k : Request -> Response -> Outcome)
    (req : Request) (res : Response) : Outcome :=
  match levels with
  | [] => k req res
  | (mws, ems) :: rest => run_middlewares mws ems (run_levels rest k) req res
  end.

(** [route.listener(req, res); return;] *)
Definition call_listener (l : RequestListener) (req : Request) (res : Response) : Outcome :=
  let '(req', res', thrown) := l_run l req res in
  emit (CallListener (l_id l))
    match thrown with
    | None => stop Fulfilled req' res'
    | Some e => stop (Rejected (inl e)) req' res'
    end.

(** [res.writeHead(404); res.end();] *)
Definition not_found (req : Request) (res : Response) : Outcome :=
  match writeHead 404 res with
  | Ok res' => emit (WriteHead 404) (emit End_ (stop Fulfilled req (end_ res')))
  | Err e => emit (WriteHead 404) (stop (Rejected (inr e)) req res)
  end.

(** [route.path.test(req.url) && req.method === route.method]; the
    single-file version tests [req.url ? req.url : ''], the same string *)
Definition route_matches (route : Route.t) (req : Request) : bool :=
  RegExp.test (Route.path route) (url req) && String.eqb (method req) (Route.method route).

(** the first matching route of one router, in the order of its map *)
Fixpoint match_in_routes (st : Store) (entries : list (string * addr)) (req : Request)
    : result (option Route.t) :=
  match entries with
  | [] => Ok None
  | (_, a) :: rest =>
      bind (the (route_objs st !! a)) (fun route =>
      if route_matches route req then Ok (Some route)
      else match_in_routes st rest req)
  end.

(** the first matching route over the routers, in order *)
Fixpoint match_in_routers (st : Store) (routers : list addr) (req : Request)
    : result (option (Router.t * Route.t)) :=
  match routers with
  | [] => Ok None
  | a :: rest =>
      bind (the (router_objs st !! a)) (fun router =>
      bind (match_in_routes st (Router.routes router) req) (fun found =>
      match found with
      | Some route => Ok (Some (router, route))
      | None => match_in_routers st rest req
      end))
  end.

(** the listener returned by [Simpress.toListener], called on [req], [res] in
    store [st] *)
Definition toListener (this : addr) (st : Store) (req : Request) (res : Response)
    : Outcome :=
  match bind (the (app_objs st !! this))
          (fun app => bind (match_in_routers st (Simpress._routers app) req)
                        (fun found => Ok (app, found))) with
  | Err e => stop (Rejected (inr e)) req res
  | Ok (app, Some (router, route)) =>
      run_levels [as_tier app; as_tier router; as_tier route]
        (call_listener (Route.listener route))
        (set_pathRegex (Route.path route) req) res
  | Ok (_, None) => not_found req res
  end.

(** ** Reading traces *)

Definition ok_call (m : Middleware) : event :=
  CallMiddleware (mw_id m) (Next JUndefined).


Definition is_err_call (e : event) : Prop :=
  match e with
  | CallErrMiddleware _ _ _ => True
  | _ => False
  end.


(** an error middleware that hands an error on *)
Definition resignals (e : event) : Prop :=
  match e with
  | CallErrMiddleware _ _ (Next v) => v <> JUndefined
  | _ => False
  end.

Definition is_core_write (e : event) : Prop :=
  match e with
  | WriteHead _ | End_ => True
  | _ => False
  end.

(** the trace of an error cascade over [ems] started with the error [v], and
    the status it ends in: each error middleware is handed what its
    predecessor passed on, and the first one that passes nothing on, throws or
    never continues is the last *)
Fixpoint cascade (ems : list ErrorMiddleware) (v : jsval) (tr : list event)
    (st : status) : Prop :=
  match ems, tr with
  | [], [] => st = Fulfilled
  | em :: rest, CallErrMiddleware id err s :: tr' =>
      id = em_id em /\ err = v /\
      match s with
      | Next v' =>
          if is_undefined v' then tr' = [] /\ st = Fulfilled
          else cascade rest v' tr' st
      | Throws e => tr' = [] /\ st = Rejected (inl e)
      | NoNext => tr' = [] /\ st = Pending
      end
  | _, _ => False
  end.

(** the pipeline as one sequence: each middleware with the error middlewares
    of its own level *)
Definition plan : Type := list (Middleware * list ErrorMiddleware).

Definition plan_of (levels : list tier) : plan :=
  flat_map (fun l => map (fun m => (m, snd l)) (fst l)) levels.

(** the trace of a pipeline over [p] that ends in the listener [lid] *)
Fixpoint pipeline (p : plan) (lid : nat) (tr : list event) (st : status) : Prop :=
  match p with
  | [] => tr = [CallListener lid] /\ (st = Fulfilled \/ exists e, st = Rejected (inl e))
  | (m, ems) :: rest =>
      match tr with
      | CallMiddleware id s :: tr' =>
          id = mw_id m /\
          match s with
          | Next v =>
              if is_undefined v then pipeline rest lid tr' st
              else cascade ems v tr' st
          | Throws e => tr' = [] /\ st = Rejected (inl e)
          | NoNext => tr' = [] /\ st = Pending
          end
      | _ => False
      end
  end.

(** the request matches [route], found in [router], first in the order of the
    search *)
Definition matched (st : Store) (this : addr) (req : Request)
    (app : Simpress.t) (router : Router.t) (route : Route.t) : Prop :=
  app_objs st !! this = Some app /\
  match_in_routers st (Simpress._routers app) req = Ok (Some (router, route)).

(** what user code may do to the response: a predicate on responses that
    every call of the function maintains *)
Definition keeps_mw (P : Response -> Prop) (m : Middleware) : Prop :=
  forall req res, P res -> P (snd (fst (mw_run m req res))).

Definition keeps_em (P : Response -> Prop) (m : ErrorMiddleware) : Prop :=
  forall err req res, P res -> P (snd (fst (em_run m err req res))).

(** a middleware call in the trace ended otherwise than with no error *)
Definition failed (o : Outcome) : Prop :=
  exists pre id s post,
    o_trace o = pre ++ CallMiddleware id s :: post /\ s <> Next JUndefined.

(** no registered route accepts the request *)
Definition no_route_matches (st : Store) (app : Simpress.t) (req : Request) : Prop :=
  Forall (fun ra =>
    exists router, router_objs st !! ra = Some router /\
      Forall (fun entry =>
        exists route, route_objs st !! snd entry = Some route /\
          route_matches route req = false)
        (Router.routes router))
    (Simpress._routers app).

(** ** A small application, after the example of the sources *)

Module Demo.

Definition ErrInvalidRequestBody : jsval := JObj 0.

(** [res.statusCode = code; res.setHeader(...); res.end(data)] *)
Definition respond (code : nat) (data : string) (res : Response) : Response :=
  {| statusCode := code;
     headers := ("Content-Type", "application/json")%string :: headers res;
     headersSent := true; chunks := chunks res ++ [data]; finished := true |}.

Definition applyConsoleLogger : Middleware :=
  {| mw_id := 1; mw_run := fun req res => (req, res, Next JUndefined) |}.

Definition applyQueryParamsParser : Middleware :=
  {| mw_id := 2; mw_run := fun req res => (req, res, Next JUndefined) |}.

(** [if (!req.body || typeof req.body !== 'object') next(ErrInvalidRequestBody);
    else next();] *)
Definition applyJsonBodyValidator : Middleware :=
  {| mw_id := 3;
     mw_run := fun req res =>
       (req, res, match body req with
                  | JObj _ => Next JUndefined
                  | _ => Next ErrInvalidRequestBody
                  end) |}.

(** [if (err != ErrInvalidRequestBody) { next(err); return; } ... next();] *)
Definition applyMiddlewareErrorsHandler : ErrorMiddleware :=
  {| em_id := 4;
     em_run := fun err req res =>
       match err with
       | JObj 0 => (req, respond 400 "invalid request body" res, Next JUndefined)
       | _ => (req, res, Next err)
       end |}.

(** a middleware that calls [next(false)] *)
Definition refuse : Middleware :=
  {| mw_id := 5; mw_run := fun req res => (req, res, Next (JBool false)) |}.

Definition never_reached : Middleware :=
  {| mw_id := 6; mw_run := fun req res => (req, res, Next JUndefined) |}.

Definition root : RequestListener :=
  {| l_id := 10; l_run := fun req res => (req, respond 200 "ok" res, None) |}.

Definition echo : RequestListener :=
  {| l_id := 11; l_run := fun req res => (req, respond 200 "echo" res, None) |}.

Definition users : RequestListener :=
  {| l_id := 12; l_run := fun req res => (req, respond 200 "users" res, None) |}.

Definition setup : M addr :=
  let* app := Simpress_new in
  let* _ := Simpress_use app applyConsoleLogger in
  let* _ := Simpress_route app (PString "/") "GET" root in
  let* _ := Simpress_route app (PString "/echo") "POST" echo in
  let* found := Simpress_findRoute app (PString "/echo") "POST" in
  let* r := lift (the found) in
  let* _ := Route_use r applyJsonBodyValidator in
  let* _ := Route_useForError r applyMiddlewareErrorsHandler in
  let* usersRouter := Router_new in
  let* _ := Router_use usersRouter applyQueryParamsParser in
  let* _ := Router_route usersRouter (PString "/users") "GET" users in
  let* strict := Router_route usersRouter (PString "/strict") "GET" users in
  let* _ := Route_use strict refuse in
  let* _ := Route_use strict never_reached in
  let* _ := Route_useForError strict applyMiddlewareErrorsHandler in
  let* _ := Simpress_useRouter app usersRouter in
  ret app.

Definition store : Store :=
  Eval vm_compute in
    match setup empty_store with
    | Ok (_, st) => st
    | Err _ => empty_store
    end.

Definition app : addr := 0.

Definition request (u m : string) (b : jsval) : Request :=
  {| url := u; method := m; pathRegex := None; body := b; props := [] |}.

Definition nowhere : RegExp.t :=
  {| RegExp.source := "[]"; RegExp.program := RegExp.Class false [] |}.

Definition no_app : Simpress.t :=
  {| Simpress.middlewares := []; Simpress.errMiddlewares := []; Simpress._routers := [] |}.

Definition no_route : Route.t := Route.new nowhere "" root.

Definition app_obj : Simpress.t :=
  Eval vm_compute in default no_app (app_objs store !! app).

(** the router that the constructor of the application made *)
Definition default_router : Router.t :=
  Eval vm_compute in default Router.new (router_objs store !! 0).

(** the router and the route that a request reaches *)
Definition reached (req : Request) : Router.t * Route.t :=
  match match_in_routers store (Simpress._routers app_obj) req with
  | Ok (Some found) => found
  | _ => (Router.new, no_route)
  end.

End Demo.

(** ** Client programs *)

(** a call of the public interface; objects are named by their address *)
Inductive call : Type :=
| NewSimpress
| NewRouter
| AppUse (this : addr) (m : Middleware)
| AppUseForError (this : addr) (m : ErrorMiddleware)
| AppUseRouter (this router : addr)
| AppRoute (this : addr) (path : path_spec) (verb : string) (listener : RequestListener)
| AppFindRoute (this : addr) (path : path_spec) (verb : string)
| RouterUse (this : addr) (m : Middleware)
| RouterUseForError (this : addr) (m : ErrorMiddleware)
| RouterRoute (this : addr) (path : path_spec) (verb : string) (listener : RequestListener)
| RouterFindRoute (this : addr) (path : path_spec) (verb : string)
| RouteUse (this : addr) (m : Middleware)
| RouteUseForError (this : addr) (m : ErrorMiddleware).

Definition some {A : Type} (m : M A) : M (option A) :=
  let* a := m in ret (Some a).

(** the value of the call; the argument of [useRouter] is a [Router] object *)
Definition perform (c : call) : M (option addr) :=
  match c with
  | NewSimpress => some Simpress_new
  | NewRouter => some Router_new
  | AppUse this m => some (Simpress_use this m)
  | AppUseForError this m => some (Simpress_useForError this m)
  | AppUseRouter this router =>
      let* _ := get_router router in some (Simpress_useRouter this router)
  | AppRoute this path verb listener => some (Simpress_route this path verb listener)
  | AppFindRoute this path verb => Simpress_findRoute this path verb
  | RouterUse this m => some (Router_use this m)
  | RouterUseForError this m => some (Router_useForError this m)
  | RouterRoute this path verb listener => some (Router_route this path verb listener)
  | RouterFindRoute this path verb => Router_findRoute this path verb
  | RouteUse this m => some (Route_use this m)
  | RouteUseForError this m => some (Route_useForError this m)
  end.

(** the store after the call; a call that throws has changed nothing, and the
    client goes on *)
Definition attempt (st : Store) (c : call) : Store :=
  match perform c st with
  | Ok (_, st') => st'
  | Err _ => st
  end.

Definition after (cs : list call) (st : Store) : Store := fold_left attempt cs st.

(** a store that a client builds from nothing *)
Definition built (st : Store) : Prop := exists cs, st = after cs empty_store.

(** the calls that register a function or a router *)
Definition registers (c : call) : bool :=
  match c with
  | AppUse _ _ | AppUseForError _ _ | AppUseRouter _ _
  | RouterUse _ _ | RouterUseForError _ _
  | RouteUse _ _ | RouteUseForError _ _ => true
  | _ => false
  end.

Definition looks_up (c : call) : bool :=
  match c with
  | AppFindRoute _ _ _ | RouterFindRoute _ _ _ => true
  | _ => false
  end.

(** ** Shapes of the store *)

Definition distinct_mws (l : list Middleware) : Prop := NoDup (map mw_id l).
Definition distinct_ems (l : list ErrorMiddleware) : Prop := NoDup (map em_id l).

Definition wf_route (r : Route.t) : Prop :=
  distinct_mws (Route.middlewares r) /\ distinct_ems (Route.errMiddlewares r).

(** [nroutes]: the number of [Route] objects *)
Definition wf_router (nroutes : nat) (r : Router.t) : Prop :=
  distinct_mws (Router.middlewares r) /\ distinct_ems (Router.errMiddlewares r) /\
  NoDup (map fst (Router.routes r)) /\
  Forall (fun entry => snd entry < nroutes) (Router.routes r).

(** [nrouters]: the number of [Router] objects *)
Definition wf_app (nrouters : nat) (a : Simpress.t) : Prop :=
  distinct_mws (Simpress.middlewares a) /\ distinct_ems (Simpress.errMiddlewares a) /\
  NoDup (Simpress._routers a) /\ Simpress._routers a <> [] /\
  Forall (fun r => r < nrouters) (Simpress._routers a).

Definition wf (st : Store) : Prop :=
  Forall wf_route (route_objs st) /\
  Forall (wf_router (length (route_objs st))) (router_objs st) /\
  Forall (wf_app (length (router_objs st))) (app_objs st).

(** what stays of an object when the program goes on: lists grow at their
    end *)
Definition route_grows (r r' : Route.t) : Prop :=
  Route.path r' = Route.path r /\ Route.method r' = Route.method r /\
  Route.listener r' = Route.listener r /\
  Route.middlewares r `prefix_of` Route.middlewares r' /\
  Route.errMiddlewares r `prefix_of` Route.errMiddlewares r'.

Definition router_grows (r r' : Router.t) : Prop :=
  map fst (Router.routes r) `prefix_of` map fst (Router.routes r') /\
  Router.middlewares r `prefix_of` Router.middlewares r' /\
  Router.errMiddlewares r `prefix_of` Router.errMiddlewares r'.

Definition app_grows (a a' : Simpress.t) : Prop :=
  Simpress._routers a `prefix_of` Simpress._routers a' /\
  Simpress.middlewares a `prefix_of` Simpress.middlewares a' /\
  Simpress.errMiddlewares a `prefix_of` Simpress.errMiddlewares a'.

Definition grows {A : Type} (R : A -> A -> Prop) (l l' : list A) : Prop :=
  forall i x, l !! i = Some x -> exists x', l' !! i = Some x' /\ R x x'.

Definition store_grows (st st' : Store) : Prop :=
  grows route_grows (route_objs st) (route_objs st') /\
  grows router_grows (router_objs st) (router_objs st') /\
  grows app_grows (app_objs st) (app_objs st').

(** ** Reading the search *)

(** no route of [entries] accepts the request *)
Definition rejects (st : Store) (req : Request) (entries : list (string * addr)) : Prop :=
  Forall (fun entry =>
    exists route, route_objs st !! snd entry = Some route /\
      route_matches route req = false) entries.

(** no route of [entries] is for the method of the request *)
Definition other_method (st : Store) (req : Request) (entries : list (string * addr))
    : Prop :=
  Forall (fun entry =>
    exists route, route_objs st !! snd entry = Some route /\
      Route.method route <> method req) entries.

(** the place of the first route that accepts the request: the router
    [ra] of the list and the entry [(k, a)] of its map *)
Definition first_match (st : Store) (routers : list addr) (req : Request)
    (ra : addr) (router : Router.t) (k : string) (a : addr) (route : Route.t) : Prop :=
  exists rs1 rs2 es1 es2,
    routers = rs1 ++ ra :: rs2 /\
    Forall (fun rb => exists r, router_objs st !! rb = Some r /\
                                rejects st req (Router.routes r)) rs1 /\
    router_objs st !! ra = Some router /\
    Router.routes router = es1 ++ (k, a) :: es2 /\
    rejects st req es1 /\
    route_objs st !! a = Some route /\ route_matches route req = true.

(** the signal of a call of user code *)
Definition signal_of (e : event) : option signal :=
  match e with
  | CallMiddleware _ s | CallErrMiddleware _ _ s => Some s
  | _ => None
  end.

(** the request and the response behind the middlewares [mws], when each of
    them goes on without an error *)
Fixpoint pass (mws : list Middleware) (req : Request) (res : Response)
    : option (Request * Response) :=
  match mws with
  | [] => Some (req, res)
  | m :: rest =>
      let '(req', res', s) := mw_run m req res in
      match awaited s with
      | Next JUndefined => pass rest req' res'
      | _ => None
      end
  end.

(** a property of the request and the response that user code maintains *)
Definition holds_mw (P : Request -> Response -> Prop) (m : Middleware) : Prop :=
  forall req res, P req res ->
    P (fst (fst (mw_run m req res))) (snd (fst (mw_run m req res))).

Definition holds_em (P : Request -> Response -> Prop) (m : ErrorMiddleware) : Prop :=
  forall err req res, P req res ->
    P (fst (fst (em_run m err req res))) (snd (fst (em_run m err req res))).

Definition holds_listener (P : Request -> Response -> Prop) (l : RequestListener) : Prop :=
  forall req res, P req res ->
    P (fst (fst (l_run l req res))) (snd (fst (l_run l req res))).

(** how the [source] text shows a character that stands for itself *)
Definition plain_source (c : ascii) : list ascii :=
  if (RegExp.code c =? 10)%N then ["\"; "n"]
  else if (RegExp.code c =? 13)%N then ["\"; "r"]
  else if Ascii.eqb c "/" then ["\"; "/"]
  else [c].

(** the calls that build the store of the small application *)
Definition demo_program : list call :=
  [ NewSimpress;
    AppUse 0 Demo.applyConsoleLogger;
    AppRoute 0 (PString "/") "GET" Demo.root;
    AppRoute 0 (PString "/echo") "POST" Demo.echo;
    AppFindRoute 0 (PString "/echo") "POST";
    RouteUse 1 Demo.applyJsonBodyValidator;
    RouteUseForError 1 Demo.applyMiddlewareErrorsHandler;
    NewRouter;
    RouterUse 1 Demo.applyQueryParamsParser;
    RouterRoute 1 (PString "/users") "GET" Demo.users;
    RouterRoute 1 (PString "/strict") "GET" Demo.users;
    RouteUse 3 Demo.refuse;
    RouteUse 3 Demo.never_reached;
    RouteUseForError 3 Demo.applyMiddlewareErrorsHandler;
    AppUseRouter 0 1 ].

(** the application at an address and the route that a request reaches, read
    off a store *)
Definition app_of (st : Store) (this : addr) : Simpress.t :=
  default Demo.no_app (app_objs st !! this).

Definition reached_in (st : Store) (this : addr) (req : Request) : Router.t * Route.t :=
  match match_in_routers st (Simpress._routers (app_of st this)) req with
  | Ok (Some found) => found
  | _ => (Router.new, Demo.no_route)
  end.

(** ** The small application with functions that do not go on *)

Definition ErrNoQueryParams : jsval := JObj 2.

(** a middleware that reports that the query parameters are missing *)
Definition needs_query : Middleware :=
  {| mw_id := 7; mw_run := fun req res => (req, res, Next ErrNoQueryParams) |}.

(** the last error middleware of the route of /params in the example: it
    hands other errors on, and answers this one without calling [next] *)
Definition answers_and_stays : ErrorMiddleware :=
  {| em_id := 8;
     em_run := fun err req res =>
       match err with
       | JObj 2 => (req, Demo.respond 400 "no query params" res, NoNext)
       | _ => (req, res, Next err)
       end |}.

Definition throws : Middleware :=
  {| mw_id := 9; mw_run := fun req res => (req, res, Throws (JStr "boom")) |}.

(** the route of "/" with the two, the route of "/users" with the one that
    throws *)
Definition demo_store_halting : Store :=
  Eval vm_compute in
    after [RouteUse 0 needs_query; RouteUseForError 0 answers_and_stays;
           RouteUse 2 throws] Demo.store.

(** the calls that put a route into a router *)
Definition adds_route (c : call) : bool :=
  match c with
  | AppRoute _ _ _ _ | RouterRoute _ _ _ _ => true
  | _ => false
  end.

(** every entry of a router's map has the key of the route that it leads to *)
Definition keyed (st : Store) : Prop :=
  Forall (fun r =>
    Forall (fun entry =>
      exists route, route_objs st !! snd entry = Some route /\
        fst entry = route_key (Route.method route) (Route.path route))
      (Router.routes r))
    (router_objs st).

(** the object that a registering call works on and returns *)
Definition receiver (c : call) : addr :=
  match c with
  | AppUse this _ | AppUseForError this _ | AppUseRouter this _
  | AppRoute this _ _ _ | AppFindRoute this _ _
  | RouterUse this _ | RouterUseForError this _
  | RouterRoute this _ _ _ | RouterFindRoute this _ _
  | RouteUse this _ | RouteUseForError this _ => this
  | NewSimpress | NewRouter => 0
  end.

(** what the call is to register is in the list of its receiver, at
    whatever place *)
Definition registered (c : call) (st : Store) : Prop :=
  match c with
  | AppUse this m =>
      exists app, app_objs st !! this = Some app /\
                  In (mw_id m) (map mw_id (Simpress.middlewares app))
  | AppUseForError this m =>
      exists app, app_objs st !! this = Some app /\
                  In (em_id m) (map em_id (Simpress.errMiddlewares app))
  | AppUseRouter this router =>
      exists app r, app_objs st !! this = Some app /\
                    router_objs st !! router = Some r /\
                    In router (Simpress._routers app)
  | RouterUse this m =>
      exists r, router_objs st !! this = Some r /\
                In (mw_id m) (map mw_id (Router.middlewares r))
  | RouterUseForError this m =>
      exists r, router_objs st !! this = Some r /\
                In (em_id m) (map em_id (Router.errMiddlewares r))
  | RouteUse this m =>
      exists r, route_objs st !! this = Some r /\
                In (mw_id m) (map mw_id (Route.middlewares r))
  | RouteUseForError this m =>
      exists r, route_objs st !! this = Some r /\
                In (em_id m) (map em_id (Route.errMiddlewares r))
  | _ => False
  end.

(** ** The small application with a middleware that hands on a promise *)



(** * Properties *)

(** a trace that stops after its first event has nothing behind a longer
    prefix *)
Ltac stopped H pre := destruct H as [H _]; destruct pre; discriminate.

Lemma is_undefined_spec (v : jsval) : is_undefined v = true <-> v = JUndefined.
Proof. destruct v; simpl; split; intros H; congruence. Qed.

Lemma is_undefined_false (v : jsval) : is_undefined v = false <-> v <> JUndefined.
Proof. destruct v; simpl; split; intros H; congruence. Qed.

Lemma run_errMiddlewares_cascade ems v req res :
  cascade ems v (o_trace (run_errMiddlewares ems v req res))
    (o_status (run_errMiddlewares ems v req res)).
Proof.
  revert v req res. induction ems as [|em rest IH]; intros v req res; simpl.
  - reflexivity.
  - destruct (em_run em v req res) as [[req' res'] s]. simpl.
    split; [reflexivity|]. split; [reflexivity|].
    destruct (awaited s) as [v'| |]; simpl; auto.
    destruct (is_undefined v'); simpl; auto.
Qed.

Lemma run_middlewares_pipeline mws ems rest l k :
  (forall req res, pipeline rest (l_id l) (o_trace (k req res)) (o_status (k req res))) ->
  forall req res,
    pipeline (map (fun m => (m, ems)) mws ++ rest) (l_id l)
      (o_trace (run_middlewares mws ems k req res))
      (o_status (run_middlewares mws ems k req res)).
Proof.
  intros Hk. induction mws as [|m mws IH]; intros req res; simpl.
  - apply Hk.
  - destruct (mw_run m req res) as [[req' res'] s]. simpl.
    split; [reflexivity|].
    destruct (awaited s) as [v| |]; simpl; auto.
    destruct (is_undefined v); simpl; [apply IH|apply run_errMiddlewares_cascade].
Qed.

Lemma call_listener_pipeline l req res :
  pipeline [] (l_id l) (o_trace (call_listener l req res))
    (o_status (call_listener l req res)).
Proof.
  unfold call_listener. destruct (l_run l req res) as [[req' res'] [e|]]; simpl;
    split; eauto.
Qed.

Lemma run_levels_pipeline levels l req res :
  pipeline (plan_of levels) (l_id l)
    (o_trace (run_levels levels (call_listener l) req res))
    (o_status (run_levels levels (call_listener l) req res)).
Proof.
  revert req res. induction levels as [|[mws ems] rest IH]; intros req res.
  - apply call_listener_pipeline.
  - simpl. apply run_middlewares_pipeline. exact IH.
Qed.

(** ** Error cascades *)

Lemma cascade_only_err ems v tr st :
  cascade ems v tr st -> Forall is_err_call tr.
Proof.
  revert v tr. induction ems as [|em rest IH]; intros v [|e tr] H; simpl in H;
    try contradiction; try (constructor; fail).
  destruct e as [| id err s | | |]; try contradiction.
  destruct H as (_ & _ & H). constructor; [exact I|].
  destruct s as [v'| |].
  - destruct (is_undefined v').
    + destruct H as [-> _]. constructor.
    + eapply IH; eassumption.
  - destruct H as [-> _]. constructor.
  - destruct H as [-> _]. constructor.
Qed.

(** the error middleware behind a call in a cascade, and what follows it *)
Lemma cascade_split ems v0 pre id err v post st :
  cascade ems v0 (pre ++ CallErrMiddleware id err (Next v) :: post) st ->
  exists b em a,
    ems = b ++ em :: a /\ id = em_id em /\ length b = length pre /\
    (if is_undefined v then post = [] /\ st = Fulfilled else cascade a v post st).
Proof.
  revert v0 pre. induction ems as [|em rest IH]; intros v0 pre H.
  - destruct pre; simpl in H; contradiction.
  - destruct pre as [|e pre]; simpl in H.
    + destruct H as (-> & _ & H). exists [], em, rest. repeat split; auto.
    + destruct e as [| id' err' s | | |]; try contradiction.
      destruct H as (_ & _ & H).
      destruct s as [v'| |].
      * destruct (is_undefined v').
        -- stopped H pre.
        -- apply IH in H. destruct H as (b & em' & a & -> & -> & Hl & H).
           exists (em :: b), em', a. simpl. repeat split; auto.
      * stopped H pre.
      * stopped H pre.
Qed.

(** a cascade in which every call hands the error on called every error
    middleware of the list, and the listener's promise is fulfilled *)
Lemma cascade_exhausted ems v tr st :
  cascade ems v tr st -> Forall resignals tr ->
  st = Fulfilled /\ length tr = length ems.
Proof.
  revert v tr. induction ems as [|em rest IH]; intros v [|e tr] H Hall; simpl in H;
    try contradiction.
  - auto.
  - destruct e as [| id err s | | |]; try contradiction.
    destruct H as (_ & _ & H).
    inversion Hall as [|? ? He Hall']; subst. simpl in He.
    destruct s as [v'| |]; try contradiction.
    apply is_undefined_false in He. rewrite He in H.
    destruct (IH _ _ H Hall') as [-> Hlen]. simpl. auto.
Qed.


(** ** Pipelines *)


Lemma err_trace_no_listener tr pre id post :
  Forall is_err_call tr -> tr <> pre ++ CallListener id :: post.
Proof.
  intros H ->. apply Forall_app in H. destruct H as [_ H].
  inversion H as [|? ? He _]. exact He.
Qed.

Lemma pipeline_listener p lid pre id post st :
  pipeline p lid (pre ++ CallListener id :: post) st ->
  pre = map ok_call (map fst p) /\ id = lid /\ post = [].
Proof.
  revert pre. induction p as [|[m ems] rest IH]; intros pre H; simpl in H.
  - destruct H as [H _]. destruct pre as [|e pre]; simpl in H.
    + inversion H. auto.
    + inversion H as [[He Hp]]. destruct pre; discriminate.
  - destruct pre as [|e pre]; simpl in H; [contradiction|].
    destruct e as [id' s| | | |]; try contradiction.
    destruct H as [-> H].
    destruct s as [v| |].
    + destruct (is_undefined v) eqn:Hv.
      * apply is_undefined_spec in Hv. subst v.
        destruct (IH _ H) as (-> & -> & ->). auto.
      * apply cascade_only_err in H. exfalso.
        eapply err_trace_no_listener; [exact H|reflexivity].
    + stopped H pre.
    + stopped H pre.
Qed.


(** the middleware behind a call that signals an error, and what follows *)
Lemma pipeline_fail p lid pre id v post st :
  pipeline p lid (pre ++ CallMiddleware id (Next v) :: post) st ->
  v <> JUndefined ->
  exists p1 m ems p2,
    p = p1 ++ (m, ems) :: p2 /\ pre = map ok_call (map fst p1) /\
    id = mw_id m /\ cascade ems v post st.
Proof.
  intros H Hv. apply is_undefined_false in Hv.
  revert pre H. induction p as [|[m ems] rest IH]; intros pre H; simpl in H.
  - destruct H as [H _]. destruct pre as [|e pre]; simpl in H; [discriminate|].
    inversion H. destruct pre; discriminate.
  - destruct pre as [|e pre]; simpl in H.
    + destruct H as [-> H]. rewrite Hv in H.
      exists [], m, ems, rest. auto.
    + destruct e as [id' s| | | |]; try contradiction.
      destruct H as [-> H].
      destruct s as [v'| |].
      * destruct (is_undefined v') eqn:Hv'.
        -- apply is_undefined_spec in Hv'. subst v'.
           destruct (IH _ H) as (p1 & m' & ems' & p2 & -> & -> & -> & Hc).
           exists ((m, ems) :: p1), m', ems', p2. auto.
        -- apply cascade_only_err in H. apply Forall_app in H.
           destruct H as [_ H]. inversion H as [|? ? He _]. contradiction.
      * stopped H pre.
      * stopped H pre.
Qed.


(** the error middleware behind a call, and what follows *)
Lemma pipeline_err p lid pre id err v post st :
  pipeline p lid (pre ++ CallErrMiddleware id err (Next v) :: post) st ->
  exists p1 m ems p2 b em a,
    p = p1 ++ (m, ems) :: p2 /\ ems = b ++ em :: a /\ id = em_id em /\
    (if is_undefined v then post = [] /\ st = Fulfilled else cascade a v post st).
Proof.
  revert pre. induction p as [|[m ems] rest IH]; intros pre H; simpl in H.
  - destruct H as [H _]. destruct pre as [|e pre]; simpl in H; [discriminate|].
    inversion H. destruct pre; discriminate.
  - destruct pre as [|e pre]; simpl in H; [contradiction|].
    destruct e as [id' s| | | |]; try contradiction.
    destruct H as [-> H].
    destruct s as [v'| |].
    + destruct (is_undefined v') eqn:Hv'.
      * destruct (IH _ H) as (p1 & m' & ems' & p2 & b & em & a & -> & -> & -> & Hc).
        exists ((m, ems) :: p1), m', (b ++ em :: a), p2, b, em, a. auto.
      * apply cascade_split in H.
        destruct H as (b & em & a & -> & -> & _ & Hc).
        exists [], m, (b ++ em :: a), rest, b, em, a. auto.
    + stopped H pre.
    + stopped H pre.
Qed.

Lemma cascade_no_core_write ems v tr st :
  cascade ems v tr st -> Forall (fun e => ~ is_core_write e) tr.
Proof.
  intros H. apply cascade_only_err in H.
  eapply Forall_impl; [exact H|]. intros [] He; simpl in *; tauto.
Qed.

Lemma pipeline_no_core_write p lid tr st :
  pipeline p lid tr st -> Forall (fun e => ~ is_core_write e) tr.
Proof.
  revert tr. induction p as [|[m ems] rest IH]; intros tr H; simpl in H.
  - destruct H as [-> _]. constructor; [simpl; tauto|constructor].
  - destruct tr as [|e tr]; [contradiction|].
    destruct e as [id s| | | |]; try contradiction.
    destruct H as [_ H]. constructor; [simpl; tauto|].
    destruct s as [v| |].
    + destruct (is_undefined v).
      * apply IH. exact H.
      * eapply cascade_no_core_write. exact H.
    + destruct H as [-> _]. constructor.
    + destruct H as [-> _]. constructor.
Qed.

Lemma plan_of_mws levels : map fst (plan_of levels) = flat_map fst levels.
Proof.
  induction levels as [|[mws ems] rest IH]; [reflexivity|].
  unfold plan_of in *. simpl. rewrite map_app, map_map. simpl.
  rewrite map_id, IH. reflexivity.
Qed.

(** where a position of the plan lies in the levels *)
Lemma plan_of_split levels p1 m ems p2 :
  plan_of levels = p1 ++ (m, ems) :: p2 ->
  exists earlier T later b a,
    levels = earlier ++ T :: later /\ fst T = b ++ m :: a /\ snd T = ems /\
    map fst p1 = flat_map fst earlier ++ b /\
    map fst p2 = a ++ flat_map fst later.
Proof.
  revert p1. induction levels as [|[mws ems0] rest IH]; intros p1 H.
  - destruct p1; discriminate.
  - unfold plan_of in H. simpl in H. fold (plan_of rest) in H.
    apply app_eq_app in H. destruct H as [l [[H1 H2]|[H1 H2]]].
    + destruct l as [|x l].
      * rewrite app_nil_r in H1. simpl in H2.
        destruct (IH [] (eq_sym H2)) as (earlier & T & later & b & a & -> & Hf & Hs & Hp & Hq).
        exists ((mws, ems0) :: earlier), T, later, b, a. simpl.
        repeat split; auto. subst p1. rewrite map_map. simpl. rewrite map_id.
        rewrite <- app_assoc, <- Hp, app_nil_r. reflexivity.
      * simpl in H2. inversion H2 as [[Hx Hp2]]. clear H2.
        apply map_eq_app in H1. destruct H1 as (l1 & l2 & Hmws & Hl1 & Hm).
        destruct l2 as [|y l2]; [discriminate|]. simpl in Hm.
        inversion Hm as [[Hy Hl]]. rewrite <- Hx in Hy. inversion Hy. subst.
        exists [], (l1 ++ m :: l2, ems), rest, l1, l2. simpl.
        repeat split; auto.
        -- rewrite map_map. simpl. rewrite map_id. reflexivity.
        -- rewrite map_app, map_map. simpl. rewrite map_id, plan_of_mws. reflexivity.
    + subst p1.
      destruct (IH _ H2) as (earlier & T & later & b & a & -> & Hf & Hs & Hp & Hq).
      exists ((mws, ems0) :: earlier), T, later, b, a. simpl.
      repeat split; auto.
      rewrite map_app, map_map. simpl. rewrite map_id, Hp, app_assoc. reflexivity.
Qed.

(** ** The listener on a request that matches a route *)

Lemma toListener_matched st this req res app router route :
  matched st this req app router route ->
  toListener this st req res =
    run_levels [as_tier app; as_tier router; as_tier route]
      (call_listener (Route.listener route))
      (set_pathRegex (Route.path route) req) res.
Proof.
  intros [Happ Hm]. unfold toListener. rewrite Happ. simpl. rewrite Hm. reflexivity.
Qed.

Lemma match_in_routes_sound st entries req route :
  match_in_routes st entries req = Ok (Some route) ->
  route_matches route req = true /\
  exists k a, In (k, a) entries /\ route_objs st !! a = Some route.
Proof.
  induction entries as [|[k a] rest IH]; simpl; intros H; [discriminate|].
  destruct (route_objs st !! a) as [r|] eqn:Ha; simpl in H; [|discriminate].
  destruct (route_matches r req) eqn:Hr.
  - inversion H; subst. split; [assumption|]. exists k, a. auto.
  - destruct (IH H) as (Hm & k' & a' & Hin & Ha'). split; [assumption|].
    exists k', a'. auto.
Qed.

(** a matched route is registered in a router of the application, and its
    pattern and method accept the request *)
Lemma matched_sound st this req app router route :
  matched st this req app router route ->
  route_matches route req = true /\
  exists ra k a,
    In ra (Simpress._routers app) /\ router_objs st !! ra = Some router /\
    In (k, a) (Router.routes router) /\ route_objs st !! a = Some route.
Proof.
  intros [_ H]. induction (Simpress._routers app) as [|ra rest IH]; simpl in H;
    [discriminate|].
  destruct (router_objs st !! ra) as [r|] eqn:Hra; simpl in H; [|discriminate].
  destruct (match_in_routes st (Router.routes r) req) as [[found|]|] eqn:Hf;
    simpl in H; try discriminate.
  - inversion H; subst. apply match_in_routes_sound in Hf.
    destruct Hf as (Hm & k & a & Hin & Ha). split; [assumption|].
    exists ra, k, a. simpl. auto.
  - destruct (IH H) as (Hm & ra' & k & a & Hin & Hr & Hk & Ha).
    split; [assumption|]. exists ra', k, a. simpl. auto.
Qed.

Lemma toListener_pipeline st this req res app router route :
  matched st this req app router route ->
  pipeline (plan_of [as_tier app; as_tier router; as_tier route])
    (l_id (Route.listener route))
    (o_trace (toListener this st req res)) (o_status (toListener this st req res)).
Proof.
  intros H. rewrite (toListener_matched _ _ _ _ _ _ _ H). apply run_levels_pipeline.
Qed.

(** ** Registration of middlewares *)




(** registering middlewares with distinct identities one after the other
    yields them in that order *)
Lemma push_mw_in_order (ms old : list Middleware) :
  NoDup (map mw_id (old ++ ms)) -> fold_left push_mw ms old = old ++ ms.
Proof.
  revert old. induction ms as [|m ms IH]; intros old Hnd; simpl.
  - rewrite app_nil_r. reflexivity.
  - assert (Hinc : includes_mw old m = false).
    { unfold includes_mw. apply not_true_is_false. intros Hex.
      apply existsb_exists in Hex. destruct Hex as (x & Hx & Heq).
      apply Nat.eqb_eq in Heq. rewrite map_app in Hnd. simpl in Hnd.
      apply NoDup_app in Hnd. destruct Hnd as (_ & Hdis & _).
      apply (Hdis (mw_id m)).
      - rewrite <- Heq. apply list_elem_of_In, in_map, Hx.
      - left. }
    unfold push_mw at 2. rewrite Hinc.
    rewrite IH; rewrite <- app_assoc; [reflexivity|exact Hnd].
Qed.

(** ** The example: the route that a request reaches *)

Lemma demo_matched (req : Request) :
  match_in_routers Demo.store (Simpress._routers Demo.app_obj) req
    = Ok (Some (Demo.reached req)) ->
  matched Demo.store Demo.app req Demo.app_obj (fst (Demo.reached req))
    (snd (Demo.reached req)).
Proof.
  intros H. split; [reflexivity|]. rewrite H. destruct (Demo.reached req). reflexivity.
Defined.

(** ** Errors in the pipeline *)

Lemma toListener_fail st this req res app router route pre id v post :
  matched st this req app router route ->
  o_trace (toListener this st req res) = pre ++ CallMiddleware id (Next v) :: post ->
  v <> JUndefined ->
  exists earlier T later b m a,
    [as_tier app; as_tier router; as_tier route] = earlier ++ T :: later /\
    fst T = b ++ m :: a /\ id = mw_id m /\
    pre = map ok_call (flat_map fst earlier ++ b) /\
    cascade (snd T) v post (o_status (toListener this st req res)).
Proof.
  intros Hm Htr Hv.
  pose proof (toListener_pipeline st this req res _ _ _ Hm) as Hp.
  rewrite Htr in Hp.
  destruct (pipeline_fail _ _ _ _ _ _ _ Hp Hv) as (p1 & m & ems & p2 & Hpl & Hpre & Hid & Hc).
  destruct (plan_of_split _ _ _ _ _ Hpl) as (earlier & T & later & b & a & Hl & Hf & Hs & Hp1 & _).
  exists earlier, T, later, b, m, a. rewrite Hs, <- Hp1. auto.
Qed.



(** C3. When an error middleware passes no error on, nothing is called after
    it: no further error middleware, no middleware, not the listener; the
    listener's promise is fulfilled. *)
Theorem resolved_error_ends_pipeline st this req res app router route :
  matched st this req app router route ->
  forall pre id err post,
    o_trace (toListener this st req res)
      = pre ++ CallErrMiddleware id err (Next JUndefined) :: post ->
    post = [] /\ o_status (toListener this st req res) = Fulfilled.
Proof.
  intros Hm pre id err post Htr.
  pose proof (toListener_pipeline st this req res _ _ _ Hm) as Hp.
  rewrite Htr in Hp. apply pipeline_err in Hp.
  destruct Hp as (p1 & m & ems & p2 & b & em & a & _ & _ & _ & H). exact H.
Qed.

(** a POST to /echo without a body: the validator signals the error, the
    error middleware of the route answers 400 and passes nothing on *)
Lemma resolved_error_ends_pipeline_witness :
  let req := Demo.request "/echo" "POST" JUndefined in
  matched Demo.store Demo.app req Demo.app_obj (fst (Demo.reached req))
    (snd (Demo.reached req)) /\
  o_trace (toListener Demo.app Demo.store req fresh_response)
    = [ok_call Demo.applyConsoleLogger;
       CallMiddleware 3 (Next Demo.ErrInvalidRequestBody)]
        ++ CallErrMiddleware 4 Demo.ErrInvalidRequestBody (Next JUndefined) :: [] /\
  o_status (toListener Demo.app Demo.store req fresh_response) = Fulfilled.
Proof.
  intros req.
  assert (H : matched Demo.store Demo.app req Demo.app_obj (fst (Demo.reached req))
                (snd (Demo.reached req))) by (apply demo_matched; reflexivity).
  assert (Htr : o_trace (toListener Demo.app Demo.store req fresh_response)
    = [ok_call Demo.applyConsoleLogger;
       CallMiddleware 3 (Next Demo.ErrInvalidRequestBody)]
        ++ CallErrMiddleware 4 Demo.ErrInvalidRequestBody (Next JUndefined) :: [])
    by reflexivity.
  split; [exact H|]. split; [exact Htr|].
  exact (proj2 (resolved_error_ends_pipeline _ _ _ _ _ _ _ H _ _ _ _ Htr)).
Defined.

(** ** What the listener itself writes *)

Lemma run_errMiddlewares_keeps P ems v req res :
  Forall (keeps_em P) ems -> P res ->
  P (o_res (run_errMiddlewares ems v req res)).
Proof.
  intros Hems. revert v req res.
  induction Hems as [|em rest Hem _ IH]; intros v req res HP; simpl; [exact HP|].
  specialize (Hem v req res HP).
  destruct (em_run em v req res) as [[req' res'] s]. simpl in *.
  destruct (awaited s) as [v'| |]; simpl; auto.
  destruct (is_undefined v'); simpl; auto.
Qed.

Lemma run_middlewares_keeps P mws ems k :
  Forall (keeps_mw P) mws -> Forall (keeps_em P) ems ->
  (forall req res, P res -> failed (k req res) -> P (o_res (k req res))) ->
  forall req res, P res -> failed (run_middlewares mws ems k req res) ->
    P (o_res (run_middlewares mws ems k req res)).
Proof.
  intros Hmws Hems Hk.
  induction Hmws as [|m rest Hm _ IH]; intros req res HP Hf; simpl in *; [auto|].
  specialize (Hm req res HP).
  destruct (mw_run m req res) as [[req' res'] s]. simpl in *.
  destruct (awaited s) as [v| |]; simpl; auto.
  destruct (is_undefined v) eqn:Hv; simpl.
  - apply IH; [exact Hm|].
    destruct Hf as (pre & id & s0 & post & Htr & Hs). simpl in Htr.
    destruct pre as [|e pre]; simpl in Htr.
    + inversion Htr; subst. apply is_undefined_spec in Hv. subst. congruence.
    + inversion Htr; subst. exists pre, id, s0, post. auto.
  - apply run_errMiddlewares_keeps; assumption.
Qed.

Lemma call_listener_not_failed l req res : ~ failed (call_listener l req res).
Proof.
  intros (pre & id & s & post & Htr & _). unfold call_listener in Htr.
  destruct (l_run l req res) as [[req' res'] [e|]]; simpl in Htr;
    (destruct pre as [|x pre]; [discriminate|inversion Htr; destruct pre; discriminate]).
Qed.

Lemma run_levels_keeps P levels l :
  Forall (fun T => Forall (keeps_mw P) (fst T) /\ Forall (keeps_em P) (snd T)) levels ->
  forall req res, P res -> failed (run_levels levels (call_listener l) req res) ->
    P (o_res (run_levels levels (call_listener l) req res)).
Proof.
  induction 1 as [|[mws ems] rest [Hm He] _ IH]; intros req res HP Hf; simpl in *.
  - exfalso. eapply call_listener_not_failed. exact Hf.
  - apply run_middlewares_keeps; auto.
Qed.

(** C8. When a middleware has signalled an error and every error middleware
    called after it has handed an error on, the error middlewares of the
    level have all been called, the listener's promise is fulfilled, the
    route's listener is not called and the dispatcher writes nothing: no
    call of [writeHead] or [end] is made, and whatever holds of the response
    and is maintained by the middlewares and error middlewares of the three
    levels holds of the response in the end. *)
Theorem unresolved_error_ends_silently st this req res app router route :
  matched st this req app router route ->
  forall pre id v post,
    o_trace (toListener this st req res) = pre ++ CallMiddleware id (Next v) :: post ->
    v <> JUndefined ->
    Forall resignals post ->
    let o := toListener this st req res in
    (exists T, In T [as_tier app; as_tier router; as_tier route] /\
               cascade (snd T) v post (o_status o) /\ length post = length (snd T)) /\
    o_status o = Fulfilled /\
    (forall lid, ~ In (CallListener lid) (o_trace o)) /\
    (forall e, In e (o_trace o) -> ~ is_core_write e) /\
    (forall P : Response -> Prop,
       Forall (fun T => Forall (keeps_mw P) (fst T) /\ Forall (keeps_em P) (snd T))
         [as_tier app; as_tier router; as_tier route] ->
       P res -> P (o_res o)).
Proof.
  intros Hm pre id v post Htr Hv Hall o.
  pose proof (toListener_pipeline st this req res _ _ _ Hm) as Hp.
  destruct (toListener_fail _ _ _ _ _ _ _ _ _ _ _ Hm Htr Hv)
    as (earlier & T & later & b & m & a & H1 & H2 & H3 & H4 & H5).
  destruct (cascade_exhausted _ _ _ _ H5 Hall) as [Hst Hlen].
  repeat split.
  - exists T. split; [rewrite H1; apply in_or_app; right; left; reflexivity|].
    split; assumption.
  - exact Hst.
  - intros lid Hin. apply in_split in Hin. destruct Hin as (l1 & l2 & Hl).
    unfold o in Hl. rewrite Hl in Hp. apply pipeline_listener in Hp.
    destruct Hp as (Hl1 & _ & Hl2). subst l2.
    assert (Hin : In (CallMiddleware id (Next v)) (l1 ++ [CallListener lid])).
    { rewrite <- Hl, Htr. apply in_or_app. right. left. reflexivity. }
    apply in_app_or in Hin. destruct Hin as [Hin|[Hin|[]]]; [|discriminate].
    rewrite Hl1 in Hin. apply in_map_iff in Hin. destruct Hin as (x & Hx & _).
    unfold ok_call in Hx. inversion Hx. congruence.
  - intros e Hin. apply pipeline_no_core_write in Hp.
    rewrite Forall_forall in Hp. apply Hp. apply list_elem_of_In. exact Hin.
  - intros P HP Hres. unfold o.
    rewrite (toListener_matched _ _ _ _ _ _ _ Hm).
    apply run_levels_keeps; [exact HP|exact Hres|].
    rewrite <- (toListener_matched _ _ _ _ _ _ _ Hm).
    exists pre, id, (Next v), post. split; [exact Htr|congruence].
Qed.

(** a GET of /strict: the only error middleware of the route hands the error
    on; the response is as the server made it *)
Lemma unresolved_error_ends_silently_witness :
  let req := Demo.request "/strict" "GET" JUndefined in
  matched Demo.store Demo.app req Demo.app_obj (fst (Demo.reached req))
    (snd (Demo.reached req)) /\
  o_trace (toListener Demo.app Demo.store req fresh_response)
    = [ok_call Demo.applyConsoleLogger; ok_call Demo.applyQueryParamsParser]
        ++ CallMiddleware 5 (Next (JBool false))
        :: [CallErrMiddleware 4 (JBool false) (Next (JBool false))] /\
  JBool false <> JUndefined /\
  Forall resignals [CallErrMiddleware 4 (JBool false) (Next (JBool false))] /\
  o_status (toListener Demo.app Demo.store req fresh_response) = Fulfilled.
Proof.
  intros req.
  assert (H : matched Demo.store Demo.app req Demo.app_obj (fst (Demo.reached req))
                (snd (Demo.reached req))) by (apply demo_matched; reflexivity).
  assert (Htr : o_trace (toListener Demo.app Demo.store req fresh_response)
    = [ok_call Demo.applyConsoleLogger; ok_call Demo.applyQueryParamsParser]
        ++ CallMiddleware 5 (Next (JBool false))
        :: [CallErrMiddleware 4 (JBool false) (Next (JBool false))]) by reflexivity.
  assert (Hv : JBool false <> JUndefined) by discriminate.
  assert (Hall : Forall resignals [CallErrMiddleware 4 (JBool false) (Next (JBool false))]).
  { constructor; [simpl; discriminate|constructor]. }
  split; [exact H|]. split; [exact Htr|]. split; [exact Hv|]. split; [exact Hall|].
  destruct (unresolved_error_ends_silently _ _ _ _ _ _ _ H _ _ _ _ Htr Hv Hall)
    as (_ & Hst & _).
  exact Hst.
Defined.

(** ** No route *)

Lemma match_in_routes_none st entries req :
  Forall (fun entry =>
    exists route, route_objs st !! snd entry = Some route /\
      route_matches route req = false) entries ->
  match_in_routes st entries req = Ok None.
Proof.
  induction 1 as [|[k a] rest (route & Ha & Hr) _ IH]; simpl; [reflexivity|].
  simpl in Ha. rewrite Ha. simpl. rewrite Hr. exact IH.
Qed.

Lemma match_in_routers_none st app req :
  no_route_matches st app req ->
  match_in_routers st (Simpress._routers app) req = Ok None.
Proof.
  unfold no_route_matches.
  induction 1 as [|ra rest (router & Hra & Hall) _ IH]; simpl; [reflexivity|].
  rewrite Hra. simpl. rewrite (match_in_routes_none _ _ _ Hall). simpl. exact IH.
Qed.

(** C5. When no route of any router of the application accepts the request,
    the listener calls no middleware, no error middleware and no listener:
    it calls [writeHead(404)] and [end()], and the response that the server
    handed over unwritten ends with status 404 and without a body, whatever
    middlewares are registered. *)
Theorem no_match_is_404 st this req res app :
  app_objs st !! this = Some app ->
  no_route_matches st app req ->
  headersSent res = false -> finished res = false -> chunks res = [] ->
  let o := toListener this st req res in
  o_trace o = [WriteHead 404; End_] /\
  statusCode (o_res o) = 404 /\ chunks (o_res o) = [] /\
  finished (o_res o) = true /\ headersSent (o_res o) = true /\
  headers (o_res o) = headers res /\
  o_status o = Fulfilled /\ o_req o = req.
Proof.
  intros Happ Hno Hs Hf Hc o. unfold o, toListener.
  rewrite Happ. simpl. rewrite (match_in_routers_none _ _ _ Hno). simpl.
  unfold not_found, writeHead. rewrite Hs. simpl. unfold end_. simpl. rewrite Hf.
  simpl. repeat split; auto.
Qed.

Lemma match_in_routes_none_inv st entries req :
  match_in_routes st entries req = Ok None ->
  Forall (fun entry =>
    exists route, route_objs st !! snd entry = Some route /\
      route_matches route req = false) entries.
Proof.
  induction entries as [|[k a] rest IH]; simpl; intros H; [constructor|].
  destruct (route_objs st !! a) as [r|] eqn:Ha; simpl in H; [|discriminate].
  destruct (route_matches r req) eqn:Hr; [discriminate|].
  constructor; [exists r; auto|auto].
Defined.

Lemma match_in_routers_none_inv st app req :
  match_in_routers st (Simpress._routers app) req = Ok None ->
  no_route_matches st app req.
Proof.
  unfold no_route_matches.
  induction (Simpress._routers app) as [|ra rest IH]; simpl; intros H; [constructor|].
  destruct (router_objs st !! ra) as [r|] eqn:Hra; simpl in H; [|discriminate].
  destruct (match_in_routes st (Router.routes r) req) as [[found|]|] eqn:Hf;
    simpl in H; try discriminate.
  constructor; [|auto].
  exists r. split; [exact Hra|]. apply match_in_routes_none_inv. exact Hf.
Defined.

(** a GET of /missing finds no route: 404 without a body *)
Lemma no_match_is_404_witness :
  let req := Demo.request "/missing" "GET" JUndefined in
  app_objs Demo.store !! Demo.app = Some Demo.app_obj /\
  no_route_matches Demo.store Demo.app_obj req /\
  o_res (toListener Demo.app Demo.store req fresh_response)
    = {| statusCode := 404; headers := []; headersSent := true; chunks := [];
         finished := true |}.
Proof.
  intros req.
  assert (Hno : no_route_matches Demo.store Demo.app_obj req)
    by (apply match_in_routers_none_inv; reflexivity).
  split; [reflexivity|]. split; [exact Hno|].
  destruct (no_match_is_404 Demo.store Demo.app req fresh_response Demo.app_obj
              eq_refl Hno eq_refl eq_refl eq_refl) as (_ & H1 & H2 & H3 & H4 & H5 & _).
  destruct (o_res (toListener Demo.app Demo.store req fresh_response)).
  simpl in *. subst. reflexivity.
Defined.

(** ** The registry *)

Lemma get_set_eq {V : Type} (m : JsMap.t V) k v : JsMap.get (JsMap.set m k v) k = Some v.
Proof.
  induction m as [|[k' v'] rest IH]; simpl.
  - rewrite String.eqb_refl. reflexivity.
  - destruct (String.eqb k' k) eqn:E; simpl; rewrite E; [reflexivity|exact IH].
Qed.

Lemma get_set_ne {V : Type} (m : JsMap.t V) k v k' :
  k' <> k -> JsMap.get (JsMap.set m k v) k' = JsMap.get m k'.
Proof.
  intros Hne. induction m as [|[k0 v0] rest IH]; simpl.
  - destruct (String.eqb k k') eqn:E; [|reflexivity].
    apply String.eqb_eq in E. congruence.
  - destruct (String.eqb k0 k) eqn:E; simpl.
    + apply String.eqb_eq in E. subst k0.
      destruct (String.eqb k k') eqn:E'; [|reflexivity].
      apply String.eqb_eq in E'. congruence.
    + rewrite IH. reflexivity.
Qed.

(** a key that is bound keeps its place; a new key goes last *)
Lemma set_keys {V : Type} (m : JsMap.t V) k v :
  map fst (JsMap.set m k v) =
    match JsMap.get m k with
    | Some _ => map fst m
    | None => map fst m ++ [k]
    end.
Proof.
  induction m as [|[k' v'] rest IH]; simpl; [reflexivity|].
  destruct (String.eqb k' k) eqn:E; simpl; [reflexivity|].
  rewrite IH. destruct (JsMap.get rest k); reflexivity.
Qed.

Lemma lookup_snoc {A : Type} (l : list A) (x : A) : (l ++ [x]) !! length l = Some x.
Proof. induction l; simpl; auto. Qed.

(** ** Malformed patterns *)



Lemma cascade_status ems v tr st e :
  cascade ems v tr st -> st <> Rejected (inr e).
Proof.
  revert v tr. induction ems as [|em rest IH]; intros v [|ev tr] H; simpl in H;
    try contradiction.
  - subst. discriminate.
  - destruct ev as [| id err s | | |]; try contradiction.
    destruct H as (_ & _ & H). destruct s as [v'| |].
    + destruct (is_undefined v').
      * destruct H as [_ ->]. discriminate.
      * eapply IH. exact H.
    + destruct H as [_ ->]. discriminate.
    + destruct H as [_ ->]. discriminate.
Qed.

Lemma pipeline_status p lid tr st e :
  pipeline p lid tr st -> st <> Rejected (inr e).
Proof.
  revert tr. induction p as [|[m ems] rest IH]; intros tr H; simpl in H.
  - destruct H as [_ [->|[x ->]]]; discriminate.
  - destruct tr as [|ev tr]; [contradiction|].
    destruct ev as [id s| | | |]; try contradiction.
    destruct H as [_ H]. destruct s as [v| |].
    + destruct (is_undefined v).
      * eapply IH. exact H.
      * eapply cascade_status. exact H.
    + destruct H as [_ ->]. discriminate.
    + destruct H as [_ ->]. discriminate.
Qed.

(** ** The pattern of a path string *)

Module RegExpFacts.
Import RegExp.

Lemma run_err e l : run (Err e) l = Err e.
Proof. induction l; simpl; auto. Qed.

Lemma parse_lits p l : exists p1, parse_all (Ok p) (map lit l) = Ok p1.
Proof.
  revert p. induction l as [|c l IH]; intros p; simpl; [eauto|].
  apply IH.
Qed.

Lemma run_tail_normal p : run (Ok (LNormal, p)) tail_text = after_tail p.
Proof. destruct p. reflexivity. Qed.

Lemma run_tail_escape p : run (Ok (LEscape, p)) (tl tail_text) = after_tail p.
Proof. destruct p. reflexivity. Qed.

(** reading the backslash abandons a pending form: its characters are atoms *)
Lemma run_tail_flush m p l :
  lex m "\" = Ok (LEscape, map lit l ++ []) ->
  exists p1, run (Ok (m, p)) tail_text = after_tail p1.
Proof.
  intros H. destruct (parse_lits p l) as [p1 Hp1]. exists p1.
  change (run (Ok (m, p)) tail_text) with (run (feed (Ok (m, p)) "\") (tl tail_text)).
  unfold feed at 1. cbn [bind]. rewrite H. cbn [bind].
  rewrite app_nil_r, Hp1. cbn [bind]. apply run_tail_escape.
Qed.

Lemma lex_class_tail cs c :
  In c tail_text ->
  (exists e, lex_class cs c = Err e) \/ (exists cs', lex_class cs c = Ok (LClass cs', [])).
Proof.
  intros Hin. unfold lex_class. destruct (c_esc cs).
  - destruct (class_escaped c) as [a|e]; cbn [bind]; [|eauto].
    destruct (class_atom cs a); cbn [bind]; eauto.
  - simpl in Hin.
    destruct Hin as [<-|[<-|[<-|[<-|[<-|[<-|[<-|[]]]]]]]]; lazy beta iota; eauto;
      match goal with
      | |- context [bind ?x _] => destruct x; cbn [bind]; eauto
      end.
Qed.

Lemma run_tail_class cs p l :
  Forall (fun c => In c tail_text) l ->
  (exists e, run (Ok (LClass cs, p)) l = Err e) \/
  (exists cs', run (Ok (LClass cs, p)) l = Ok (LClass cs', p)).
Proof.
  intros Hl. revert cs. induction Hl as [|c l Hc _ IH]; intros cs; [simpl; eauto|].
  change (run (Ok (LClass cs, p)) (c :: l)) with (run (feed (Ok (LClass cs, p)) c) l).
  unfold feed. cbn [bind lex].
  destruct (lex_class_tail cs c Hc) as [[e ->]|[cs' ->]]; cbn [bind parse_all fold_left].
  - left. exists e. apply run_err.
  - apply IH.
Qed.

(** the pattern text ends in \/?$|\? : whatever was read before, the machine
    either rejects the text, or is still inside a class, or has read the five
    closing tokens in normal mode *)
Lemma run_tail m p :
  (exists e, run (Ok (m, p)) tail_text = Err e) \/
  (exists cs p', run (Ok (m, p)) tail_text = Ok (LClass cs, p')) \/
  (exists p1, run (Ok (m, p)) tail_text = after_tail p1).
Proof.
  destruct m as [| | | |want letter have| | | |acc|b|cs].
  - right. right. exists p. apply run_tail_normal.
  - right. right.
    exists {| p_stack := p_stack p; p_alts := p_alts p; p_seq := Char (code "\") :: p_seq p;
              p_last := KAtom; p_names := p_names p |}.
    destruct p. reflexivity.
  - right. right. apply (run_tail_flush _ p ["\"; "c"]). reflexivity.
  - right. right.
    exists {| p_stack := p_stack p; p_alts := p_alts p; p_seq := Char 0 :: p_seq p;
              p_last := KAtom; p_names := p_names p |}.
    destruct p. reflexivity.
  - right. right. apply (run_tail_flush _ p (letter :: rev have)). reflexivity.
  - right. right.
    exists {| p_stack := (Capture, p_alts p, p_seq p) :: p_stack p; p_alts := [];
              p_seq := []; p_last := KNone; p_names := p_names p |}.
    destruct p. reflexivity.
  - left. exists SyntaxError. destruct p. reflexivity.
  - left. exists Unmodelled. destruct p. reflexivity.
  - left. exists Unmodelled. destruct p. reflexivity.
  - right. right. apply (run_tail_flush _ p (brace_text b)).
    destruct b as [[|d ds]|ds [|e es]]; reflexivity.
  - destruct (run_tail_class cs p tail_text) as [H|[cs' H]].
    + apply Forall_forall. intros c Hc. apply list_elem_of_In. exact Hc.
    + left. exact H.
    + right. left. exists cs', p. exact H.
Qed.

Lemma nonempty_app_r {A : Type} (l1 l2 : list A) :
  nonempty l2 = true -> nonempty (l1 ++ l2) = true.
Proof. destruct l1; simpl; auto. Qed.

Lemma accepts_query_alt a b : accepts_query b -> accepts_query (Alt a b).
Proof. intros H s i Hi. simpl. apply nonempty_app_r. apply H. exact Hi. Qed.

Lemma accepts_query_close alts acc :
  accepts_query acc -> accepts_query (fold_left (fun acc a => Alt a acc) alts acc).
Proof.
  revert acc. induction alts as [|a alts IH]; intros acc H; simpl; [exact H|].
  apply IH. apply accepts_query_alt. exact H.
Qed.

Lemma accepts_query_mark : accepts_query (Seq (Char (code "?")) Empty).
Proof. intros s i Hi. simpl. unfold one. rewrite Hi. reflexivity. Qed.

Lemma finish_after_tail p1 r : finish (after_tail p1) = Ok r -> accepts_query r.
Proof.
  destruct p1 as [stack alts ts last names]. unfold after_tail, finish.
  cbn. destruct stack; [|discriminate]. intros H. inversion H; subst. clear H.
  apply accepts_query_close. exact accepts_query_mark.
Qed.

Lemma list_ascii_of_string_app s1 s2 :
  list_ascii_of_string (s1 ++ s2) = list_ascii_of_string s1 ++ list_ascii_of_string s2.
Proof. induction s1 as [|c s1 IH]; simpl; [reflexivity|]. rewrite IH. reflexivity. Qed.

Lemma run_app s l1 l2 : run s (l1 ++ l2) = run (run s l1) l2.
Proof. apply fold_left_app. Qed.

(** every pattern text that ends in \/?$|\? and compiles has a last
    alternative, at top level, that is the question mark alone *)
Lemma compile_tail pre r :
  compile (pre ++ "\/?$|\?") = Ok r -> accepts_query r.
Proof.
  unfold compile. rewrite list_ascii_of_string_app, run_app.
  change (list_ascii_of_string "\/?$|\?") with tail_text.
  destruct (run (Ok (LNormal, p_init)) (list_ascii_of_string pre)) as [[m p]|e].
  - destruct (run_tail m p) as [[e ->]|[(cs & p' & ->)|[p1 ->]]].
    + discriminate.
    + discriminate.
    + apply finish_after_tail.
  - rewrite run_err. discriminate.
Qed.

Lemma matches_query r url :
  accepts_query r -> In "?" (list_ascii_of_string url) -> matches r url = true.
Proof.
  intros Hr Hin. unfold matches. apply existsb_exists.
  apply In_nth_error in Hin. destruct Hin as [i Hi]. exists i. split.
  - apply in_seq. split; [lia|]. simpl.
    assert (i < length (list_ascii_of_string url)); [|lia].
    apply nth_error_Some. rewrite Hi. discriminate.
  - apply Hr. exact Hi.
Qed.

Lemma lex_normal_plain c : plain c = true -> lex_normal c = (LNormal, [lit c]).
Proof.
  destruct c as [[] [] [] [] [] [] [] []]; intros H; try reflexivity; discriminate H.
Qed.

Lemma run_plain l p :
  forallb plain l = true ->
  run (Ok (LNormal, p)) l = Ok (LNormal, fold_left push_lit l p).
Proof.
  revert p. induction l as [|c l IH]; intros p H; simpl in H; [reflexivity|].
  apply andb_true_iff in H. destruct H as [Hc Hl].
  change (run (Ok (LNormal, p)) (c :: l)) with (run (feed (Ok (LNormal, p)) c) l).
  unfold feed. cbn [bind lex]. rewrite (lex_normal_plain c Hc). cbn.
  apply IH. exact Hl.
Qed.

Lemma fold_push_lit l p :
  p_stack (fold_left push_lit l p) = p_stack p /\
  p_alts (fold_left push_lit l p) = p_alts p /\
  p_seq (fold_left push_lit l p) = rev (map (fun c => Char (code c)) l) ++ p_seq p.
Proof.
  revert p. induction l as [|c l IH]; intros p; simpl; [auto|].
  destruct (IH (push_lit p c)) as (H1 & H2 & H3). rewrite H1, H2, H3. simpl.
  rewrite <- app_assoc. auto.
Qed.

Lemma mk_seq_chain cs k front :
  fold_left (fun acc t => Seq t acc) (rev (map (fun c => Char (code c)) cs) ++ front) k
  = fold_left (fun acc t => Seq t acc) front (chain cs k).
Proof.
  rewrite fold_left_app. f_equal.
  revert k. induction cs as [|c cs IH]; intros k; simpl; [reflexivity|].
  rewrite fold_left_app. simpl. rewrite IH. reflexivity.
Qed.

Lemma compile_literal path :
  literal path = true ->
  compile ("^" ++ path ++ "\/?$|\?") = Ok (path_regex (list_ascii_of_string path)).
Proof.
  intros Hl. unfold compile.
  rewrite !list_ascii_of_string_app, !run_app.
  change (list_ascii_of_string "\/?$|\?") with tail_text.
  change (run (Ok (LNormal, p_init)) (list_ascii_of_string "^"))
    with (Ok (LNormal, {| p_stack := []; p_alts := []; p_seq := [Bol];
                          p_last := KAssert; p_names := [] |})).
  rewrite (run_plain _ _ Hl), run_tail_normal.
  set (p0 := {| p_stack := []; p_alts := []; p_seq := [Bol]; p_last := KAssert;
                p_names := [] |}).
  destruct (fold_push_lit (list_ascii_of_string path) p0) as (H1 & H2 & H3).
  destruct (fold_left push_lit (list_ascii_of_string path) p0)
    as [stack alts ts last names].
  simpl in H1, H2, H3. subst stack alts ts.
  unfold after_tail, finish. cbn.
  f_equal. unfold path_regex. f_equal.
  rewrite mk_seq_chain. reflexivity.
Qed.

Lemma code_eqb c d : (code c =? code d)%N = Ascii.eqb c d.
Proof.
  destruct (Ascii.eqb c d) eqn:E.
  - apply Ascii.eqb_eq in E. subst. apply N.eqb_refl.
  - apply N.eqb_neq. intros H. apply Ascii.eqb_neq in E. apply E.
    unfold code in H. rewrite <- (ascii_N_embedding c), <- (ascii_N_embedding d), H.
    reflexivity.
Qed.

Lemma starts_at_cons cs x s i : starts_at cs (x :: s) (S i) = starts_at cs s i.
Proof.
  revert i. induction cs as [|c cs IH]; intros i; simpl; [reflexivity|].
  rewrite IH. reflexivity.
Qed.

Lemma starts_at_0 cs s : starts_at cs s 0 = true <-> exists b, s = cs ++ b.
Proof.
  revert s. induction cs as [|c cs IH]; intros s; simpl.
  - split; eauto.
  - destruct s as [|d s]; simpl.
    + split; [discriminate|]. intros [b Hb]. discriminate.
    + rewrite starts_at_cons. split.
      * intros H. apply andb_true_iff in H. destruct H as [Hd Hs].
        apply Ascii.eqb_eq in Hd. subst d. apply IH in Hs. destruct Hs as [b ->].
        exists b. reflexivity.
      * intros [b Hb]. inversion Hb; subst. rewrite Ascii.eqb_refl. simpl.
        apply IH. eauto.
Qed.

Lemma ends_chain cs k s i :
  ends (chain cs k) s i = if starts_at cs s i then ends k s (i + length cs) else [].
Proof.
  revert i. induction cs as [|c cs IH]; intros i; simpl.
  - rewrite Nat.add_0_r. reflexivity.
  - unfold one. destruct (nth_error s i) as [d|]; [|reflexivity].
    rewrite code_eqb, Ascii.eqb_sym.
    destruct (Ascii.eqb d c); simpl; [|reflexivity].
    rewrite app_nil_r, IH. replace (S i + length cs) with (i + S (length cs)) by lia.
    reflexivity.
Qed.

Lemma repeat_done step fuel mn greedy x : repeat step fuel mn (Some 0) greedy x = [x].
Proof. destruct fuel; reflexivity. Qed.

(** an optional term: one occurrence that consumes something, or none *)
Lemma ends_optional r s j :
  ends (Quant 0 (Some 1%N) true r) s j
  = flat_map (fun y => if y =? j then [] else [y]) (ends r s j) ++ [j].
Proof.
  change (ends (Quant 0 (Some 1%N) true r) s j)
    with (repeat (ends r s) (S (length s + 0)) 0 (Some 1) true j).
  cbn [repeat Nat.eqb andb option_map pred]. f_equal.
  apply flat_map_ext. intros y. rewrite repeat_done. reflexivity.
Qed.

Lemma ends_optional_slash_end s j :
  nonempty (ends optional_slash_end s j) = true <->
  j = length s \/ (nth_error s j = Some "/" /\ S j = length s).
Proof.
  unfold optional_slash_end.
  change (ends (Seq ?a ?b) s j) with (flat_map (ends b s) (ends a s j)).
  rewrite ends_optional.
  change (ends (Char (code "/")) s j) with (one (N.eqb (code "/")) s j).
  unfold one.
  destruct (nth_error s j) as [d|] eqn:Hd.
  - assert (Hlt : j < length s) by (apply nth_error_Some; congruence).
    assert (H1 : (S j =? j) = false) by (apply Nat.eqb_neq; lia).
    assert (H2 : (j =? length s) = false) by (apply Nat.eqb_neq; lia).
    rewrite (code_eqb "/" d).
    destruct (Ascii.eqb "/" d) eqn:E.
    + apply Ascii.eqb_eq in E. subst d. cbn -[Nat.eqb]. rewrite H1.
      cbn -[Nat.eqb]. rewrite H2.
      destruct (S j =? length s) eqn:E2; cbn -[Nat.eqb].
      * apply Nat.eqb_eq in E2. split; auto.
      * apply Nat.eqb_neq in E2. split; [discriminate|]. intros [H|[_ H]]; lia.
    + cbn -[Nat.eqb]. rewrite H2. cbn -[Nat.eqb].
      split; [discriminate|]. intros [H|[H _]]; [lia|].
      inversion H; subst. rewrite Ascii.eqb_refl in E. discriminate.
  - assert (Hge : length s <= j) by (apply nth_error_None; exact Hd).
    cbn -[Nat.eqb]. destruct (j =? length s) eqn:E; cbn -[Nat.eqb].
    + apply Nat.eqb_eq in E. split; auto.
    + apply Nat.eqb_neq in E. split; [discriminate|]. intros [H|[H _]]; [lia|discriminate].
Qed.

Lemma nonempty_app {A : Type} (l1 l2 : list A) :
  nonempty (l1 ++ l2) = nonempty l1 || nonempty l2.
Proof. destruct l1; reflexivity. Qed.

(** where a match of the pattern of a literal path may start *)
Lemma ends_path_regex cs s i :
  nonempty (ends (path_regex cs) s i) = true <->
  (i = 0 /\ (s = cs \/ s = cs ++ ["/"])) \/ nth_error s i = Some "?".
Proof.
  unfold path_regex.
  change (ends (Alt ?a ?b) s i) with (ends a s i ++ ends b s i).
  rewrite nonempty_app, orb_true_iff.
  apply Morphisms_Prop.or_iff_morphism.
  - change (ends (Seq ?a ?b) s i) with (flat_map (ends b s) (ends a s i)).
    change (ends Bol s i) with (guard (i =? 0) i).
    destruct i as [|i]; simpl.
    + rewrite app_nil_r, ends_chain.
      destruct (starts_at cs s 0) eqn:Hs.
      * apply starts_at_0 in Hs. destruct Hs as [b ->].
        rewrite ends_optional_slash_end. simpl.
        rewrite length_app, nth_error_app2 by lia.
        replace (length cs - length cs) with 0 by lia.
        split.
        -- intros [H|[H1 H2]].
           ++ destruct b; simpl in H; [|lia]. rewrite app_nil_r. auto.
           ++ destruct b as [|d [|e b]]; simpl in *; try lia; try discriminate.
              inversion H1; subst. auto.
        -- intros [_ [H|H]].
           ++ rewrite <- (app_nil_r cs) in H at 2. apply app_inv_head in H. subst.
              simpl. left. lia.
           ++ apply app_inv_head in H. subst. simpl. right. split; [reflexivity|lia].
      * split; [discriminate|]. intros [_ [H|H]].
        -- assert (starts_at cs s 0 = true)
             by (apply starts_at_0; exists []; rewrite app_nil_r; auto).
           congruence.
        -- assert (starts_at cs s 0 = true) by (apply starts_at_0; eauto).
           congruence.
    + split; [discriminate|]. intros [H _]. discriminate.
  - change (ends (Seq ?a ?b) s i) with (flat_map (ends b s) (ends a s i)).
    change (ends (Char (code "?")) s i) with (one (N.eqb (code "?")) s i).
    unfold one. destruct (nth_error s i) as [d|]; [|split; discriminate].
    rewrite (code_eqb "?" d). destruct (Ascii.eqb "?" d) eqn:E; simpl.
    + apply Ascii.eqb_eq in E. subst. split; auto.
    + split; [discriminate|]. intros H. inversion H; subst.
      rewrite Ascii.eqb_refl in E. discriminate.
Qed.

End RegExpFacts.

(** ** Routes registered from a path string *)

Lemma matches_path_regex cs url :
  RegExp.matches (RegExp.path_regex cs) url = true <->
  list_ascii_of_string url = cs \/ list_ascii_of_string url = cs ++ ["/"] \/
  In "?" (list_ascii_of_string url).
Proof.
  unfold RegExp.matches. rewrite existsb_exists. split.
  - intros (i & _ & Hi). apply RegExpFacts.ends_path_regex in Hi.
    destruct Hi as [[_ [H|H]]|H]; auto.
    right. right. eapply nth_error_In. exact H.
  - intros [H|[H|H]].
    + exists 0. split; [apply in_seq; lia|].
      apply RegExpFacts.ends_path_regex. auto.
    + exists 0. split; [apply in_seq; lia|].
      apply RegExpFacts.ends_path_regex. auto.
    + apply In_nth_error in H. destruct H as [i Hi]. exists i. split.
      * apply in_seq. split; [lia|]. simpl.
        assert (i < length (list_ascii_of_string url)); [|lia].
        apply nth_error_Some. rewrite Hi. discriminate.
      * apply RegExpFacts.ends_path_regex. auto.
Qed.

Lemma to_regexp_string path re :
  to_regexp (PString path) = Ok re ->
  RegExp.compile ("^" ++ path ++ "\/?$|\?") = Ok (RegExp.program re).
Proof.
  unfold to_regexp, RegExp.new.
  destruct (RegExp.compile ("^" ++ path ++ "\/?$|\?")) as [r|e]; simpl; intros H;
    inversion H; reflexivity.
Qed.

Lemma Router_route_stored this path method listener st a st' :
  Router_route this path method listener st = Ok (a, st') ->
  exists re, to_regexp path = Ok re /\
             route_objs st' !! a = Some (Route.new re method listener).
Proof.
  unfold Router_route, update_router, alloc_route, get_router, bindM, lift, ret, the.
  destruct (to_regexp path) as [re|e]; [|discriminate]. simpl.
  destruct (router_objs st !! this) as [r|]; [|discriminate]. simpl.
  intros H. inversion H; subst. exists re. split; [reflexivity|]. simpl.
  apply lookup_snoc.
Qed.

Lemma Simpress_route_stored this path method listener st a st' :
  Simpress_route this path method listener st = Ok (a, st') ->
  exists re, to_regexp path = Ok re /\
             route_objs st' !! a = Some (Route.new re method listener).
Proof.
  unfold Simpress_route, update_router, alloc_route, get_router, get_app, bindM, lift,
    ret, the.
  destruct (to_regexp path) as [re|e]; [|discriminate]. simpl.
  destruct (app_objs st !! this) as [app|]; [|discriminate]. simpl.
  destruct (head (Simpress._routers app)) as [r0|]; [|discriminate]. simpl.
  destruct (router_objs st !! r0) as [r|]; [|discriminate]. simpl.
  intros H. inversion H; subst. exists re. split; [reflexivity|]. simpl.
  apply lookup_snoc.
Qed.

(** C6. The pattern of every route registered from a path string, on a
    router or on the application, matches every URL that contains a question
    mark, whatever the path: such a request reaches the route as soon as the
    methods agree. *)
Theorem query_string_matches_every_string_route this path verb listener st a st' :
  Router_route this (PString path) verb listener st = Ok (a, st') \/
  Simpress_route this (PString path) verb listener st = Ok (a, st') ->
  exists route,
    route_objs st' !! a = Some route /\
    (forall url, In "?" (list_ascii_of_string url) ->
       RegExp.test (Route.path route) url = true) /\
    (forall req, In "?" (list_ascii_of_string (url req)) ->
       method req = verb -> route_matches route req = true).
Proof.
  intros H.
  assert (Hs : exists re, to_regexp (PString path) = Ok re /\
                 route_objs st' !! a = Some (Route.new re verb listener)).
  { destruct H as [H|H];
      [eapply Router_route_stored|eapply Simpress_route_stored]; exact H. }
  destruct Hs as (re & Hre & Ha).
  exists (Route.new re verb listener). split; [exact Ha|].
  assert (Hq : forall url, In "?" (list_ascii_of_string url) ->
                 RegExp.test re url = true).
  { intros url Hin. apply RegExpFacts.matches_query; [|exact Hin].
    apply to_regexp_string in Hre.
    apply (RegExpFacts.compile_tail ("^" ++ path)). exact Hre. }
  split; [exact Hq|].
  intros req Hin Hm. unfold route_matches. simpl.
  rewrite (Hq _ Hin), Hm, String.eqb_refl. reflexivity.
Qed.

(** GET /x/y?page=2 is matched by the pattern of the path "/" *)
Lemma query_string_matches_every_string_route_witness :
  exists st' route,
    Simpress_route Demo.app (PString "/") "GET" Demo.root Demo.store = Ok (4, st') /\
    route_objs st' !! 4 = Some route /\
    RegExp.test (Route.path route) "/x/y?page=2" = true.
Proof.
  destruct (Simpress_route Demo.app (PString "/") "GET" Demo.root Demo.store)
    as [[a st']|e] eqn:Hr; [|discriminate Hr].
  assert (Ha : a = 4) by (vm_compute in Hr; congruence). subst a.
  destruct (query_string_matches_every_string_route Demo.app "/" "GET" Demo.root
              Demo.store 4 st' (or_intror Hr)) as (route & Hroute & Hq & _).
  exists st', route. split; [reflexivity|]. split; [exact Hroute|].
  apply Hq. simpl. do 4 right. left. reflexivity.
Defined.

(** ** Literal paths *)

(** C7, amended. A path string is spliced into the pattern text as it is,
    without escaping.  When it holds no pattern metacharacter, the pattern
    compiles, and a URL without a question mark is matched exactly when it is
    the path, or the path followed by one slash: the match is tied to both
    ends of the URL. *)
Theorem literal_path_pattern path :
  RegExp.literal path = true ->
  exists re,
    to_regexp (PString path) = Ok re /\
    RegExp.compile ("^" ++ path ++ "\/?$|\?") = Ok (RegExp.program re) /\
    forall url, ~ In "?" (list_ascii_of_string url) ->
      (RegExp.test re url = true <-> url = path \/ url = (path ++ "/")%string).
Proof.
  intros Hl. pose proof (RegExpFacts.compile_literal path Hl) as Hc.
  exists {| RegExp.source := RegExp.source_of ("^" ++ path ++ "\/?$|\?");
            RegExp.program := RegExp.path_regex (list_ascii_of_string path) |}.
  split; [|split].
  - unfold to_regexp, RegExp.new. rewrite Hc. reflexivity.
  - exact Hc.
  - intros url Hq. unfold RegExp.test. simpl. rewrite matches_path_regex.
    split.
    + intros [H|[H|H]]; [left|right|contradiction].
      * rewrite <- (string_of_list_ascii_of_string url), H.
        apply string_of_list_ascii_of_string.
      * rewrite <- (string_of_list_ascii_of_string url), H.
        rewrite <- (string_of_list_ascii_of_string (path ++ "/")).
        rewrite RegExpFacts.list_ascii_of_string_app. reflexivity.
    + intros [->| ->]; [left; reflexivity|right; left].
      apply RegExpFacts.list_ascii_of_string_app.
Qed.

(** the path "/users": "/users/" is matched, "/users/7" is not *)
Lemma literal_path_pattern_witness :
  RegExp.literal "/users" = true /\
  exists re,
    to_regexp (PString "/users") = Ok re /\
    RegExp.test re "/users/" = true /\ RegExp.test re "/users/7" = false.
Proof.
  assert (Hl : RegExp.literal "/users" = true) by reflexivity.
  split; [exact Hl|].
  destruct (literal_path_pattern "/users" Hl) as (re & Hre & _ & Hm).
  exists re. split; [exact Hre|]. split.
  - apply Hm; [|right; reflexivity].
    simpl. intros H. repeat (destruct H as [H|H]; [discriminate H|]). exact H.
  - apply not_true_is_false. intros H. apply Hm in H.
    + destruct H as [H|H]; discriminate H.
    + simpl. intros H'. repeat (destruct H' as [H'|H']; [discriminate H'|]). exact H'.
Defined.

(** C7 as stated fails: the dot of the path "/a.c" is not escaped, and the
    URL "/abc", which does not begin with the path, is matched; an unclosed
    parenthesis in a path is not escaped either, and is rejected. *)
Lemma literal_path_not_escaped :
  (exists re, to_regexp (PString "/a.c") = Ok re /\
              RegExp.test re "/abc" = true /\ String.prefix "/a.c" "/abc" = false) /\
  to_regexp (PString "/a(b") = Err SyntaxError.
Proof.
  split; [|reflexivity].
  destruct (to_regexp (PString "/a.c")) as [re|e] eqn:H; [|discriminate H].
  exists re. split; [reflexivity|]. split; [|reflexivity].
  vm_compute in H. inversion H. reflexivity.
Qed.

(** ** The scenarios of the example application *)

(** GET / answers 200 with the body of the listener *)
Example get_root_is_ok :
  o_res (toListener Demo.app Demo.store (Demo.request "/" "GET" JUndefined)
           fresh_response)
  = Demo.respond 200 "ok" fresh_response.
Proof. vm_compute. reflexivity. Qed.

(** POST /echo with a body that is not an object answers 400 from the error
    middleware of the route; the listener is not called *)
Example post_echo_invalid_body :
  let o := toListener Demo.app Demo.store (Demo.request "/echo" "POST" (JStr "x"))
             fresh_response in
  o_res o = Demo.respond 400 "invalid request body" fresh_response /\
  o_trace o = [ok_call Demo.applyConsoleLogger;
               CallMiddleware 3 (Next Demo.ErrInvalidRequestBody);
               CallErrMiddleware 4 Demo.ErrInvalidRequestBody (Next JUndefined)].
Proof. split; vm_compute; reflexivity. Qed.

(** POST /echo with an object answers 200 from the listener *)
Example post_echo_object :
  o_res (toListener Demo.app Demo.store (Demo.request "/echo" "POST" (JObj 7))
           fresh_response)
  = Demo.respond 200 "echo" fresh_response.
Proof. vm_compute. reflexivity. Qed.

(** GET /users?page=2 is taken by the first GET route of the application,
    the one of the path "/", not by the route of "/users" *)
Example get_users_with_query :
  o_trace (toListener Demo.app Demo.store (Demo.request "/users?page=2" "GET" JUndefined)
             fresh_response)
  = [ok_call Demo.applyConsoleLogger; CallListener 10].
Proof. vm_compute. reflexivity. Qed.

(** the pattern /^\/users\/(?<id>\d+)\/?/ of the sources matches /users/42 and
    not /users/abc *)
Example users_id_pattern :
  exists r,
    RegExp.compile "^\/users\/(?<id>\d+)\/?" = Ok r /\
    RegExp.matches r "/users/42" = true /\ RegExp.matches r "/users/abc" = false.
Proof. eexists. split; [vm_compute; reflexivity|]. split; vm_compute; reflexivity. Qed.

(** * More properties of the registry and of the listener *)

(** ** Registration, call by call *)

Lemma existsb_ids {A : Type} (f : A -> nat) (l : list A) (k : nat) :
  existsb (fun x => f x =? k) l = false -> ~ In k (map f l).
Proof.
  induction l as [|x l IH]; simpl; [tauto|].
  intros H [E|HIn]; apply orb_false_iff in H; destruct H as [H1 H2].
  - apply Nat.eqb_neq in H1. congruence.
  - exact (IH H2 HIn).
Qed.

Lemma existsb_ids_true {A : Type} (f : A -> nat) (l : list A) (x : A) :
  existsb (fun y => f y =? f x) (l ++ [x]) = true.
Proof.
  rewrite existsb_app. simpl. rewrite Nat.eqb_refl. apply orb_true_iff. right. reflexivity.
Qed.

Lemma snoc_distinct {A : Type} (f : A -> nat) (l : list A) (x : A) :
  NoDup (map f l) -> ~ In (f x) (map f l) -> NoDup (map f (l ++ [x])).
Proof.
  intros Hl Hx. rewrite map_app. simpl. apply NoDup_app. split; [exact Hl|]. split.
  - intros y Hy Hy'. apply list_elem_of_In in Hy, Hy'. destruct Hy' as [<-|[]]. tauto.
  - apply NoDup_singleton.
Qed.

Lemma push_mw_idem l m : push_mw (push_mw l m) m = push_mw l m.
Proof.
  unfold push_mw at 2 3. destruct (includes_mw l m) eqn:E.
  - unfold push_mw. rewrite E. reflexivity.
  - unfold push_mw, includes_mw. rewrite existsb_ids_true. reflexivity.
Qed.

Lemma push_em_idem l m : push_em (push_em l m) m = push_em l m.
Proof.
  unfold push_em at 2 3. destruct (includes_em l m) eqn:E.
  - unfold push_em. rewrite E. reflexivity.
  - unfold push_em, includes_em. rewrite existsb_ids_true. reflexivity.
Qed.

Lemma push_mw_distinct l m : distinct_mws l -> distinct_mws (push_mw l m).
Proof.
  unfold distinct_mws, push_mw. intros H. destruct (includes_mw l m) eqn:E; [exact H|].
  apply snoc_distinct; [exact H|]. apply existsb_ids. exact E.
Qed.

Lemma push_em_distinct l m : distinct_ems l -> distinct_ems (push_em l m).
Proof.
  unfold distinct_ems, push_em. intros H. destruct (includes_em l m) eqn:E; [exact H|].
  apply snoc_distinct; [exact H|]. apply existsb_ids. exact E.
Qed.

Lemma push_mw_prefix l m : l `prefix_of` push_mw l m.
Proof.
  unfold push_mw. destruct (includes_mw l m); [reflexivity|]. apply prefix_app_r. reflexivity.
Qed.

Lemma push_em_prefix l m : l `prefix_of` push_em l m.
Proof.
  unfold push_em. destruct (includes_em l m); [reflexivity|]. apply prefix_app_r. reflexivity.
Qed.

Lemma with_useRouter_idem r a :
  Simpress.with_useRouter r (Simpress.with_useRouter r a) = Simpress.with_useRouter r a.
Proof.
  unfold Simpress.with_useRouter. simpl. f_equal.
  destruct (existsb (Nat.eqb r) (Simpress._routers a)) eqn:E; [rewrite E; reflexivity|].
  rewrite existsb_app. simpl. rewrite Nat.eqb_refl, orb_true_r. reflexivity.
Qed.

(** the methods that update one object, written out *)
Lemma update_route_eq a f st :
  update_route a f st =
    match route_objs st !! a with
    | Some r => Ok (tt, {| route_objs := <[a := f r]> (route_objs st);
                           router_objs := router_objs st; app_objs := app_objs st |})
    | None => Err Unmodelled
    end.
Proof. unfold update_route, bindM, get_route, lift, the. destruct (_ !! _); reflexivity. Qed.

Lemma update_router_eq a f st :
  update_router a f st =
    match router_objs st !! a with
    | Some r => Ok (tt, {| route_objs := route_objs st;
                           router_objs := <[a := f r]> (router_objs st);
                           app_objs := app_objs st |})
    | None => Err Unmodelled
    end.
Proof. unfold update_router, bindM, get_router, lift, the. destruct (_ !! _); reflexivity. Qed.

Lemma update_app_eq a f st :
  update_app a f st =
    match app_objs st !! a with
    | Some r => Ok (tt, {| route_objs := route_objs st; router_objs := router_objs st;
                           app_objs := <[a := f r]> (app_objs st) |})
    | None => Err Unmodelled
    end.
Proof. unfold update_app, bindM, get_app, lift, the. destruct (_ !! _); reflexivity. Qed.

Lemma lookup_insert_same {A : Type} (l : list A) i x y :
  l !! i = Some y -> <[i := x]> l !! i = Some x.
Proof. intros H. apply list_lookup_insert_eq. eapply lookup_lt_Some. exact H. Qed.

(** a second update of the same object by a function that does nothing the
    second time *)
Lemma update_route_twice a f st u st1 :
  (forall r, f (f r) = f r) ->
  update_route a f st = Ok (u, st1) -> update_route a f st1 = Ok (u, st1).
Proof.
  intros Hf. rewrite !update_route_eq. destruct (route_objs st !! a) as [r|] eqn:E; [|discriminate].
  intros H. inversion H; subst. simpl. rewrite (lookup_insert_same _ _ _ _ E).
  rewrite list_insert_insert_eq, Hf. reflexivity.
Qed.

Lemma update_router_twice a f st u st1 :
  (forall r, f (f r) = f r) ->
  update_router a f st = Ok (u, st1) -> update_router a f st1 = Ok (u, st1).
Proof.
  intros Hf. rewrite !update_router_eq.
  destruct (router_objs st !! a) as [r|] eqn:E; [|discriminate].
  intros H. inversion H; subst. simpl. rewrite (lookup_insert_same _ _ _ _ E).
  rewrite list_insert_insert_eq, Hf. reflexivity.
Qed.

Lemma update_app_twice a f st u st1 :
  (forall r, f (f r) = f r) ->
  update_app a f st = Ok (u, st1) -> update_app a f st1 = Ok (u, st1).
Proof.
  intros Hf. rewrite !update_app_eq. destruct (app_objs st !! a) as [r|] eqn:E; [|discriminate].
  intros H. inversion H; subst. simpl. rewrite (lookup_insert_same _ _ _ _ E).
  rewrite list_insert_insert_eq, Hf. reflexivity.
Qed.

(** a method that updates and returns [this] *)
Lemma some_update {U : Type} (upd : M U) (this : addr) st v st1 :
  some (let* _ := upd in ret this) st = Ok (v, st1) <->
  v = Some this /\ exists u, upd st = Ok (u, st1).
Proof.
  unfold some, bindM, ret. destruct (upd st) as [[u st']|e].
  - split.
    + intros H. inversion H; subst. split; [reflexivity|]. exists u. reflexivity.
    + intros [-> [u' H]]. inversion H; subst. reflexivity.
  - split; [discriminate|]. intros [_ [u H]]. discriminate.
Qed.

(** ** The methods, written out on the store *)

Lemma Router_route_eq this path verb listener st :
  Router_route this path verb listener st =
    match to_regexp path with
    | Err e => Err e
    | Ok re =>
        match router_objs st !! this with
        | None => Err Unmodelled
        | Some r =>
            Ok (length (route_objs st),
                {| route_objs := route_objs st ++ [Route.new re verb listener];
                   router_objs :=
                     <[this := Router.with_route (route_key verb re)
                                 (length (route_objs st)) r]> (router_objs st);
                   app_objs := app_objs st |})
        end
    end.
Proof.
  unfold Router_route, bindM at 1, lift. destruct (to_regexp path) as [re|e]; [|reflexivity].
  unfold bindM at 1, alloc_route. unfold bindM. rewrite update_router_eq. simpl.
  destruct (router_objs st !! this); reflexivity.
Qed.

Lemma Simpress_route_eq this path verb listener st :
  Simpress_route this path verb listener st =
    match to_regexp path with
    | Err e => Err e
    | Ok re =>
        match app_objs st !! this with
        | None => Err Unmodelled
        | Some app =>
            match Simpress._routers app with
            | [] => Err Unmodelled
            | r0 :: _ =>
                match router_objs st !! r0 with
                | None => Err Unmodelled
                | Some r =>
                    Ok (length (route_objs st),
                        {| route_objs := route_objs st ++ [Route.new re verb listener];
                           router_objs :=
                             <[r0 := Router.with_route (route_key verb re)
                                       (length (route_objs st)) r]> (router_objs st);
                           app_objs := app_objs st |})
                end
            end
        end
    end.
Proof.
  unfold Simpress_route, bindM at 1, lift. destruct (to_regexp path) as [re|e]; [|reflexivity].
  unfold bindM at 1, alloc_route. unfold bindM at 1, get_app, lift, the. simpl.
  destruct (app_objs st !! this) as [app|]; [|reflexivity].
  unfold bindM at 1, lift. destruct (Simpress._routers app) as [|r0 rest]; [reflexivity|].
  simpl. unfold bindM. rewrite update_router_eq. simpl.
  destruct (router_objs st !! r0); reflexivity.
Qed.

Lemma Router_findRoute_eq this path verb st :
  Router_findRoute this path verb st =
    match to_regexp path with
    | Err e => Err e
    | Ok re =>
        match router_objs st !! this with
        | None => Err Unmodelled
        | Some r => Ok (JsMap.get (Router.routes r) (route_key verb re), st)
        end
    end.
Proof.
  unfold Router_findRoute, bindM at 1, lift. destruct (to_regexp path) as [re|e]; [|reflexivity].
  unfold bindM, get_router, lift, the, ret. destruct (router_objs st !! this); reflexivity.
Qed.

Lemma find_in_routers_same routers k st v st' :
  find_in_routers routers k st = Ok (v, st') -> st' = st.
Proof.
  induction routers as [|a rest IH]; simpl.
  - unfold ret. intros H. inversion H. reflexivity.
  - unfold bindM, get_router, lift, the. destruct (router_objs st !! a) as [r|]; [|discriminate].
    destruct (JsMap.get (Router.routes r) k).
    + unfold ret. intros H. inversion H. reflexivity.
    + exact IH.
Qed.

Lemma Simpress_findRoute_eq this path verb st :
  Simpress_findRoute this path verb st =
    match to_regexp path with
    | Err e => Err e
    | Ok re =>
        match app_objs st !! this with
        | None => Err Unmodelled
        | Some app => find_in_routers (Simpress._routers app) (route_key verb re) st
        end
    end.
Proof.
  unfold Simpress_findRoute, bindM at 1, lift.
  destruct (to_regexp path) as [re|e]; [|reflexivity].
  unfold bindM, get_app, lift, the. destruct (app_objs st !! this); reflexivity.
Qed.

Lemma some_eq {A : Type} (m : M A) st :
  some m st = match m st with
              | Ok (a, st') => Ok (Some a, st')
              | Err e => Err e
              end.
Proof. unfold some, bindM, ret. destruct (m st) as [[a st']|e]; reflexivity. Qed.

Lemma use_eq {U : Type} (upd : M U) (this : addr) st :
  (let* _ := upd in ret this) st =
    match upd st with
    | Ok (_, st') => Ok (this, st')
    | Err e => Err e
    end.
Proof. unfold bindM, ret. destruct (upd st) as [[a st']|e]; reflexivity. Qed.

(** [findRoute] reads *)
Lemma looks_up_same c st v st' :
  looks_up c = true -> perform c st = Ok (v, st') -> st' = st.
Proof.
  intros Hc. destruct c; try discriminate Hc; cbn [perform].
  - rewrite Simpress_findRoute_eq. destruct (to_regexp path); [|discriminate].
    destruct (app_objs st !! this); [|discriminate]. apply find_in_routers_same.
  - rewrite Router_findRoute_eq. destruct (to_regexp path); [|discriminate].
    destruct (router_objs st !! this); [|discriminate]. intros H. inversion H. reflexivity.
Qed.

(** ** Stores that a program builds *)

Lemma wf_router_mono n n' r : n <= n' -> wf_router n r -> wf_router n' r.
Proof.
  intros Hn (H1 & H2 & H3 & H4). repeat split; try assumption.
  eapply Forall_impl; [exact H4|]. simpl. intros x Hx. lia.
Qed.

Lemma wf_app_mono n n' a : n <= n' -> wf_app n a -> wf_app n' a.
Proof.
  intros Hn (H1 & H2 & H3 & H4 & H5). repeat split; try assumption.
  eapply Forall_impl; [exact H5|]. simpl. intros x Hx. lia.
Qed.

Lemma get_none_keys {V : Type} (m : JsMap.t V) k :
  JsMap.get m k = None -> ~ In k (map fst m).
Proof.
  induction m as [|[k' v] m IH]; simpl; [tauto|].
  destruct (String.eqb k' k) eqn:E; [discriminate|].
  intros H [E'|HIn]; [|exact (IH H HIn)].
  subst. rewrite String.eqb_refl in E. discriminate.
Qed.

Lemma set_Forall {V : Type} (P : string * V -> Prop) (m : JsMap.t V) k v :
  Forall P m -> (forall k', P (k', v)) -> Forall P (JsMap.set m k v).
Proof.
  intros Hm Hv. induction Hm as [|[k' v'] m Hx Hm IH]; simpl.
  - constructor; [apply Hv|constructor].
  - destruct (String.eqb k' k); constructor; auto.
Qed.

Lemma set_distinct {V : Type} (m : JsMap.t V) k v :
  NoDup (map fst m) -> NoDup (map fst (JsMap.set m k v)).
Proof.
  intros H. rewrite set_keys. destruct (JsMap.get m k) eqn:E; [exact H|].
  apply NoDup_app. split; [exact H|]. split; [|apply NoDup_singleton].
  intros x Hx Hx'. apply list_elem_of_In in Hx, Hx'. destruct Hx' as [<-|[]].
  exact (get_none_keys _ _ E Hx).
Qed.

Lemma wf_route_new re verb listener : wf_route (Route.new re verb listener).
Proof. split; constructor. Qed.

Lemma wf_router_new n : wf_router n Router.new.
Proof. repeat split; constructor. Qed.

Lemma wf_with_route n k r :
  wf_router n r -> wf_router (S n) (Router.with_route k n r).
Proof.
  intros (H1 & H2 & H3 & H4). unfold Router.with_route. repeat split; simpl; try assumption.
  - apply set_distinct. exact H3.
  - apply set_Forall.
    + eapply Forall_impl; [exact H4|]. simpl. intros x Hx. lia.
    + intros k'. simpl. lia.
Qed.

Lemma wf_with_useRouter n r a :
  r < n -> wf_app n a -> wf_app n (Simpress.with_useRouter r a).
Proof.
  intros Hr (H1 & H2 & H3 & H4 & H5). unfold Simpress.with_useRouter.
  repeat split; simpl; try assumption;
    destruct (existsb (Nat.eqb r) (Simpress._routers a)) eqn:E; try assumption.
  - apply NoDup_app. split; [exact H3|]. split; [|apply NoDup_singleton].
    intros x Hx Hx'. apply list_elem_of_In in Hx, Hx'. destruct Hx' as [Hx'|[]].
    assert (existsb (Nat.eqb r) (Simpress._routers a) = true) as E'.
    { apply existsb_exists. exists x. split; [exact Hx|]. subst x. apply Nat.eqb_refl. }
    congruence.
  - destruct (Simpress._routers a); discriminate.
  - apply Forall_app. split; [exact H5|]. constructor; [exact Hr|constructor].
Qed.

Lemma wf_route_update st a r' :
  wf st -> wf_route r' ->
  wf {| route_objs := <[a := r']> (route_objs st); router_objs := router_objs st;
        app_objs := app_objs st |}.
Proof.
  intros (H1 & H2 & H3) Hr. repeat split; simpl.
  - apply Forall_insert; assumption.
  - rewrite length_insert. exact H2.
  - exact H3.
Qed.

Lemma wf_router_update st a r' :
  wf st -> wf_router (length (route_objs st)) r' ->
  wf {| route_objs := route_objs st; router_objs := <[a := r']> (router_objs st);
        app_objs := app_objs st |}.
Proof.
  intros (H1 & H2 & H3) Hr. repeat split; simpl.
  - exact H1.
  - apply Forall_insert; assumption.
  - rewrite length_insert. exact H3.
Qed.

Lemma wf_app_update st a r' :
  wf st -> wf_app (length (router_objs st)) r' ->
  wf {| route_objs := route_objs st; router_objs := router_objs st;
        app_objs := <[a := r']> (app_objs st) |}.
Proof.
  intros (H1 & H2 & H3) Hr. repeat split; simpl; try assumption.
  apply Forall_insert; assumption.
Qed.

Lemma wf_route_alloc st r a r' :
  wf st -> wf_route r -> wf_router (S (length (route_objs st))) r' ->
  wf {| route_objs := route_objs st ++ [r]; router_objs := <[a := r']> (router_objs st);
        app_objs := app_objs st |}.
Proof.
  intros (H1 & H2 & H3) Hr Hr'. repeat split; simpl.
  - apply Forall_app. split; [exact H1|]. constructor; [exact Hr|constructor].
  - rewrite length_app. simpl. rewrite Nat.add_1_r. apply Forall_insert; [|exact Hr'].
    eapply Forall_impl; [exact H2|]. intros x. apply wf_router_mono. lia.
  - rewrite length_insert. exact H3.
Qed.

Lemma wf_router_alloc st r :
  wf st -> wf_router (length (route_objs st)) r ->
  wf {| route_objs := route_objs st; router_objs := router_objs st ++ [r];
        app_objs := app_objs st |}.
Proof.
  intros (H1 & H2 & H3) Hr. repeat split; simpl.
  - exact H1.
  - apply Forall_app. split; [exact H2|]. constructor; [exact Hr|constructor].
  - eapply Forall_impl; [exact H3|]. intros x. apply wf_app_mono.
    rewrite length_app. simpl. lia.
Qed.

Lemma wf_app_alloc st a :
  wf st -> wf_app (length (router_objs st)) a ->
  wf {| route_objs := route_objs st; router_objs := router_objs st;
        app_objs := app_objs st ++ [a] |}.
Proof.
  intros (H1 & H2 & H3) Ha. repeat split; simpl; try assumption.
  apply Forall_app. split; [exact H3|]. constructor; [exact Ha|constructor].
Qed.

Lemma wf_lookup_route st a r : wf st -> route_objs st !! a = Some r -> wf_route r.
Proof. intros (H1 & _) H. eapply Forall_lookup_1; eassumption. Qed.

Lemma wf_lookup_router st a r :
  wf st -> router_objs st !! a = Some r -> wf_router (length (route_objs st)) r.
Proof. intros (_ & H2 & _) H. eapply Forall_lookup_1; eassumption. Qed.

Lemma wf_lookup_app st a r :
  wf st -> app_objs st !! a = Some r -> wf_app (length (router_objs st)) r.
Proof. intros (_ & _ & H3) H. eapply Forall_lookup_1; eassumption. Qed.

Lemma wf_empty : wf empty_store.
Proof. repeat split; constructor. Qed.

Lemma wf_attempt st c : wf st -> wf (attempt st c).
Proof.
  intros Hwf. unfold attempt.
  destruct c; cbn [perform]; rewrite ?some_eq.
  - (* new Simpress *)
    unfold Simpress_new, bindM, Router_new, alloc_router, alloc_app. simpl.
    apply (wf_app_alloc {| route_objs := route_objs st;
                           router_objs := router_objs st ++ [Router.new];
                           app_objs := app_objs st |}).
    + apply wf_router_alloc; [exact Hwf|apply wf_router_new].
    + simpl. rewrite length_app. simpl. repeat split; simpl; try constructor.
      * intros HIn. apply list_elem_of_In in HIn. destruct HIn.
      * constructor.
      * discriminate.
      * lia.
      * constructor.
  - unfold Router_new, alloc_router. apply wf_router_alloc; [exact Hwf|apply wf_router_new].
  - unfold Simpress_use. rewrite use_eq, update_app_eq.
    destruct (app_objs st !! this) as [a|] eqn:E; [|exact Hwf].
    apply wf_app_update; [exact Hwf|]. destruct (wf_lookup_app _ _ _ Hwf E) as (H1 & H2).
    split; [apply push_mw_distinct; exact H1|exact H2].
  - unfold Simpress_useForError. rewrite use_eq, update_app_eq.
    destruct (app_objs st !! this) as [a|] eqn:E; [|exact Hwf].
    apply wf_app_update; [exact Hwf|].
    destruct (wf_lookup_app _ _ _ Hwf E) as (H1 & H2 & H3).
    split; [exact H1|]. split; [apply push_em_distinct; exact H2|exact H3].
  - unfold bindM at 1, get_router, lift, the.
    destruct (router_objs st !! router) as [r|] eqn:Er; [|exact Hwf].
    rewrite some_eq. unfold Simpress_useRouter. rewrite use_eq, update_app_eq.
    destruct (app_objs st !! this) as [a|] eqn:E; [|exact Hwf].
    apply wf_app_update; [exact Hwf|]. apply wf_with_useRouter.
    + eapply lookup_lt_Some. exact Er.
    + exact (wf_lookup_app _ _ _ Hwf E).
  - rewrite Simpress_route_eq. destruct (to_regexp path) as [re|]; [|exact Hwf].
    destruct (app_objs st !! this) as [a|]; [|exact Hwf].
    destruct (Simpress._routers a) as [|r0 rest]; [exact Hwf|].
    destruct (router_objs st !! r0) as [r|] eqn:E; [|exact Hwf].
    apply wf_route_alloc; [exact Hwf|apply wf_route_new|].
    apply wf_with_route. exact (wf_lookup_router _ _ _ Hwf E).
  - destruct (Simpress_findRoute this path verb st) as [[v st']|] eqn:E; [|exact Hwf].
    rewrite (looks_up_same (AppFindRoute this path verb) st v st' eq_refl E).
    exact Hwf.
  - unfold Router_use. rewrite use_eq, update_router_eq.
    destruct (router_objs st !! this) as [r|] eqn:E; [|exact Hwf].
    apply wf_router_update; [exact Hwf|].
    destruct (wf_lookup_router _ _ _ Hwf E) as (H1 & H2).
    split; [apply push_mw_distinct; exact H1|exact H2].
  - unfold Router_useForError. rewrite use_eq, update_router_eq.
    destruct (router_objs st !! this) as [r|] eqn:E; [|exact Hwf].
    apply wf_router_update; [exact Hwf|].
    destruct (wf_lookup_router _ _ _ Hwf E) as (H1 & H2 & H3).
    split; [exact H1|]. split; [apply push_em_distinct; exact H2|exact H3].
  - rewrite Router_route_eq. destruct (to_regexp path) as [re|]; [|exact Hwf].
    destruct (router_objs st !! this) as [r|] eqn:E; [|exact Hwf].
    apply wf_route_alloc; [exact Hwf|apply wf_route_new|].
    apply wf_with_route. exact (wf_lookup_router _ _ _ Hwf E).
  - destruct (Router_findRoute this path verb st) as [[v st']|] eqn:E; [|exact Hwf].
    rewrite (looks_up_same (RouterFindRoute this path verb) st v st' eq_refl E).
    exact Hwf.
  - unfold Route_use. rewrite use_eq, update_route_eq.
    destruct (route_objs st !! this) as [r|] eqn:E; [|exact Hwf].
    apply wf_route_update; [exact Hwf|]. destruct (wf_lookup_route _ _ _ Hwf E) as (H1 & H2).
    split; [apply push_mw_distinct; exact H1|exact H2].
  - unfold Route_useForError. rewrite use_eq, update_route_eq.
    destruct (route_objs st !! this) as [r|] eqn:E; [|exact Hwf].
    apply wf_route_update; [exact Hwf|]. destruct (wf_lookup_route _ _ _ Hwf E) as (H1 & H2).
    split; [exact H1|apply push_em_distinct; exact H2].
Qed.

Lemma wf_after cs st : wf st -> wf (after cs st).
Proof.
  revert st. induction cs as [|c cs IH]; intros st H; [exact H|].
  simpl. apply IH. apply wf_attempt. exact H.
Qed.

(** ** What a program never undoes *)

Lemma grows_refl {A : Type} (R : A -> A -> Prop) (l : list A) :
  (forall x, R x x) -> grows R l l.
Proof. intros HR i x H. exists x. split; [exact H|apply HR]. Qed.

Lemma grows_trans {A : Type} (R : A -> A -> Prop) (l1 l2 l3 : list A) :
  (forall x y z, R x y -> R y z -> R x z) ->
  grows R l1 l2 -> grows R l2 l3 -> grows R l1 l3.
Proof.
  intros HR H12 H23 i x H. destruct (H12 i x H) as (y & Hy & Hxy).
  destruct (H23 i y Hy) as (z & Hz & Hyz). exists z. split; [exact Hz|].
  eapply HR; eassumption.
Qed.

Lemma grows_insert {A : Type} (R : A -> A -> Prop) (l : list A) a x x' :
  (forall y, R y y) -> l !! a = Some x -> R x x' -> grows R l (<[a := x']> l).
Proof.
  intros HR Ha Hx i y Hy. destruct (Nat.eq_dec i a) as [->|Hne].
  - exists x'. split; [eapply lookup_insert_same; exact Ha|]. congruence.
  - exists y. split; [|apply HR]. rewrite list_lookup_insert_ne; [exact Hy|congruence].
Qed.

Lemma grows_app {A : Type} (R : A -> A -> Prop) (l k : list A) :
  (forall y, R y y) -> grows R l (l ++ k).
Proof.
  intros HR i y Hy. exists y. split; [|apply HR]. apply lookup_app_l_Some. exact Hy.
Qed.

Lemma route_grows_refl r : route_grows r r.
Proof. repeat split; reflexivity. Qed.

Lemma router_grows_refl r : router_grows r r.
Proof. repeat split; reflexivity. Qed.

Lemma app_grows_refl r : app_grows r r.
Proof. repeat split; reflexivity. Qed.

Lemma route_grows_trans x y z : route_grows x y -> route_grows y z -> route_grows x z.
Proof.
  intros (A1 & A2 & A3 & A4 & A5) (B1 & B2 & B3 & B4 & B5).
  repeat split; try congruence; etransitivity; eassumption.
Qed.

Lemma router_grows_trans x y z : router_grows x y -> router_grows y z -> router_grows x z.
Proof.
  intros (A1 & A2 & A3) (B1 & B2 & B3). repeat split; etransitivity; eassumption.
Qed.

Lemma app_grows_trans x y z : app_grows x y -> app_grows y z -> app_grows x z.
Proof.
  intros (A1 & A2 & A3) (B1 & B2 & B3). repeat split; etransitivity; eassumption.
Qed.

Lemma store_grows_refl st : store_grows st st.
Proof.
  repeat split; apply grows_refl;
    [apply route_grows_refl|apply router_grows_refl|apply app_grows_refl].
Qed.

Lemma store_grows_trans s1 s2 s3 : store_grows s1 s2 -> store_grows s2 s3 -> store_grows s1 s3.
Proof.
  intros (A1 & A2 & A3) (B1 & B2 & B3). repeat split.
  - eapply grows_trans; [apply route_grows_trans|eassumption|eassumption].
  - eapply grows_trans; [apply router_grows_trans|eassumption|eassumption].
  - eapply grows_trans; [apply app_grows_trans|eassumption|eassumption].
Qed.

Ltac unchanged :=
  first [ apply grows_refl, route_grows_refl | apply grows_refl, router_grows_refl
        | apply grows_refl, app_grows_refl | apply grows_app, route_grows_refl
        | apply grows_app, router_grows_refl | apply grows_app, app_grows_refl ].

Lemma set_keys_prefix {V : Type} (m : JsMap.t V) k v :
  map fst m `prefix_of` map fst (JsMap.set m k v).
Proof.
  rewrite set_keys. destruct (JsMap.get m k); [reflexivity|]. apply prefix_app_r. reflexivity.
Qed.

Lemma with_route_grows k a r : router_grows r (Router.with_route k a r).
Proof. repeat split; simpl; [apply set_keys_prefix|reflexivity|reflexivity]. Qed.

Lemma attempt_grows st c : store_grows st (attempt st c).
Proof.
  unfold attempt. destruct c; cbn [perform]; rewrite ?some_eq.
  - unfold Simpress_new, bindM, Router_new, alloc_router, alloc_app. simpl.
    repeat split; simpl; unchanged.
  - unfold Router_new, alloc_router. repeat split; simpl; unchanged.
  - unfold Simpress_use. rewrite use_eq, update_app_eq.
    destruct (app_objs st !! this) as [a|] eqn:E; [|apply store_grows_refl].
    repeat split; simpl; try unchanged.
    eapply grows_insert; [apply app_grows_refl|exact E|].
    repeat split; simpl; try reflexivity. apply push_mw_prefix.
  - unfold Simpress_useForError. rewrite use_eq, update_app_eq.
    destruct (app_objs st !! this) as [a|] eqn:E; [|apply store_grows_refl].
    repeat split; simpl; try unchanged.
    eapply grows_insert; [apply app_grows_refl|exact E|].
    repeat split; simpl; try reflexivity. apply push_em_prefix.
  - unfold bindM at 1, get_router, lift, the.
    destruct (router_objs st !! router) as [r|] eqn:Er; [|apply store_grows_refl].
    rewrite some_eq. unfold Simpress_useRouter. rewrite use_eq, update_app_eq.
    destruct (app_objs st !! this) as [a|] eqn:E; [|apply store_grows_refl].
    repeat split; simpl; try unchanged.
    eapply grows_insert; [apply app_grows_refl|exact E|].
    repeat split; simpl; try reflexivity.
    destruct (existsb _ _); [reflexivity|]. apply prefix_app_r. reflexivity.
  - rewrite Simpress_route_eq. destruct (to_regexp path) as [re|]; [|apply store_grows_refl].
    destruct (app_objs st !! this) as [a|]; [|apply store_grows_refl].
    destruct (Simpress._routers a) as [|r0 rest]; [apply store_grows_refl|].
    destruct (router_objs st !! r0) as [r|] eqn:E; [|apply store_grows_refl].
    repeat split; simpl; try unchanged.
    eapply grows_insert; [apply router_grows_refl|exact E|apply with_route_grows].
  - destruct (Simpress_findRoute this path verb st) as [[v st']|] eqn:E;
      [|apply store_grows_refl].
    rewrite (looks_up_same (AppFindRoute this path verb) st v st' eq_refl E).
    apply store_grows_refl.
  - unfold Router_use. rewrite use_eq, update_router_eq.
    destruct (router_objs st !! this) as [r|] eqn:E; [|apply store_grows_refl].
    repeat split; simpl; try unchanged.
    eapply grows_insert; [apply router_grows_refl|exact E|].
    repeat split; simpl; try reflexivity. apply push_mw_prefix.
  - unfold Router_useForError. rewrite use_eq, update_router_eq.
    destruct (router_objs st !! this) as [r|] eqn:E; [|apply store_grows_refl].
    repeat split; simpl; try unchanged.
    eapply grows_insert; [apply router_grows_refl|exact E|].
    repeat split; simpl; try reflexivity. apply push_em_prefix.
  - rewrite Router_route_eq. destruct (to_regexp path) as [re|]; [|apply store_grows_refl].
    destruct (router_objs st !! this) as [r|] eqn:E; [|apply store_grows_refl].
    repeat split; simpl; try unchanged.
    eapply grows_insert; [apply router_grows_refl|exact E|apply with_route_grows].
  - destruct (Router_findRoute this path verb st) as [[v st']|] eqn:E;
      [|apply store_grows_refl].
    rewrite (looks_up_same (RouterFindRoute this path verb) st v st' eq_refl E).
    apply store_grows_refl.
  - unfold Route_use. rewrite use_eq, update_route_eq.
    destruct (route_objs st !! this) as [r|] eqn:E; [|apply store_grows_refl].
    repeat split; simpl; try unchanged.
    eapply grows_insert; [apply route_grows_refl|exact E|].
    repeat split; simpl; try reflexivity. apply push_mw_prefix.
  - unfold Route_useForError. rewrite use_eq, update_route_eq.
    destruct (route_objs st !! this) as [r|] eqn:E; [|apply store_grows_refl].
    repeat split; simpl; try unchanged.
    eapply grows_insert; [apply route_grows_refl|exact E|].
    repeat split; simpl; try reflexivity. apply push_em_prefix.
Qed.

Lemma after_grows cs st : store_grows st (after cs st).
Proof.
  revert st. induction cs as [|c cs IH]; intros st; [apply store_grows_refl|].
  simpl. eapply store_grows_trans; [apply attempt_grows|apply IH].
Qed.

(** ** The search on a store that a program built *)

Lemma match_in_routes_total st entries req :
  Forall (fun entry => snd entry < length (route_objs st)) entries ->
  exists found, match_in_routes st entries req = Ok found.
Proof.
  induction 1 as [|[k a] rest Ha _ IH]; cbn [match_in_routes]; [eexists; reflexivity|].
  cbn [snd] in Ha. destruct (lookup_lt_is_Some_2 _ _ Ha) as [route E].
  unfold addr in *. rewrite E.
  cbn [the bind]. destruct (route_matches route req); [eexists; reflexivity|exact IH].
Qed.

Lemma match_in_routers_total st routers req :
  wf st -> Forall (fun r => r < length (router_objs st)) routers ->
  exists found, match_in_routers st routers req = Ok found.
Proof.
  intros Hwf. induction 1 as [|a rest Ha _ IH]; cbn [match_in_routers];
    [eexists; reflexivity|].
  destruct (lookup_lt_is_Some_2 _ _ Ha) as [router E]. unfold addr in *. rewrite E.
  cbn [the bind].
  destruct (wf_lookup_router _ _ _ Hwf E) as (_ & _ & _ & Hb).
  destruct (match_in_routes_total st (Router.routes router) req Hb) as [[route|] ->];
    cbn [bind].
  - eexists; reflexivity.
  - exact IH.
Qed.

(** ** The place of the route that is found *)

Lemma match_in_routes_rejects st entries req :
  match_in_routes st entries req = Ok None <-> rejects st req entries.
Proof.
  split; [apply match_in_routes_none_inv|apply match_in_routes_none].
Qed.

Lemma match_in_routes_first st entries req route :
  match_in_routes st entries req = Ok (Some route) <->
  exists es1 k a es2,
    entries = es1 ++ (k, a) :: es2 /\ rejects st req es1 /\
    route_objs st !! a = Some route /\ route_matches route req = true.
Proof.
  split.
  - induction entries as [|[k a] rest IH]; cbn [match_in_routes]; [discriminate|].
    destruct (route_objs st !! a) as [r|] eqn:Ha; cbn [the bind]; [|discriminate].
    destruct (route_matches r req) eqn:Hr.
    + intros H. inversion H; subst. exists [], k, a, rest.
      repeat split; [constructor|exact Ha|exact Hr].
    + intros H. destruct (IH H) as (es1 & k' & a' & es2 & -> & Hrej & Ha' & Hr').
      exists ((k, a) :: es1), k', a', es2. repeat split; try assumption.
      constructor; [|exact Hrej]. exists r. split; assumption.
  - intros (es1 & k & a & es2 & -> & Hrej & Ha & Hr).
    induction Hrej as [|[k' a'] es1 (r & Hr1 & Hr2) _ IH]; cbn [app match_in_routes].
    + rewrite Ha. cbn [the bind]. rewrite Hr. reflexivity.
    + cbn [snd] in Hr1. rewrite Hr1. cbn [the bind]. rewrite Hr2. exact IH.
Qed.

Lemma match_in_routers_first st routers req router route :
  match_in_routers st routers req = Ok (Some (router, route)) <->
  exists ra k a, first_match st routers req ra router k a route.
Proof.
  split.
  - induction routers as [|rb rest IH]; cbn [match_in_routers]; [discriminate|].
    destruct (router_objs st !! rb) as [r|] eqn:Hrb; cbn [the bind]; [|discriminate].
    destruct (match_in_routes st (Router.routes r) req) as [[found|]|] eqn:Hf;
      cbn [bind]; [| |discriminate].
    + intros H. inversion H; subst.
      apply match_in_routes_first in Hf. destruct Hf as (es1 & k & a & es2 & He & Hrej & Ha & Hr).
      exists rb, k, a, [], rest, es1, es2. repeat split; try assumption. constructor.
    + intros H. destruct (IH H)
        as (ra & k & a & rs1 & rs2 & es1 & es2 & -> & Hrs & Hra & He & Hrej & Ha & Hr).
      exists ra, k, a, (rb :: rs1), rs2, es1, es2. repeat split; try assumption.
      constructor; [|exact Hrs]. exists r. split; [exact Hrb|].
      apply match_in_routes_rejects. exact Hf.
  - intros (ra & k & a & rs1 & rs2 & es1 & es2 & -> & Hrs & Hra & He & Hrej & Ha & Hr).
    induction Hrs as [|rb rs1 (r & Hr1 & Hr2) _ IH]; cbn [app match_in_routers].
    + rewrite Hra. cbn [the bind].
      assert (match_in_routes st (Router.routes router) req = Ok (Some route)) as ->.
      { apply match_in_routes_first. exists es1, k, a, es2. repeat split; assumption. }
      reflexivity.
    + rewrite Hr1. cbn [the bind]. apply match_in_routes_rejects in Hr2. rewrite Hr2.
      cbn [bind]. exact IH.
Qed.

Lemma route_matches_spec route req :
  route_matches route req = true <->
  RegExp.test (Route.path route) (url req) = true /\ method req = Route.method route.
Proof.
  unfold route_matches. rewrite andb_true_iff, String.eqb_eq. reflexivity.
Qed.

(** ** Calls that do not go on *)

Lemma cascade_halt ems v0 pre e post st s :
  cascade ems v0 (pre ++ e :: post) st -> signal_of e = Some s ->
  match s with
  | Next _ => True
  | Throws x => post = [] /\ st = Rejected (inl x)
  | NoNext => post = [] /\ st = Pending
  end.
Proof.
  revert v0 pre. induction ems as [|em rest IH]; intros v0 pre H He.
  - destruct pre; simpl in H; contradiction.
  - destruct pre as [|e0 pre]; simpl in H.
    + destruct e as [| id err s0 | | |]; try contradiction. simpl in He.
      inversion He; subst. destruct H as (_ & _ & H). destruct s as [v| |]; auto.
    + destruct e0 as [| id err s0 | | |]; try contradiction.
      destruct H as (_ & _ & H). destruct s0 as [v'| |].
      * destruct (is_undefined v'); [stopped H pre|]. exact (IH _ _ H He).
      * stopped H pre.
      * stopped H pre.
Qed.

Lemma pipeline_halt p lid pre e post st s :
  pipeline p lid (pre ++ e :: post) st -> signal_of e = Some s ->
  match s with
  | Next _ => True
  | Throws x => post = [] /\ st = Rejected (inl x)
  | NoNext => post = [] /\ st = Pending
  end.
Proof.
  revert pre. induction p as [|[m ems] rest IH]; intros pre H He.
  - simpl in H. destruct H as [H _]. destruct pre as [|e0 pre].
    + inversion H; subst. discriminate He.
    + inversion H. destruct pre; discriminate.
  - destruct pre as [|e0 pre]; simpl in H.
    + destruct e as [id s0| | | |]; try contradiction. simpl in He.
      inversion He; subst. destruct H as (_ & H). destruct s as [v| |]; auto.
    + destruct e0 as [id s0| | | |]; try contradiction.
      destruct H as (_ & H). destruct s0 as [v| |].
      * destruct (is_undefined v); [exact (IH _ H He)|].
        exact (cascade_halt _ _ _ _ _ _ _ H He).
      * stopped H pre.
      * stopped H pre.
Qed.

Lemma cascade_pending ems v0 tr :
  cascade ems v0 tr Pending ->
  exists pre e, tr = pre ++ [e] /\ signal_of e = Some NoNext.
Proof.
  revert v0 tr. induction ems as [|em rest IH]; intros v0 tr H.
  - destruct tr; simpl in H; [discriminate|contradiction].
  - destruct tr as [|e tr]; simpl in H; [contradiction|].
    destruct e as [| id err s | | |]; try contradiction.
    destruct H as (_ & _ & H). destruct s as [v| |].
    + destruct (is_undefined v); [destruct H; discriminate|].
      destruct (IH _ _ H) as (pre & e & -> & He).
      exists (CallErrMiddleware id err (Next v) :: pre), e. split; [reflexivity|exact He].
    + destruct H; discriminate.
    + destruct H as [-> _]. exists [], (CallErrMiddleware id err NoNext).
      split; reflexivity.
Qed.

Lemma pipeline_pending p lid tr :
  pipeline p lid tr Pending ->
  exists pre e, tr = pre ++ [e] /\ signal_of e = Some NoNext.
Proof.
  revert tr. induction p as [|[m ems] rest IH]; intros tr H.
  - simpl in H. destruct H as [_ [H|[x H]]]; discriminate.
  - destruct tr as [|e tr]; simpl in H; [contradiction|].
    destruct e as [id s| | | |]; try contradiction.
    destruct H as (_ & H). destruct s as [v| |].
    + destruct (is_undefined v).
      * destruct (IH _ H) as (pre & e & -> & He).
        exists (CallMiddleware id (Next v) :: pre), e. split; [reflexivity|exact He].
      * destruct (cascade_pending _ _ _ H) as (pre & e & -> & He).
        exists (CallMiddleware id (Next v) :: pre), e. split; [reflexivity|exact He].
    + destruct H; discriminate.
    + destruct H as [-> _]. exists [], (CallMiddleware id NoNext). split; reflexivity.
Qed.

(** ** What reaches the route's listener *)

Lemma emits_trace o evs : o_trace (fold_right emit o evs) = evs ++ o_trace o.
Proof. induction evs as [|e evs IH]; simpl; [reflexivity|]. rewrite IH. reflexivity. Qed.

Lemma emits_req o evs : o_req (fold_right emit o evs) = o_req o.
Proof. induction evs as [|e evs IH]; simpl; [reflexivity|exact IH]. Qed.

Lemma emits_res o evs : o_res (fold_right emit o evs) = o_res o.
Proof. induction evs as [|e evs IH]; simpl; [reflexivity|exact IH]. Qed.

Lemma emits_status o evs : o_status (fold_right emit o evs) = o_status o.
Proof. induction evs as [|e evs IH]; simpl; [reflexivity|exact IH]. Qed.

Lemma pass_app mws1 mws2 req res :
  pass (mws1 ++ mws2) req res =
    match pass mws1 req res with
    | Some (req1, res1) => pass mws2 req1 res1
    | None => None
    end.
Proof.
  revert req res. induction mws1 as [|m mws1 IH]; intros req res; simpl; [reflexivity|].
  destruct (mw_run m req res) as [[req' res'] s].
  destruct (awaited s) as [v| |]; try reflexivity. destruct v; try reflexivity. apply IH.
Qed.

Lemma run_errMiddlewares_no_listener ems v req res lid :
  ~ In (CallListener lid) (o_trace (run_errMiddlewares ems v req res)).
Proof.
  intros HIn. pose proof (run_errMiddlewares_cascade ems v req res) as H.
  apply cascade_only_err in H. rewrite Forall_forall in H.
  apply list_elem_of_In in HIn. exact (H _ HIn).
Qed.

Lemma run_middlewares_pass mws ems k req res :
  match pass mws req res with
  | Some (req1, res1) =>
      run_middlewares mws ems k req res = fold_right emit (k req1 res1) (map ok_call mws)
  | None =>
      forall lid, ~ In (CallListener lid) (o_trace (run_middlewares mws ems k req res))
  end.
Proof.
  revert req res. induction mws as [|m mws IH]; intros req res; simpl; [reflexivity|].
  specialize (IH (fst (fst (mw_run m req res))) (snd (fst (mw_run m req res)))).
  destruct (mw_run m req res) as [[req' res'] s]. simpl in IH.
  destruct (awaited s) as [v| |].
  - destruct v; simpl;
      try (intros lid [H|H]; [discriminate|exact (run_errMiddlewares_no_listener _ _ _ _ _ H)]).
    destruct (pass mws req' res') as [[req1 res1]|].
    + rewrite IH. reflexivity.
    + intros lid [H|H]; [discriminate|exact (IH lid H)].
  - simpl. intros lid [H|[]]. discriminate.
  - simpl. intros lid [H|[]]. discriminate.
Qed.

Lemma run_levels_pass levels k req res :
  match pass (flat_map fst levels) req res with
  | Some (req1, res1) =>
      run_levels levels k req res
        = fold_right emit (k req1 res1) (map ok_call (flat_map fst levels))
  | None =>
      forall lid, ~ In (CallListener lid) (o_trace (run_levels levels k req res))
  end.
Proof.
  revert req res. induction levels as [|[mws ems] rest IH]; intros req res;
    cbn [flat_map run_levels pass fst]; [reflexivity|].
  rewrite pass_app.
  pose proof (run_middlewares_pass mws ems (run_levels rest k) req res) as H.
  destruct (pass mws req res) as [[req1 res1]|]; [|exact H].
  rewrite H. specialize (IH req1 res1).
  destruct (pass (flat_map fst rest) req1 res1) as [[req2 res2]|].
  - rewrite IH, map_app, fold_right_app. reflexivity.
  - intros lid HIn. rewrite emits_trace in HIn. apply in_app_or in HIn.
    destruct HIn as [HIn|HIn]; [|exact (IH lid HIn)].
    apply in_map_iff in HIn. destruct HIn as (x & Hx & _). discriminate.
Qed.

(** ** What the dispatcher leaves to user code *)

Lemma run_errMiddlewares_holds P ems v req res :
  Forall (holds_em P) ems -> P req res ->
  P (o_req (run_errMiddlewares ems v req res)) (o_res (run_errMiddlewares ems v req res)).
Proof.
  intros Hems. revert v req res.
  induction Hems as [|em rest Hem _ IH]; intros v req res HP; simpl; [exact HP|].
  specialize (Hem v req res HP).
  destruct (em_run em v req res) as [[req' res'] s]. simpl in *.
  destruct (awaited s) as [v'| |]; simpl; auto.
  destruct (is_undefined v'); simpl; auto.
Qed.

Lemma run_middlewares_holds P mws ems k :
  Forall (holds_mw P) mws -> Forall (holds_em P) ems ->
  (forall req res, P req res -> P (o_req (k req res)) (o_res (k req res))) ->
  forall req res, P req res ->
    P (o_req (run_middlewares mws ems k req res)) (o_res (run_middlewares mws ems k req res)).
Proof.
  intros Hmws Hems Hk.
  induction Hmws as [|m rest Hm _ IH]; intros req res HP; simpl; [auto|].
  specialize (Hm req res HP).
  destruct (mw_run m req res) as [[req' res'] s]. simpl in *.
  destruct (awaited s) as [v| |]; simpl; auto.
  destruct (is_undefined v); simpl; [apply IH; exact Hm|].
  apply run_errMiddlewares_holds; assumption.
Qed.

Lemma call_listener_holds P l req res :
  holds_listener P l -> P req res ->
  P (o_req (call_listener l req res)) (o_res (call_listener l req res)).
Proof.
  intros Hl HP. specialize (Hl req res HP). unfold call_listener.
  destruct (l_run l req res) as [[req' res'] [e|]]; simpl in *; exact Hl.
Qed.

Lemma run_levels_holds P levels l :
  Forall (fun T => Forall (holds_mw P) (fst T) /\ Forall (holds_em P) (snd T)) levels ->
  holds_listener P l ->
  forall req res, P req res ->
    P (o_req (run_levels levels (call_listener l) req res))
      (o_res (run_levels levels (call_listener l) req res)).
Proof.
  intros Hlv Hl. induction Hlv as [|[mws ems] rest [Hm He] _ IH]; intros req res HP; simpl.
  - apply call_listener_holds; assumption.
  - apply run_middlewares_holds; auto.
Qed.

(** ** Keys of the registry *)

Lemma escape_source_plain c rest :
  RegExp.plain c = true ->
  RegExp.escape_source false (c :: rest) = plain_source c ++ RegExp.escape_source false rest.
Proof.
  intros Hc. unfold plain_source.
  destruct c as [[] [] [] [] [] [] [] []]; try discriminate Hc; reflexivity.
Qed.

Lemma escape_source_literal cs rest :
  forallb RegExp.plain cs = true ->
  RegExp.escape_source false (cs ++ rest)
    = flat_map plain_source cs ++ RegExp.escape_source false rest.
Proof.
  induction cs as [|c cs IH]; intros H; [reflexivity|].
  simpl in H. apply andb_true_iff in H. destruct H as [Hc Hcs].
  cbn [app flat_map]. rewrite escape_source_plain by exact Hc. rewrite IH by exact Hcs.
  rewrite app_assoc. reflexivity.
Qed.

Lemma code_is c n : (RegExp.code c =? n)%N = true -> c = ascii_of_N n.
Proof.
  intros H. apply N.eqb_eq in H. subst n. unfold RegExp.code.
  symmetry. apply ascii_N_embedding.
Qed.

Lemma plain_source_inj c1 c2 r1 r2 :
  RegExp.plain c1 = true -> RegExp.plain c2 = true ->
  plain_source c1 ++ r1 = plain_source c2 ++ r2 -> c1 = c2 /\ r1 = r2.
Proof.
  intros H1 H2. unfold plain_source.
  destruct (RegExp.code c1 =? 10)%N eqn:A1; [apply code_is in A1|];
  [|destruct (RegExp.code c1 =? 13)%N eqn:B1; [apply code_is in B1|]];
  [| |destruct (Ascii.eqb c1 "/") eqn:C1; [apply Ascii.eqb_eq in C1|]];
  (destruct (RegExp.code c2 =? 10)%N eqn:A2; [apply code_is in A2|];
   [|destruct (RegExp.code c2 =? 13)%N eqn:B2; [apply code_is in B2|]];
   [| |destruct (Ascii.eqb c2 "/") eqn:C2; [apply Ascii.eqb_eq in C2|]]);
  cbn [app]; intros E; inversion E; subst; try discriminate; auto.
Qed.

Lemma plain_source_cons c : exists x r, plain_source c = x :: r.
Proof.
  unfold plain_source. destruct (_ =? 10)%N; [eauto|]. destruct (_ =? 13)%N; [eauto|].
  destruct (Ascii.eqb c "/"); eauto.
Qed.

Lemma flat_plain_source_inj cs1 cs2 :
  forallb RegExp.plain cs1 = true -> forallb RegExp.plain cs2 = true ->
  flat_map plain_source cs1 = flat_map plain_source cs2 -> cs1 = cs2.
Proof.
  revert cs2. induction cs1 as [|c1 cs1 IH]; intros [|c2 cs2] H1 H2 E.
  - reflexivity.
  - simpl in E. destruct (plain_source_cons c2) as (x & r & Hx). rewrite Hx in E. discriminate.
  - simpl in E. destruct (plain_source_cons c1) as (x & r & Hx). rewrite Hx in E. discriminate.
  - simpl in H1, H2. apply andb_true_iff in H1, H2.
    destruct H1 as [Hc1 H1], H2 as [Hc2 H2]. cbn [flat_map] in E.
    destruct (plain_source_inj _ _ _ _ Hc1 Hc2 E) as [-> E']. f_equal. exact (IH _ H1 H2 E').
Qed.

Lemma list_ascii_of_string_inj s1 s2 :
  list_ascii_of_string s1 = list_ascii_of_string s2 -> s1 = s2.
Proof.
  intros H. rewrite <- (string_of_list_ascii_of_string s1), H.
  apply string_of_list_ascii_of_string.
Qed.

Lemma source_of_literal path :
  RegExp.literal path = true ->
  list_ascii_of_string (RegExp.source_of ("^" ++ path ++ "\/?$|\?"))
    = "^" :: flat_map plain_source (list_ascii_of_string path) ++ RegExp.tail_text.
Proof.
  intros H. unfold RegExp.literal in H. cbn [append RegExp.source_of].
  rewrite list_ascii_of_string_of_list_ascii. cbn [list_ascii_of_string].
  rewrite RegExpFacts.list_ascii_of_string_app.
  change (RegExp.escape_source false ("^" :: ?l)) with ("^" :: RegExp.escape_source false l).
  rewrite escape_source_literal by exact H. reflexivity.
Qed.

Lemma to_regexp_source path re :
  to_regexp (PString path) = Ok re ->
  RegExp.source re = RegExp.source_of ("^" ++ path ++ "\/?$|\?").
Proof.
  unfold to_regexp, RegExp.new, bind. destruct (RegExp.compile _); [|discriminate].
  intros H. inversion H. reflexivity.
Qed.

Lemma key_split m1 m2 s1 s2 :
  ~ In "|" (list_ascii_of_string m1) -> ~ In "|" (list_ascii_of_string m2) ->
  (m1 ++ "|" ++ s1 = m2 ++ "|" ++ s2)%string -> m1 = m2 /\ s1 = s2.
Proof.
  revert m2. induction m1 as [|c1 m1 IH]; intros [|c2 m2] H1 H2 E; simpl in *.
  - inversion E. auto.
  - inversion E; subst. tauto.
  - inversion E; subst. tauto.
  - inversion E; subst. destruct (IH m2) as [-> ->]; auto.
Qed.

(** ** Objects changed after they were handed out *)

Lemma rejects_transfer st st' req es :
  (forall x r, route_objs st !! x = Some r ->
     exists r', route_objs st' !! x = Some r' /\ route_matches r' req = route_matches r req) ->
  rejects st req es -> rejects st' req es.
Proof.
  intros Hro H. unfold rejects in *. eapply Forall_impl; [exact H|].
  intros [k x] (r & Hx & Hr). destruct (Hro _ _ Hx) as (r' & Hx' & Hr').
  exists r'. split; [exact Hx'|congruence].
Qed.

Lemma first_match_transfer st st' rs req ra router k a route router' route' :
  (forall x r, route_objs st !! x = Some r ->
     exists r', route_objs st' !! x = Some r' /\ route_matches r' req = route_matches r req) ->
  (forall x r, router_objs st !! x = Some r ->
     exists r', router_objs st' !! x = Some r' /\ Router.routes r' = Router.routes r) ->
  route_objs st' !! a = Some route' -> router_objs st' !! ra = Some router' ->
  first_match st rs req ra router k a route ->
  first_match st' rs req ra router' k a route'.
Proof.
  intros Hro Hrr Ha' Hra' (rs1 & rs2 & es1 & es2 & Hrs & Hrej1 & Hra & He & Hrej & Ha & Hm).
  unfold addr in *. exists rs1, rs2, es1, es2. split; [exact Hrs|]. split.
  { eapply Forall_impl; [exact Hrej1|]. intros rb (r & Hrb & Hr).
    destruct (Hrr _ _ Hrb) as (r' & Hrb' & Hsame). exists r'. split; [exact Hrb'|].
    rewrite Hsame. eapply rejects_transfer; eassumption. }
  split; [exact Hra'|]. split.
  { destruct (Hrr _ _ Hra) as (r' & Hr' & Hsame). rewrite Hra' in Hr'.
    inversion Hr'; subst. rewrite Hsame. exact He. }
  split; [eapply rejects_transfer; eassumption|]. split; [exact Ha'|].
  destruct (Hro _ _ Ha) as (r' & Hr' & Hsame). rewrite Ha' in Hr'.
  inversion Hr'; subst. rewrite Hsame. exact Hm.
Qed.

Lemma lookup_insert_cases {A : Type} (l : list A) (a x : nat) (v r : A) (f : A -> A) :
  l !! a = Some v -> l !! x = Some r ->
  <[a := f v]> l !! x = Some (if Nat.eq_dec x a then f r else r).
Proof.
  intros Ha Hx. destruct (Nat.eq_dec x a) as [->|Hne].
  - rewrite (lookup_insert_same _ _ _ _ Ha). congruence.
  - rewrite list_lookup_insert_ne by congruence. exact Hx.
Qed.

Lemma same_routes_refl st x r :
  router_objs st !! x = Some r ->
  exists r', router_objs st !! x = Some r' /\ Router.routes r' = Router.routes r.
Proof. intros H. exists r. auto. Qed.

Lemma same_matches_refl st req x r :
  route_objs st !! x = Some r ->
  exists r', route_objs st !! x = Some r' /\ route_matches r' req = route_matches r req.
Proof. intros H. exists r. auto. Qed.

Lemma first_match_route_update st rs req ra router k a route f :
  (forall r, Route.path (f r) = Route.path r /\ Route.method (f r) = Route.method r) ->
  first_match st rs req ra router k a route ->
  first_match {| route_objs := <[a := f route]> (route_objs st);
                 router_objs := router_objs st; app_objs := app_objs st |}
    rs req ra router k a (f route).
Proof.
  intros Hf H.
  assert (Ha : route_objs st !! a = Some route)
    by (destruct H as (? & ? & ? & ? & H); tauto).
  assert (Hra : router_objs st !! ra = Some router)
    by (destruct H as (? & ? & ? & ? & H); tauto).
  revert H. apply first_match_transfer; cbn [route_objs router_objs app_objs].
  - intros x r Hx. unfold addr in *. rewrite (lookup_insert_cases _ _ _ _ _ f Ha Hx).
    eexists. split; [reflexivity|]. destruct (Nat.eq_dec x a); [|reflexivity].
    unfold route_matches. destruct (Hf r) as [-> ->]. reflexivity.
  - apply same_routes_refl.
  - eapply lookup_insert_same. exact Ha.
  - exact Hra.
Qed.

Lemma first_match_router_update st rs req ra router k a route f :
  (forall r, Router.routes (f r) = Router.routes r) ->
  first_match st rs req ra router k a route ->
  first_match {| route_objs := route_objs st;
                 router_objs := <[ra := f router]> (router_objs st);
                 app_objs := app_objs st |}
    rs req ra (f router) k a route.
Proof.
  intros Hf H.
  assert (Ha : route_objs st !! a = Some route)
    by (destruct H as (? & ? & ? & ? & H); tauto).
  assert (Hra : router_objs st !! ra = Some router)
    by (destruct H as (? & ? & ? & ? & H); tauto).
  revert H. apply first_match_transfer; cbn [route_objs router_objs app_objs].
  - apply same_matches_refl.
  - intros x r Hx. unfold addr in *. rewrite (lookup_insert_cases _ _ _ _ _ f Hra Hx).
    eexists. split; [reflexivity|]. destruct (Nat.eq_dec x ra); [apply Hf|reflexivity].
  - exact Ha.
  - eapply lookup_insert_same. exact Hra.
Qed.

Lemma first_match_app_update st rs req ra router k a route apps :
  first_match st rs req ra router k a route ->
  first_match {| route_objs := route_objs st; router_objs := router_objs st;
                 app_objs := apps |}
    rs req ra router k a route.
Proof.
  intros H.
  assert (Ha : route_objs st !! a = Some route)
    by (destruct H as (? & ? & ? & ? & H); tauto).
  assert (Hra : router_objs st !! ra = Some router)
    by (destruct H as (? & ? & ? & ? & H); tauto).
  revert H. apply first_match_transfer; cbn [route_objs router_objs app_objs];
    [apply same_matches_refl|apply same_routes_refl|exact Ha|exact Hra].
Qed.

Lemma matched_first st this req app router route :
  matched st this req app router route <->
  app_objs st !! this = Some app /\
  exists ra k a, first_match st (Simpress._routers app) req ra router k a route.
Proof.
  unfold matched. rewrite match_in_routers_first. reflexivity.
Qed.

(** ** More on registration *)

Lemma attempt_AppUse st this m app :
  app_objs st !! this = Some app ->
  attempt st (AppUse this m) =
    {| route_objs := route_objs st; router_objs := router_objs st;
       app_objs := <[this := Simpress.with_use m app]> (app_objs st) |}.
Proof.
  intros H. unfold attempt. cbn [perform]. rewrite some_eq. unfold Simpress_use.
  rewrite use_eq, update_app_eq, H. reflexivity.
Qed.

Lemma attempt_RouterUse st this m r :
  router_objs st !! this = Some r ->
  attempt st (RouterUse this m) =
    {| route_objs := route_objs st;
       router_objs := <[this := Router.with_use m r]> (router_objs st);
       app_objs := app_objs st |}.
Proof.
  intros H. unfold attempt. cbn [perform]. rewrite some_eq. unfold Router_use.
  rewrite use_eq, update_router_eq, H. reflexivity.
Qed.

Lemma attempt_RouteUse st this m r :
  route_objs st !! this = Some r ->
  attempt st (RouteUse this m) =
    {| route_objs := <[this := Route.with_use m r]> (route_objs st);
       router_objs := router_objs st; app_objs := app_objs st |}.
Proof.
  intros H. unfold attempt. cbn [perform]. rewrite some_eq. unfold Route_use.
  rewrite use_eq, update_route_eq, H. reflexivity.
Qed.

Lemma after_AppUse ms : forall st this app,
  app_objs st !! this = Some app ->
  app_objs (after (map (AppUse this) ms) st) !! this =
    Some {| Simpress.middlewares := fold_left push_mw ms (Simpress.middlewares app);
            Simpress.errMiddlewares := Simpress.errMiddlewares app;
            Simpress._routers := Simpress._routers app |}.
Proof.
  induction ms as [|m ms IH]; intros st this app H; cbn [map after fold_left].
  - rewrite H. destruct app; reflexivity.
  - rewrite (attempt_AppUse _ _ _ _ H).
    fold (after (map (AppUse this) ms)).
    rewrite (IH _ this (Simpress.with_use m app)); [reflexivity|].
    eapply lookup_insert_same. exact H.
Qed.

Lemma after_RouterUse ms : forall st this r,
  router_objs st !! this = Some r ->
  router_objs (after (map (RouterUse this) ms) st) !! this =
    Some {| Router.routes := Router.routes r;
            Router.middlewares := fold_left push_mw ms (Router.middlewares r);
            Router.errMiddlewares := Router.errMiddlewares r |}.
Proof.
  induction ms as [|m ms IH]; intros st this r H; cbn [map after fold_left].
  - rewrite H. destruct r; reflexivity.
  - rewrite (attempt_RouterUse _ _ _ _ H).
    fold (after (map (RouterUse this) ms)).
    rewrite (IH _ this (Router.with_use m r)); [reflexivity|].
    eapply lookup_insert_same. exact H.
Qed.

Lemma after_RouteUse ms : forall st this r,
  route_objs st !! this = Some r ->
  route_objs (after (map (RouteUse this) ms) st) !! this =
    Some {| Route.path := Route.path r; Route.method := Route.method r;
            Route.listener := Route.listener r;
            Route.middlewares := fold_left push_mw ms (Route.middlewares r);
            Route.errMiddlewares := Route.errMiddlewares r |}.
Proof.
  induction ms as [|m ms IH]; intros st this r H; cbn [map after fold_left].
  - rewrite H. destruct r; reflexivity.
  - rewrite (attempt_RouteUse _ _ _ _ H).
    fold (after (map (RouteUse this) ms)).
    rewrite (IH _ this (Route.with_use m r)); [reflexivity|].
    eapply lookup_insert_same. exact H.
Qed.

(** X2. Chained calls [x.use(m1).use(m2)...] of functions that differ from
    one another and from those already registered leave them behind the
    registered ones in the order of the calls, on an application, a router
    and a route alike; nothing else of the object changes. *)
Theorem uses_keep_call_order st this ms :
  (forall app, app_objs st !! this = Some app ->
     distinct_mws (Simpress.middlewares app ++ ms) ->
     app_objs (after (map (AppUse this) ms) st) !! this =
       Some {| Simpress.middlewares := Simpress.middlewares app ++ ms;
               Simpress.errMiddlewares := Simpress.errMiddlewares app;
               Simpress._routers := Simpress._routers app |}) /\
  (forall r, router_objs st !! this = Some r ->
     distinct_mws (Router.middlewares r ++ ms) ->
     router_objs (after (map (RouterUse this) ms) st) !! this =
       Some {| Router.routes := Router.routes r;
               Router.middlewares := Router.middlewares r ++ ms;
               Router.errMiddlewares := Router.errMiddlewares r |}) /\
  (forall r, route_objs st !! this = Some r ->
     distinct_mws (Route.middlewares r ++ ms) ->
     route_objs (after (map (RouteUse this) ms) st) !! this =
       Some {| Route.path := Route.path r; Route.method := Route.method r;
               Route.listener := Route.listener r;
               Route.middlewares := Route.middlewares r ++ ms;
               Route.errMiddlewares := Route.errMiddlewares r |}).
Proof.
  split; [|split].
  - intros app H Hd. rewrite (after_AppUse ms _ _ _ H).
    rewrite (push_mw_in_order _ _ Hd). reflexivity.
  - intros r H Hd. rewrite (after_RouterUse ms _ _ _ H).
    rewrite (push_mw_in_order _ _ Hd). reflexivity.
  - intros r H Hd. rewrite (after_RouteUse ms _ _ _ H).
    rewrite (push_mw_in_order _ _ Hd). reflexivity.
Qed.

(** two more middlewares on the application of the example *)
Lemma uses_keep_call_order_witness :
  app_objs (after (map (AppUse Demo.app) [Demo.refuse; Demo.never_reached]) Demo.store)
    !! Demo.app =
    Some {| Simpress.middlewares :=
              [Demo.applyConsoleLogger; Demo.refuse; Demo.never_reached];
            Simpress.errMiddlewares := [];
            Simpress._routers := [0; 1] |}.
Proof.
  destruct (uses_keep_call_order Demo.store Demo.app [Demo.refuse; Demo.never_reached])
    as [H _].
  apply (H Demo.app_obj eq_refl). unfold distinct_mws. simpl.
  repeat constructor; simpl; intros HIn; apply list_elem_of_In in HIn; simpl in HIn;
    intuition discriminate.
Defined.

Lemma demo_built : built Demo.store.
Proof. exists demo_program. vm_compute. reflexivity. Qed.

(** X3. In a store that a program has built by calls of the interface, no
    list of middlewares or error middlewares holds a function twice, no
    application holds a router twice, the keys of a router's map differ from
    one another, an application has at least its own router, and every
    reference leads to an object. *)
Theorem built_store_is_well_formed st : built st -> wf st.
Proof. intros [cs ->]. apply wf_after. apply wf_empty. Qed.

Lemma built_store_is_well_formed_witness : wf Demo.store.
Proof. apply built_store_is_well_formed. exact demo_built. Defined.

Lemma not_found_status req res : o_status (not_found req res) <> Rejected (inr Unmodelled).
Proof.
  unfold not_found, writeHead. destruct (headersSent res); simpl; discriminate.
Qed.

Lemma match_in_routers_built st this app req :
  wf st -> app_objs st !! this = Some app ->
  exists found, match_in_routers st (Simpress._routers app) req = Ok found.
Proof.
  intros Hwf Happ. apply match_in_routers_total; [exact Hwf|].
  destruct (wf_lookup_app _ _ _ Hwf Happ) as (_ & _ & _ & _ & H). exact H.
Qed.

(** X4. In a store that a program has built, the listener of an application
    finds for every request either a route, first in the order of the search,
    or that no route accepts the request; it never stops for want of an
    object. *)
Theorem dispatch_finds_route_or_none st this app req res :
  built st -> app_objs st !! this = Some app ->
  ((exists router route, matched st this req app router route) \/
   no_route_matches st app req) /\
  o_status (toListener this st req res) <> Rejected (inr Unmodelled).
Proof.
  intros [cs ->] Happ.
  assert (Hwf : wf (after cs empty_store)) by (apply wf_after, wf_empty).
  destruct (match_in_routers_built _ _ _ req Hwf Happ) as [[[router route]|] Hm].
  - assert (matched (after cs empty_store) this req app router route) as H
      by (split; assumption).
    split; [left; exists router, route; exact H|].
    eapply pipeline_status. apply toListener_pipeline. exact H.
  - split; [right; apply match_in_routers_none_inv; exact Hm|].
    unfold toListener. rewrite Happ. cbn [the bind]. rewrite Hm. cbn [bind].
    apply not_found_status.
Qed.

Lemma dispatch_finds_route_or_none_witness :
  (exists router route,
     matched Demo.store Demo.app (Demo.request "/echo" "POST" JNull) Demo.app_obj
       router route) \/
  no_route_matches Demo.store Demo.app_obj (Demo.request "/echo" "POST" JNull).
Proof.
  exact (proj1 (dispatch_finds_route_or_none Demo.store Demo.app Demo.app_obj
                  (Demo.request "/echo" "POST" JNull) fresh_response demo_built eq_refl)).
Defined.

Lemma find_in_routers_total st routers k :
  Forall (fun r => r < length (router_objs st)) routers ->
  exists v, find_in_routers routers k st = Ok (v, st).
Proof.
  induction 1 as [|a rest Ha _ IH]; cbn [find_in_routers]; [eexists; reflexivity|].
  destruct (lookup_lt_is_Some_2 _ _ Ha) as [r E].
  unfold bindM, get_router, lift, the. unfold addr in *. rewrite E. cbn beta iota.
  destruct (JsMap.get _ k); [eexists; reflexivity|exact IH].
Qed.

(** X5. In a store that a program has built, [route] and [findRoute] of an
    application fail only when the pattern of the path is refused: [route]
    then returns a new [Route] object, and [findRoute] answers and changes
    nothing. *)
Theorem route_fails_only_on_the_pattern st this app path verb listener :
  built st -> app_objs st !! this = Some app ->
  match to_regexp path with
  | Ok re =>
      (exists st', Simpress_route this path verb listener st
                     = Ok (length (route_objs st), st') /\
                   route_objs st' !! length (route_objs st)
                     = Some (Route.new re verb listener)) /\
      (exists v, Simpress_findRoute this path verb st = Ok (v, st))
  | Err e =>
      Simpress_route this path verb listener st = Err e /\
      Simpress_findRoute this path verb st = Err e
  end.
Proof.
  intros [cs ->] Happ.
  assert (Hwf : wf (after cs empty_store)) by (apply wf_after, wf_empty).
  rewrite Simpress_route_eq, Simpress_findRoute_eq.
  destruct (to_regexp path) as [re|e]; [|split; reflexivity].
  rewrite Happ. destruct (wf_lookup_app _ _ _ Hwf Happ) as (_ & _ & _ & Hne & Hb).
  split.
  - destruct (Simpress._routers app) as [|r0 rest]; [contradiction|].
    inversion Hb as [|? ? Hr0 _]; subst.
    destruct (lookup_lt_is_Some_2 _ _ Hr0) as [r E]. unfold addr in *. rewrite E.
    eexists. split; [reflexivity|]. cbn [route_objs]. apply lookup_snoc.
  - apply find_in_routers_total. exact Hb.
Qed.

Lemma route_fails_only_on_the_pattern_witness :
  (exists st', Simpress_route Demo.app (PString "/about") "GET" Demo.root Demo.store
                 = Ok (4, st') /\
     exists re, route_objs st' !! 4 = Some (Route.new re "GET" Demo.root)) /\
  Simpress_route Demo.app (PString "/a(b") "GET" Demo.root Demo.store = Err SyntaxError.
Proof.
  split.
  - pose proof (route_fails_only_on_the_pattern Demo.store Demo.app Demo.app_obj
                  (PString "/about") "GET" Demo.root demo_built eq_refl) as H.
    destruct (to_regexp (PString "/about")) as [re|e] eqn:E; [|vm_compute in E; discriminate E].
    destruct H as [(st' & H1 & H2) _]. exists st'. split; [exact H1|].
    exists re. exact H2.
  - pose proof (route_fails_only_on_the_pattern Demo.store Demo.app Demo.app_obj
                  (PString "/a(b") "GET" Demo.root demo_built eq_refl) as H.
    destruct (to_regexp (PString "/a(b")) as [re|e] eqn:E; vm_compute in E; [discriminate E|].
    inversion E; subst. exact (proj1 H).
Defined.

(** X6. Whatever calls a program goes on to make, an object stays where it
    is, a route keeps its path, method and listener, and the lists of
    middlewares, of error middlewares and of routers and the keys of a
    router's map are only added to at their end: nothing registered is
    removed or moved. *)
Theorem registration_only_appends cs st : store_grows st (after cs st).
Proof. apply after_grows. Qed.

(** ** More on [findRoute] *)

Lemma find_in_routers_first st routers key :
  Forall (fun rb => exists r, router_objs st !! rb = Some r) routers ->
  exists v, find_in_routers routers key st = Ok (v, st) /\
    match v with
    | Some a =>
        exists rs1 ra rs2 r,
          routers = rs1 ++ ra :: rs2 /\
          Forall (fun rb => exists r', router_objs st !! rb = Some r' /\
                              JsMap.get (Router.routes r') key = None) rs1 /\
          router_objs st !! ra = Some r /\ JsMap.get (Router.routes r) key = Some a
    | None =>
        Forall (fun rb => exists r', router_objs st !! rb = Some r' /\
                            JsMap.get (Router.routes r') key = None) routers
    end.
Proof.
  induction 1 as [|rb rest (r & Hrb) _ IH]; cbn [find_in_routers].
  - exists None. split; [reflexivity|constructor].
  - unfold bindM, get_router, lift, the. rewrite Hrb. cbn beta iota.
    destruct (JsMap.get _ key) as [a|] eqn:Hk.
    + exists (Some a). split; [reflexivity|]. exists [], rb, rest, r.
      repeat split; [constructor|exact Hrb|exact Hk].
    + destruct IH as (v & Hv & Hshape). exists v. split; [exact Hv|].
      assert (exists r', router_objs st !! rb = Some r' /\
                         JsMap.get (Router.routes r') key = None) as Hhere
        by (exists r; split; assumption).
      destruct v as [a|].
      * destruct Hshape as (rs1 & ra & rs2 & r1 & -> & Hrs1 & Hra & Ha).
        exists (rb :: rs1), ra, rs2, r1. repeat split; try assumption.
        constructor; assumption.
      * constructor; assumption.
Qed.

(** X7. [findRoute] of an application answers with the route that the first
    of its routers holding the key has under it, whatever later routers hold
    under the same key, and with null when no router holds the key; it
    changes nothing. *)
Theorem findRoute_asks_routers_in_order st this app path verb re :
  app_objs st !! this = Some app ->
  to_regexp path = Ok re ->
  Forall (fun rb => exists r, router_objs st !! rb = Some r) (Simpress._routers app) ->
  exists v,
    Simpress_findRoute this path verb st = Ok (v, st) /\
    match v with
    | Some a =>
        exists rs1 ra rs2 r,
          Simpress._routers app = rs1 ++ ra :: rs2 /\
          Forall (fun rb => exists r', router_objs st !! rb = Some r' /\
                      JsMap.get (Router.routes r') (route_key verb re) = None) rs1 /\
          router_objs st !! ra = Some r /\
          JsMap.get (Router.routes r) (route_key verb re) = Some a
    | None =>
        Forall (fun rb => exists r', router_objs st !! rb = Some r' /\
                    JsMap.get (Router.routes r') (route_key verb re) = None)
          (Simpress._routers app)
    end.
Proof.
  intros Happ Hre Hall. rewrite Simpress_findRoute_eq, Hre, Happ.
  apply find_in_routers_first. exact Hall.
Qed.

(** the route of /users is asked for at the application: its own router
    does not hold it, the attached router does *)
Lemma findRoute_asks_routers_in_order_witness :
  exists re,
    to_regexp (PString "/users") = Ok re /\
    Simpress_findRoute Demo.app (PString "/users") "GET" Demo.store
      = Ok (Some 2, Demo.store).
Proof.
  destruct (to_regexp (PString "/users")) as [re|e] eqn:Hre;
    [|vm_compute in Hre; discriminate Hre].
  exists re. split; [reflexivity|].
  destruct (findRoute_asks_routers_in_order Demo.store Demo.app Demo.app_obj
              (PString "/users") "GET" re eq_refl Hre) as (v & Hv & _).
  { repeat constructor; eexists; reflexivity. }
  rewrite Hv. f_equal. f_equal.
  assert (Simpress_findRoute Demo.app (PString "/users") "GET" Demo.store
            = Ok (Some 2, Demo.store)) as H by (vm_compute; reflexivity).
  rewrite Hv in H. inversion H. reflexivity.
Defined.

(** ** More on the search for a route *)

(** X8. A request reaches a route exactly when that route is the first to
    accept it in the order of the search: the routers of the application in
    the order of their attachment, its own router first, and in each router
    the routes in the order of the keys of its map; every route before it
    rejects the request.  A route accepts a request when its pattern tests
    true on the URL and its method is the method of the request, letter for
    letter. *)
Theorem dispatch_takes_first_match st this req app router route :
  (matched st this req app router route <->
   app_objs st !! this = Some app /\
   exists ra k a, first_match st (Simpress._routers app) req ra router k a route) /\
  (route_matches route req = true <->
   RegExp.test (Route.path route) (url req) = true /\ method req = Route.method route).
Proof. split; [apply matched_first|apply route_matches_spec]. Qed.

(** X9. A route registered from a path string takes every request that has a
    question mark in its URL and the route's method, as soon as no route
    before it in the order of the search is for that method: the path of the
    URL plays no part. *)
Theorem query_request_goes_to_first_route_of_method
    st this app req rs1 ra rs2 router es1 k a es2 route path :
  app_objs st !! this = Some app ->
  Simpress._routers app = rs1 ++ ra :: rs2 ->
  Forall (fun rb => exists r, router_objs st !! rb = Some r /\
                              other_method st req (Router.routes r)) rs1 ->
  router_objs st !! ra = Some router ->
  Router.routes router = es1 ++ (k, a) :: es2 ->
  other_method st req es1 ->
  route_objs st !! a = Some route ->
  to_regexp (PString path) = Ok (Route.path route) ->
  Route.method route = method req ->
  In "?" (list_ascii_of_string (url req)) ->
  matched st this req app router route.
Proof.
  intros Happ Hrs Hrs1 Hra Hes Hes1 Ha Hre Hm Hq.
  assert (Hother : forall es, other_method st req es -> rejects st req es).
  { intros es H. unfold other_method, rejects in *. eapply Forall_impl; [exact H|].
    intros e (r & Hr & Hne). exists r. split; [exact Hr|].
    unfold route_matches. apply andb_false_iff. right. apply String.eqb_neq. congruence. }
  apply matched_first. split; [exact Happ|]. exists ra, k, a, rs1, rs2, es1, es2.
  split; [exact Hrs|]. split.
  { eapply Forall_impl; [exact Hrs1|]. intros rb (r & Hr & Ho). exists r. auto. }
  split; [exact Hra|]. split; [exact Hes|]. split; [apply Hother; exact Hes1|].
  split; [exact Ha|]. apply route_matches_spec. split; [|congruence].
  unfold RegExp.test. apply RegExpFacts.matches_query; [|exact Hq].
  apply (RegExpFacts.compile_tail ("^" ++ path)). apply to_regexp_string. exact Hre.
Qed.

(** a request for the users with a query string ends at the route of "/",
    the first route for GET *)
Lemma query_request_goes_to_first_route_of_method_witness :
  let req := Demo.request "/users?page=2" "GET" JUndefined in
  matched Demo.store Demo.app req Demo.app_obj Demo.default_router
    (snd (Demo.reached (Demo.request "/" "GET" JUndefined))) /\
  Route.listener (snd (Demo.reached (Demo.request "/" "GET" JUndefined))) = Demo.root.
Proof.
  intros req. split; [|reflexivity].
  assert (Hq : In "?" (list_ascii_of_string (url req)))
    by (simpl; do 6 right; left; reflexivity).
  exact (query_request_goes_to_first_route_of_method Demo.store Demo.app Demo.app_obj req
           [] 0 [1] Demo.default_router [] "GET|^\/\/?$|\?" 0
           [("POST|^\/echo\/?$|\?"%string, 1)] _ "/"
           eq_refl eq_refl (List.Forall_nil _) eq_refl eq_refl (List.Forall_nil _) eq_refl
           eq_refl eq_refl Hq).
Defined.

(** ** Calls that do not go on *)

(** X10. A middleware or an error middleware that throws, or that never calls
    its continuation, is the last thing the listener calls for the request:
    when it throws, the promise of the listener is rejected with what was
    thrown; when it never continues, the promise stays pending. *)
Theorem call_that_does_not_continue_is_last st this req res app router route :
  matched st this req app router route ->
  forall pre e post s,
    o_trace (toListener this st req res) = pre ++ e :: post ->
    signal_of e = Some s ->
    match s with
    | Next _ => True
    | Throws x => post = [] /\ o_status (toListener this st req res) = Rejected (inl x)
    | NoNext => post = [] /\ o_status (toListener this st req res) = Pending
    end.
Proof.
  intros Hm pre e post s Htr He.
  pose proof (toListener_pipeline st this req res app router route Hm) as Hp.
  rewrite Htr in Hp. exact (pipeline_halt _ _ _ _ _ _ _ Hp He).
Qed.

(** X11. The promise of the listener stays pending only when the last call
    that the listener made, of a middleware or of an error middleware, never
    called its continuation. *)
Theorem pending_only_after_silent_call st this req res app router route :
  matched st this req app router route ->
  (o_status (toListener this st req res) = Pending <->
   exists pre e, o_trace (toListener this st req res) = pre ++ [e] /\
                 signal_of e = Some NoNext).
Proof.
  intros Hm. pose proof (toListener_pipeline st this req res app router route Hm) as Hp.
  split.
  - intros Hs. rewrite Hs in Hp. exact (pipeline_pending _ _ _ Hp).
  - intros (pre & e & Htr & He). rewrite Htr in Hp.
    exact (proj2 (pipeline_halt _ _ _ _ _ _ _ Hp He)).
Qed.

Lemma reached_matched st this req :
  app_objs st !! this = Some (app_of st this) ->
  match_in_routers st (Simpress._routers (app_of st this)) req
    = Ok (Some (reached_in st this req)) ->
  matched st this req (app_of st this) (fst (reached_in st this req))
    (snd (reached_in st this req)).
Proof.
  intros Happ H. split; [exact Happ|]. rewrite H. destruct (reached_in st this req).
  reflexivity.
Defined.

(** GET /users on the route whose middleware throws *)
Lemma call_that_does_not_continue_is_last_witness :
  let req := Demo.request "/users" "GET" JUndefined in
  let o := toListener Demo.app demo_store_halting req fresh_response in
  matched demo_store_halting Demo.app req (app_of demo_store_halting Demo.app)
    (fst (reached_in demo_store_halting Demo.app req))
    (snd (reached_in demo_store_halting Demo.app req)) /\
  o_trace o = [ok_call Demo.applyConsoleLogger; ok_call Demo.applyQueryParamsParser]
                ++ CallMiddleware 9 (Throws (JStr "boom")) :: [] /\
  o_status o = Rejected (inl (JStr "boom")).
Proof.
  intros req o.
  assert (H : matched demo_store_halting Demo.app req (app_of demo_store_halting Demo.app)
                (fst (reached_in demo_store_halting Demo.app req))
                (snd (reached_in demo_store_halting Demo.app req)))
    by (apply reached_matched; vm_compute; reflexivity).
  assert (Htr : o_trace o
    = [ok_call Demo.applyConsoleLogger; ok_call Demo.applyQueryParamsParser]
        ++ CallMiddleware 9 (Throws (JStr "boom")) :: []) by (vm_compute; reflexivity).
  split; [exact H|]. split; [exact Htr|].
  exact (proj2 (call_that_does_not_continue_is_last _ _ _ fresh_response _ _ _ H
                  _ _ _ _ Htr eq_refl)).
Defined.

(** GET / on the route whose error middleware answers and stays *)
Lemma pending_only_after_silent_call_witness :
  let req := Demo.request "/" "GET" JUndefined in
  let o := toListener Demo.app demo_store_halting req fresh_response in
  matched demo_store_halting Demo.app req (app_of demo_store_halting Demo.app)
    (fst (reached_in demo_store_halting Demo.app req))
    (snd (reached_in demo_store_halting Demo.app req)) /\
  o_trace o = [ok_call Demo.applyConsoleLogger; CallMiddleware 7 (Next ErrNoQueryParams)]
                ++ [CallErrMiddleware 8 ErrNoQueryParams NoNext] /\
  o_status o = Pending.
Proof.
  intros req o.
  assert (H : matched demo_store_halting Demo.app req (app_of demo_store_halting Demo.app)
                (fst (reached_in demo_store_halting Demo.app req))
                (snd (reached_in demo_store_halting Demo.app req)))
    by (apply reached_matched; vm_compute; reflexivity).
  assert (Htr : o_trace o
    = [ok_call Demo.applyConsoleLogger; CallMiddleware 7 (Next ErrNoQueryParams)]
        ++ [CallErrMiddleware 8 ErrNoQueryParams NoNext]) by (vm_compute; reflexivity).
  split; [exact H|]. split; [exact Htr|].
  apply (pending_only_after_silent_call _ _ _ fresh_response _ _ _ H).
  eexists _, _. split; [exact Htr|reflexivity].
Defined.

(** ** What reaches the route's listener *)

(** X12. The listener of the route is called exactly when every middleware
    of the application, of the router and of the route, run in this order on
    the request and the response as its predecessor left them, has gone on
    without an error; the first of them sees the request with [pathRegex]
    set to the pattern of the route.  The listener is then handed what the
    last middleware left, the request and the response end as the listener
    leaves them, and the promise is fulfilled unless the listener throws. *)
Theorem listener_gets_what_middlewares_left st this req res app router route :
  matched st this req app router route ->
  let all := Simpress.middlewares app ++ Router.middlewares router
               ++ Route.middlewares route in
  let o := toListener this st req res in
  match pass all (set_pathRegex (Route.path route) req) res with
  | Some (req1, res1) =>
      let '(req2, res2, thrown) := l_run (Route.listener route) req1 res1 in
      o_trace o = map ok_call all ++ [CallListener (l_id (Route.listener route))] /\
      o_req o = req2 /\ o_res o = res2 /\
      o_status o = match thrown with
                   | None => Fulfilled
                   | Some e => Rejected (inl e)
                   end
  | None => forall lid, ~ In (CallListener lid) (o_trace o)
  end.
Proof.
  intros Hm all o. unfold o. rewrite (toListener_matched _ _ _ _ _ _ _ Hm).
  pose proof (run_levels_pass [as_tier app; as_tier router; as_tier route]
                (call_listener (Route.listener route))
                (set_pathRegex (Route.path route) req) res) as H.
  assert (Hall : flat_map fst [as_tier app; as_tier router; as_tier route] = all)
    by (unfold all; simpl; rewrite app_nil_r; reflexivity).
  rewrite Hall in H.
  destruct (pass all (set_pathRegex (Route.path route) req) res) as [[req1 res1]|];
    [|exact H].
  rewrite H, emits_trace, emits_req, emits_res, emits_status. unfold call_listener.
  destruct (l_run (Route.listener route) req1 res1) as [[req2 res2] [e|]]; simpl; auto.
Qed.

(** POST /echo with an object as body *)
Lemma listener_gets_what_middlewares_left_witness :
  let req := Demo.request "/echo" "POST" (JObj 7) in
  let o := toListener Demo.app Demo.store req fresh_response in
  matched Demo.store Demo.app req Demo.app_obj (fst (Demo.reached req))
    (snd (Demo.reached req)) /\
  o_trace o = [ok_call Demo.applyConsoleLogger; ok_call Demo.applyJsonBodyValidator;
               CallListener 11] /\
  pathRegex (o_req o) = Some (Route.path (snd (Demo.reached req))) /\
  o_status o = Fulfilled.
Proof.
  intros req o.
  assert (H : matched Demo.store Demo.app req Demo.app_obj (fst (Demo.reached req))
                (snd (Demo.reached req))) by (apply demo_matched; reflexivity).
  split; [exact H|].
  pose proof (listener_gets_what_middlewares_left _ _ _ fresh_response _ _ _ H) as Hl.
  cbv zeta in Hl.
  destruct (pass _ _ _) as [[req1 res1]|] eqn:Hp in Hl; [|vm_compute in Hp; discriminate Hp].
  vm_compute in Hp. inversion Hp; subst req1 res1. clear Hp.
  destruct Hl as (H1 & H2 & _ & H4). fold o in H1, H2, H4.
  split; [exact H1|]. split; [rewrite H2; reflexivity|exact H4].
Defined.

(** ** What the dispatcher leaves to user code *)

(** X13. On a request that reaches a route the dispatcher does nothing to the
    request but set [pathRegex], and nothing to the response: whatever holds
    of the two once [pathRegex] is set, and is maintained by the middlewares
    and error middlewares of the three levels and by the listener of the
    route, holds of them in the end, however the pipeline ends. *)
Theorem dispatch_leaves_the_rest_to_user_code (P : Request -> Response -> Prop)
    st this req res app router route :
  matched st this req app router route ->
  Forall (fun T => Forall (holds_mw P) (fst T) /\ Forall (holds_em P) (snd T))
    [as_tier app; as_tier router; as_tier route] ->
  holds_listener P (Route.listener route) ->
  P (set_pathRegex (Route.path route) req) res ->
  P (o_req (toListener this st req res)) (o_res (toListener this st req res)).
Proof.
  intros Hm Hlv Hl HP. rewrite (toListener_matched _ _ _ _ _ _ _ Hm).
  apply run_levels_holds; assumption.
Qed.

(** no function of the example changes the URL or the method of a request *)
Lemma dispatch_leaves_the_rest_to_user_code_witness :
  let req := Demo.request "/echo" "POST" JNull in
  let o := toListener Demo.app Demo.store req fresh_response in
  matched Demo.store Demo.app req Demo.app_obj (fst (Demo.reached req))
    (snd (Demo.reached req)) /\
  url (o_req o) = "/echo"%string /\ method (o_req o) = "POST"%string.
Proof.
  intros req o.
  assert (H : matched Demo.store Demo.app req Demo.app_obj (fst (Demo.reached req))
                (snd (Demo.reached req))) by (apply demo_matched; reflexivity).
  split; [exact H|].
  apply (dispatch_leaves_the_rest_to_user_code
           (fun rq _ => url rq = "/echo"%string /\ method rq = "POST"%string)
           _ _ _ fresh_response _ _ _ H).
  - repeat (first [apply List.Forall_cons | apply List.Forall_nil | split]);
      try (simpl; tauto);
      match goal with err : jsval |- _ => destruct err as [| | | | |[|n]| | |]; simpl; tauto end.
  - intros r1 r2 HP. exact HP.
  - split; reflexivity.
Defined.

(** ** More on the keys of the registry *)

(** X14. Routes registered from path strings without pattern characters, for
    methods without a bar, have the same key only when they have the same
    method and the same path: no such route takes the place of another in a
    router's map. *)
Theorem literal_paths_have_their_own_key verb1 verb2 p1 p2 re1 re2 :
  RegExp.literal p1 = true -> RegExp.literal p2 = true ->
  ~ In "|" (list_ascii_of_string verb1) -> ~ In "|" (list_ascii_of_string verb2) ->
  to_regexp (PString p1) = Ok re1 -> to_regexp (PString p2) = Ok re2 ->
  (route_key verb1 re1 = route_key verb2 re2 <-> verb1 = verb2 /\ p1 = p2).
Proof.
  intros L1 L2 V1 V2 R1 R2. split.
  - unfold route_key. intros E. destruct (key_split _ _ _ _ V1 V2 E) as [-> Hs].
    split; [reflexivity|].
    rewrite (to_regexp_source _ _ R1), (to_regexp_source _ _ R2) in Hs.
    apply (f_equal list_ascii_of_string) in Hs.
    rewrite !source_of_literal in Hs by assumption.
    inversion Hs as [Hs']. apply app_inv_tail in Hs'.
    apply list_ascii_of_string_inj. apply flat_plain_source_inj; assumption.
  - intros [-> ->]. rewrite R1 in R2. inversion R2. reflexivity.
Qed.

Lemma literal_paths_have_their_own_key_witness :
  exists re1 re2,
    to_regexp (PString "/users") = Ok re1 /\ to_regexp (PString "/strict") = Ok re2 /\
    route_key "GET" re1 <> route_key "GET" re2.
Proof.
  destruct (to_regexp (PString "/users")) as [re1|e] eqn:H1;
    [|vm_compute in H1; discriminate H1].
  destruct (to_regexp (PString "/strict")) as [re2|e] eqn:H2;
    [|vm_compute in H2; discriminate H2].
  exists re1, re2. split; [reflexivity|]. split; [reflexivity|].
  intros E.
  assert (Hbar : ~ In "|" (list_ascii_of_string "GET"))
    by (simpl; intros [H|[H|[H|[]]]]; discriminate H).
  apply (literal_paths_have_their_own_key "GET" "GET" "/users" "/strict" re1 re2
           eq_refl eq_refl Hbar Hbar H1 H2) in E.
  destruct E as [_ E]. discriminate E.
Defined.

(** ** Applications without a route *)

Lemma no_routes_attempt st c :
  adds_route c = false ->
  Forall (fun r => Router.routes r = []) (router_objs st) ->
  Forall (fun r => Router.routes r = []) (router_objs (attempt st c)).
Proof.
  intros Hc H. unfold attempt. destruct c; try discriminate Hc; cbn [perform];
    rewrite ?some_eq.
  - unfold Simpress_new, bindM, Router_new, alloc_router, alloc_app. simpl.
    apply Forall_app. split; [exact H|]. repeat constructor.
  - unfold Router_new, alloc_router. simpl.
    apply Forall_app. split; [exact H|]. repeat constructor.
  - unfold Simpress_use. rewrite use_eq, update_app_eq.
    destruct (app_objs st !! this); exact H.
  - unfold Simpress_useForError. rewrite use_eq, update_app_eq.
    destruct (app_objs st !! this); exact H.
  - unfold bindM at 1, get_router, lift, the.
    destruct (router_objs st !! router); [|exact H].
    rewrite some_eq. unfold Simpress_useRouter. rewrite use_eq, update_app_eq.
    destruct (app_objs st !! this); exact H.
  - destruct (Simpress_findRoute this path verb st) as [[v st']|] eqn:E; [|exact H].
    rewrite (looks_up_same (AppFindRoute this path verb) st v st' eq_refl E). exact H.
  - unfold Router_use. rewrite use_eq, update_router_eq.
    destruct (router_objs st !! this) as [r|] eqn:E; [|exact H]. simpl.
    apply Forall_insert; [exact H|]. simpl. eapply Forall_lookup_1 in H; [|exact E]. exact H.
  - unfold Router_useForError. rewrite use_eq, update_router_eq.
    destruct (router_objs st !! this) as [r|] eqn:E; [|exact H]. simpl.
    apply Forall_insert; [exact H|]. simpl. eapply Forall_lookup_1 in H; [|exact E]. exact H.
  - destruct (Router_findRoute this path verb st) as [[v st']|] eqn:E; [|exact H].
    rewrite (looks_up_same (RouterFindRoute this path verb) st v st' eq_refl E). exact H.
  - unfold Route_use. rewrite use_eq, update_route_eq.
    destruct (route_objs st !! this); exact H.
  - unfold Route_useForError. rewrite use_eq, update_route_eq.
    destruct (route_objs st !! this); exact H.
Qed.

Lemma no_routes_after cs st :
  Forall (fun c => adds_route c = false) cs ->
  Forall (fun r => Router.routes r = []) (router_objs st) ->
  Forall (fun r => Router.routes r = []) (router_objs (after cs st)).
Proof.
  intros Hcs. revert st. induction Hcs as [|c cs Hc _ IH]; intros st H; [exact H|].
  simpl. apply IH. apply no_routes_attempt; assumption.
Qed.

Lemma match_in_routers_empty st routers req :
  Forall (fun r => Router.routes r = []) (router_objs st) ->
  Forall (fun r => r < length (router_objs st)) routers ->
  match_in_routers st routers req = Ok None.
Proof.
  intros Hempty. induction 1 as [|a rest Ha _ IH]; cbn [match_in_routers]; [reflexivity|].
  destruct (lookup_lt_is_Some_2 _ _ Ha) as [r E].
  assert (Hr : Router.routes r = []) by (eapply Forall_lookup_1 in Hempty; eassumption).
  unfold addr in *. rewrite E. cbn [the bind]. rewrite Hr. cbn [match_in_routes bind].
  exact IH.
Qed.

(** X15. As long as a program has registered no route, by [route] of an
    application or of a router, the listener of each of its applications
    answers every request as a request that no route accepts: with
    [writeHead(404)] and [end()], and without a call of any middleware,
    whatever middlewares and routers have been registered. *)
Theorem without_routes_every_request_is_404 cs this app req res :
  Forall (fun c => adds_route c = false) cs ->
  app_objs (after cs empty_store) !! this = Some app ->
  toListener this (after cs empty_store) req res = not_found req res /\
  (headersSent res = false ->
   o_trace (toListener this (after cs empty_store) req res) = [WriteHead 404; End_] /\
   statusCode (o_res (toListener this (after cs empty_store) req res)) = 404).
Proof.
  intros Hcs Happ.
  assert (Hwf : wf (after cs empty_store)) by (apply wf_after, wf_empty).
  assert (Hnf : toListener this (after cs empty_store) req res = not_found req res).
  { unfold toListener. rewrite Happ. cbn [the bind].
    rewrite (match_in_routers_empty _ _ req).
    - reflexivity.
    - apply no_routes_after; [exact Hcs|constructor].
    - destruct (wf_lookup_app _ _ _ Hwf Happ) as (_ & _ & _ & _ & H). exact H. }
  split; [exact Hnf|]. intros Hs. rewrite Hnf. unfold not_found, writeHead. rewrite Hs.
  simpl. unfold end_. simpl. destruct (finished res); split; reflexivity.
Qed.

Lemma without_routes_every_request_is_404_witness :
  let cs := [NewSimpress; AppUse 0 Demo.applyConsoleLogger; NewRouter;
             RouterUse 1 Demo.refuse; AppUseRouter 0 1] in
  o_trace (toListener 0 (after cs empty_store) (Demo.request "/" "GET" JUndefined)
             fresh_response) = [WriteHead 404; End_].
Proof.
  intros cs.
  destruct (without_routes_every_request_is_404 cs 0
              (app_of (after cs empty_store) 0) (Demo.request "/" "GET" JUndefined)
              fresh_response) as [_ H].
  - repeat constructor.
  - vm_compute. reflexivity.
  - exact (proj1 (H eq_refl)).
Defined.

(** ** Objects changed after they were handed out *)

(** X16. The objects that [route], [findRoute] and the constructors hand out
    are the ones that the listener reads: a middleware or an error middleware
    registered later on the route, on the router or on the application that a
    request reaches is part of the pipeline of the next such request; the
    request still reaches the same route. *)
Theorem later_registration_is_seen st this app req ra router k a route :
  app_objs st !! this = Some app ->
  first_match st (Simpress._routers app) req ra router k a route ->
  (forall m, exists st',
     Route_use a m st = Ok (a, st') /\
     matched st' this req app router (Route.with_use m route)) /\
  (forall m, exists st',
     Route_useForError a m st = Ok (a, st') /\
     matched st' this req app router (Route.with_useForError m route)) /\
  (forall m, exists st',
     Router_use ra m st = Ok (ra, st') /\
     matched st' this req app (Router.with_use m router) route) /\
  (forall m, exists st',
     Router_useForError ra m st = Ok (ra, st') /\
     matched st' this req app (Router.with_useForError m router) route) /\
  (forall m, exists st',
     Simpress_use this m st = Ok (this, st') /\
     matched st' this req (Simpress.with_use m app) router route) /\
  (forall m, exists st',
     Simpress_useForError this m st = Ok (this, st') /\
     matched st' this req (Simpress.with_useForError m app) router route).
Proof.
  intros Happ Hfm.
  assert (Ha : route_objs st !! a = Some route)
    by (destruct Hfm as (? & ? & ? & ? & H); tauto).
  assert (Hra : router_objs st !! ra = Some router)
    by (destruct Hfm as (? & ? & ? & ? & H); tauto).
  repeat split; intros m; eexists.
  - unfold Route_use. rewrite use_eq, update_route_eq, Ha. split; [reflexivity|].
    apply matched_first. split; [exact Happ|]. exists ra, k, a.
    apply (first_match_route_update _ _ _ _ _ _ _ _ (Route.with_use m)); [|exact Hfm].
    intros r. split; reflexivity.
  - unfold Route_useForError. rewrite use_eq, update_route_eq, Ha. split; [reflexivity|].
    apply matched_first. split; [exact Happ|]. exists ra, k, a.
    apply (first_match_route_update _ _ _ _ _ _ _ _ (Route.with_useForError m));
      [|exact Hfm].
    intros r. split; reflexivity.
  - unfold Router_use. rewrite use_eq, update_router_eq, Hra. split; [reflexivity|].
    apply matched_first. split; [exact Happ|]. exists ra, k, a.
    apply (first_match_router_update _ _ _ _ _ _ _ _ (Router.with_use m)); [|exact Hfm].
    intros r. reflexivity.
  - unfold Router_useForError. rewrite use_eq, update_router_eq, Hra.
    split; [reflexivity|].
    apply matched_first. split; [exact Happ|]. exists ra, k, a.
    apply (first_match_router_update _ _ _ _ _ _ _ _ (Router.with_useForError m));
      [|exact Hfm].
    intros r. reflexivity.
  - unfold Simpress_use. rewrite use_eq, update_app_eq, Happ. split; [reflexivity|].
    apply matched_first. split; [eapply lookup_insert_same; exact Happ|].
    exists ra, k, a. apply first_match_app_update. exact Hfm.
  - unfold Simpress_useForError. rewrite use_eq, update_app_eq, Happ.
    split; [reflexivity|].
    apply matched_first. split; [eapply lookup_insert_same; exact Happ|].
    exists ra, k, a. apply first_match_app_update. exact Hfm.
Qed.

(** one more middleware on the route that [findRoute] hands out for /echo:
    the next POST to /echo runs it *)
Lemma later_registration_is_seen_witness :
  let req := Demo.request "/echo" "POST" (JObj 7) in
  exists st',
    Route_use 1 Demo.refuse Demo.store = Ok (1, st') /\
    matched st' Demo.app req Demo.app_obj (fst (Demo.reached req))
      (Route.with_use Demo.refuse (snd (Demo.reached req))) /\
    o_trace (toListener Demo.app st' req fresh_response)
      = [ok_call Demo.applyConsoleLogger; ok_call Demo.applyJsonBodyValidator;
         CallMiddleware 5 (Next (JBool false));
         CallErrMiddleware 4 (JBool false) (Next (JBool false))].
Proof.
  intros req.
  assert (Hfm : first_match Demo.store (Simpress._routers Demo.app_obj) req 0
                  (fst (Demo.reached req)) "POST|^\/echo\/?$|\?" 1
                  (snd (Demo.reached req))).
  { exists [], [1], [("GET|^\/\/?$|\?"%string, 0)], [].
    split; [reflexivity|]. split; [constructor|]. split; [reflexivity|].
    split; [reflexivity|]. split.
    - constructor; [|constructor]. eexists. split; [reflexivity|]. vm_compute. reflexivity.
    - split; [reflexivity|]. vm_compute. reflexivity. }
  destruct (later_registration_is_seen Demo.store Demo.app Demo.app_obj req 0
              (fst (Demo.reached req)) _ 1 (snd (Demo.reached req)) eq_refl Hfm)
    as (H & _).
  destruct (H Demo.refuse) as (st' & Hu & Hm). exists st'.
  split; [exact Hu|]. split; [exact Hm|].
  rewrite (toListener_matched _ _ _ _ _ _ _ Hm). vm_compute. reflexivity.
Defined.

(** ** Routes registered a second time *)

Lemma set_set {V : Type} (m : JsMap.t V) k v1 v2 :
  JsMap.set (JsMap.set m k v1) k v2 = JsMap.set m k v2.
Proof.
  induction m as [|[k' v'] m IH]; simpl.
  - rewrite String.eqb_refl. reflexivity.
  - destruct (String.eqb k' k) eqn:E; simpl; rewrite E; [reflexivity|].
    rewrite IH. reflexivity.
Qed.

Lemma set_values {V : Type} (m : JsMap.t V) k v x :
  In x (map snd (JsMap.set m k v)) -> x = v \/ In x (map snd m).
Proof.
  induction m as [|[k' v'] m IH]; simpl.
  - intros [H|[]]. left. congruence.
  - destruct (String.eqb k' k); simpl.
    + intros [H|H]; [left; congruence|right; right; exact H].
    + intros [H|H]; [right; left; exact H|]. destruct (IH H); [left|right; right]; assumption.
Qed.

Lemma Simpress_route_as_router st this app r0 rest path verb listener :
  app_objs st !! this = Some app -> Simpress._routers app = r0 :: rest ->
  Simpress_route this path verb listener st = Router_route r0 path verb listener st.
Proof.
  intros Happ Hr. rewrite Simpress_route_eq, Router_route_eq, Happ, Hr. reflexivity.
Qed.

Lemma Router_route_twice st this path verb l1 l2 a1 st1 a2 st2 :
  wf st ->
  Router_route this path verb l1 st = Ok (a1, st1) ->
  Router_route this path verb l2 st1 = Ok (a2, st2) ->
  exists re r0 r2,
    to_regexp path = Ok re /\
    a1 = length (route_objs st) /\ a2 = S a1 /\
    router_objs st !! this = Some r0 /\ router_objs st2 !! this = Some r2 /\
    Router.routes r2 = JsMap.set (Router.routes r0) (route_key verb re) a2 /\
    route_objs st2 !! a1 = Some (Route.new re verb l1) /\
    route_objs st2 !! a2 = Some (Route.new re verb l2) /\
    app_objs st2 = app_objs st /\
    forall x rx, router_objs st2 !! x = Some rx -> ~ In a1 (map snd (Router.routes rx)).
Proof.
  intros Hwf H1 H2. rewrite Router_route_eq in H1, H2.
  destruct (to_regexp path) as [re|]; [|discriminate].
  destruct (router_objs st !! this) as [r0|] eqn:E0; [|discriminate].
  inversion H1; subst a1 st1; clear H1. cbn [route_objs router_objs app_objs] in H2.
  rewrite (lookup_insert_same _ _ _ _ E0) in H2. inversion H2; subst a2 st2; clear H2.
  cbn [route_objs router_objs app_objs].
  exists re, r0. eexists. split; [reflexivity|]. split; [reflexivity|].
  split; [rewrite length_app; simpl; lia|]. split; [reflexivity|].
  split; [eapply lookup_insert_same, lookup_insert_same; exact E0|].
  split; [simpl; apply set_set|].
  split; [apply lookup_app_l_Some, lookup_snoc|].
  split; [apply lookup_snoc|].
  split; [reflexivity|].
  intros x rx Hx HIn. rewrite list_insert_insert_eq in Hx.
  assert (Hold : forall r, router_objs st !! x = Some r ->
                   ~ In (length (route_objs st)) (map snd (Router.routes r))).
  { intros r Hr HIn'. destruct (wf_lookup_router _ _ _ Hwf Hr) as (_ & _ & _ & Hb).
    apply in_map_iff in HIn'. destruct HIn' as (e & He & HIn').
    rewrite Forall_forall in Hb. apply list_elem_of_In in HIn'.
    specialize (Hb _ HIn'). unfold addr in *. lia. }
  destruct (Nat.eq_dec x this) as [->|Hne].
  - rewrite (lookup_insert_same _ _ _ _ E0) in Hx. inversion Hx; subst rx. simpl in HIn.
    rewrite set_set in HIn. apply set_values in HIn. destruct HIn as [HIn|HIn].
    + rewrite length_app in HIn. simpl in HIn. unfold addr in *. lia.
    + exact (Hold _ E0 HIn).
  - rewrite list_lookup_insert_ne in Hx by congruence. exact (Hold _ Hx HIn).
Qed.

(** X17. When a program registers a route for a path and a method that the
    router already has a route for, the new [Route] object takes the place of
    the old one in the router's map, at the same place in the order of the
    search; registered twice in a row, the first object is still there, with
    whatever has been registered on it, but no router leads to it any more.
    [route] of an application does this to its own router. *)
Theorem replaced_route_leaves_the_registry st path verb l1 l2 a1 st1 a2 st2 :
  built st ->
  (exists this,
     Router_route this path verb l1 st = Ok (a1, st1) /\
     Router_route this path verb l2 st1 = Ok (a2, st2)) \/
  (exists this,
     Simpress_route this path verb l1 st = Ok (a1, st1) /\
     Simpress_route this path verb l2 st1 = Ok (a2, st2)) ->
  exists re target r0 r2,
    to_regexp path = Ok re /\ a2 <> a1 /\
    router_objs st !! target = Some r0 /\ router_objs st2 !! target = Some r2 /\
    Router.routes r2 = JsMap.set (Router.routes r0) (route_key verb re) a2 /\
    route_objs st2 !! a1 = Some (Route.new re verb l1) /\
    route_objs st2 !! a2 = Some (Route.new re verb l2) /\
    forall x rx, router_objs st2 !! x = Some rx -> ~ In a1 (map snd (Router.routes rx)).
Proof.
  intros [cs ->] H.
  assert (Hwf : wf (after cs empty_store)) by (apply wf_after, wf_empty).
  assert (exists target,
            Router_route target path verb l1 (after cs empty_store) = Ok (a1, st1) /\
            Router_route target path verb l2 st1 = Ok (a2, st2)) as (target & H1 & H2).
  { destruct H as [H|(this & H1 & H2)]; [exact H|].
    assert (exists app r0 rest, app_objs (after cs empty_store) !! this = Some app /\
                                Simpress._routers app = r0 :: rest)
      as (app & r0 & rest & Happ & Hr).
    { rewrite Simpress_route_eq in H1. destruct (to_regexp path); [|discriminate].
      destruct (app_objs (after cs empty_store) !! this) as [app|] eqn:Happ;
        [|discriminate].
      destruct (Simpress._routers app) as [|r0 rest] eqn:Hr; [discriminate|].
      exists app, r0, rest. split; [reflexivity|exact Hr]. }
    exists r0. rewrite (Simpress_route_as_router _ _ _ _ _ _ _ _ Happ Hr) in H1.
    split; [exact H1|].
    assert (Happ1 : app_objs st1 !! this = Some app).
    { rewrite Router_route_eq in H1. destruct (to_regexp path); [|discriminate].
      destruct (router_objs (after cs empty_store) !! r0); [|discriminate].
      inversion H1; subst. exact Happ. }
    rewrite (Simpress_route_as_router _ _ _ _ _ _ _ _ Happ1 Hr) in H2. exact H2. }
  destruct (Router_route_twice _ _ _ _ _ _ _ _ _ _ Hwf H1 H2)
    as (re & r0 & r2 & Hre & Ha1 & Ha2 & Hr0 & Hr2 & Hset & Hold & Hnew & _ & Hgone).
  exists re, target, r0, r2. repeat split; try assumption. lia.
Qed.

(** the route of /users registered once more, twice: the map of the users'
    router keeps its two keys and leads to the last object *)
Lemma replaced_route_leaves_the_registry_witness :
  exists st1 st2 r2,
    Router_route 1 (PString "/users") "GET" Demo.root Demo.store = Ok (4, st1) /\
    Router_route 1 (PString "/users") "GET" Demo.echo st1 = Ok (5, st2) /\
    router_objs st2 !! 1 = Some r2 /\
    map snd (Router.routes r2) = [5; 3] /\
    ~ In 4 (map snd (Router.routes r2)).
Proof.
  destruct (Router_route 1 (PString "/users") "GET" Demo.root Demo.store)
    as [[a1 st1]|e] eqn:H1; [|vm_compute in H1; discriminate H1].
  assert (a1 = 4) by (vm_compute in H1; congruence). subst a1.
  destruct (Router_route 1 (PString "/users") "GET" Demo.echo st1)
    as [[a2 st2]|e] eqn:H2.
  2: { vm_compute in H1. inversion H1; subst st1. vm_compute in H2. discriminate H2. }
  assert (a2 = 5).
  { vm_compute in H1. inversion H1; subst st1. vm_compute in H2. congruence. }
  subst a2.
  destruct (replaced_route_leaves_the_registry Demo.store (PString "/users") "GET"
              Demo.root Demo.echo 4 st1 5 st2 demo_built
              (or_introl (ex_intro _ 1 (conj H1 H2))))
    as (re & target & r0 & r2 & Hre & Hne & Hr0 & Hr2 & Hset & _ & _ & Hgone).
  assert (Hr2' : exists r, router_objs st2 !! 1 = Some r /\
                           map snd (Router.routes r) = [5; 3]).
  { vm_compute in H1. inversion H1; subst st1. vm_compute in H2. inversion H2; subst st2.
    eexists. split; reflexivity. }
  destruct Hr2' as (r & Hr & Hv).
  exists st1, st2, r. split; [reflexivity|]. split; [exact H2|].
  split; [exact Hr|]. split; [exact Hv|]. exact (Hgone 1 r Hr).
Defined.

(** ** The application and its own router *)

(** X18. [route] of an application is [route] of its own router, the first of
    its routers: the same [Route] object is made and the same map is
    written, or the same error is thrown.  Where the application has no
    other router, its [findRoute] is [findRoute] of that router. *)
Theorem app_route_is_route_of_own_router st this app r0 rest path verb listener :
  app_objs st !! this = Some app ->
  Simpress._routers app = r0 :: rest ->
  Simpress_route this path verb listener st = Router_route r0 path verb listener st /\
  (rest = [] ->
   Simpress_findRoute this path verb st = Router_findRoute r0 path verb st).
Proof.
  intros Happ Hr. split; [eapply Simpress_route_as_router; eassumption|].
  intros ->. rewrite Simpress_findRoute_eq, Router_findRoute_eq, Happ, Hr.
  destruct (to_regexp path) as [re|]; [|reflexivity].
  cbn [find_in_routers]. unfold bindM, get_router, lift, the, ret.
  destruct (router_objs st !! r0) as [r|]; [|reflexivity].
  destruct (JsMap.get _ _); reflexivity.
Qed.

Lemma app_route_is_route_of_own_router_witness :
  Simpress_route Demo.app (PString "/about") "GET" Demo.root Demo.store
    = Router_route 0 (PString "/about") "GET" Demo.root Demo.store.
Proof.
  exact (proj1 (app_route_is_route_of_own_router Demo.store Demo.app Demo.app_obj 0 [1]
                  (PString "/about") "GET" Demo.root eq_refl eq_refl)).
Defined.

(** ** What [findRoute] finds *)

Lemma set_Forall_key {V : Type} (P : string * V -> Prop) (m : JsMap.t V) k v :
  Forall P m -> P (k, v) -> Forall P (JsMap.set m k v).
Proof.
  intros Hm Hv. induction Hm as [|[k' v'] m Hx Hm IH]; simpl.
  - constructor; [exact Hv|constructor].
  - destruct (String.eqb k' k) eqn:E; constructor; auto.
    apply String.eqb_eq in E. subst k'. exact Hv.
Qed.

Lemma get_In {V : Type} (m : JsMap.t V) k v : JsMap.get m k = Some v -> In (k, v) m.
Proof.
  induction m as [|[k' v'] m IH]; simpl; [discriminate|].
  destruct (String.eqb k' k) eqn:E.
  - intros H. inversion H; subst. apply String.eqb_eq in E. subst. left. reflexivity.
  - intros H. right. exact (IH H).
Qed.

Lemma keyed_transfer (routes routes' : list Route.t) (routers : list Router.t) :
  (forall x r, routes !! x = Some r ->
     exists r', routes' !! x = Some r' /\
       Route.method r' = Route.method r /\ Route.path r' = Route.path r) ->
  Forall (fun r =>
    Forall (fun entry =>
      exists route, routes !! snd entry = Some route /\
        fst entry = route_key (Route.method route) (Route.path route))
      (Router.routes r)) routers ->
  Forall (fun r =>
    Forall (fun entry =>
      exists route, routes' !! snd entry = Some route /\
        fst entry = route_key (Route.method route) (Route.path route))
      (Router.routes r)) routers.
Proof.
  intros Hsame H. eapply Forall_impl; [exact H|]. intros r Hr.
  eapply Forall_impl; [exact Hr|]. intros [k a] (route & Ha & Hk).
  destruct (Hsame _ _ Ha) as (route' & Ha' & Hm & Hp).
  exists route'. split; [exact Ha'|]. rewrite Hm, Hp. exact Hk.
Qed.

Lemma same_route_insert (routes : list Route.t) a v f :
  routes !! a = Some v ->
  (forall r, Route.method (f r) = Route.method r /\ Route.path (f r) = Route.path r) ->
  forall x r, routes !! x = Some r ->
    exists r', <[a := f v]> routes !! x = Some r' /\
      Route.method r' = Route.method r /\ Route.path r' = Route.path r.
Proof.
  intros Ha Hf x r Hx. rewrite (lookup_insert_cases _ _ _ _ _ f Ha Hx).
  eexists. split; [reflexivity|]. destruct (Nat.eq_dec x a); [apply Hf|split; reflexivity].
Qed.

Lemma same_route_app (routes more : list Route.t) :
  forall x r, routes !! x = Some r ->
    exists r', (routes ++ more) !! x = Some r' /\
      Route.method r' = Route.method r /\ Route.path r' = Route.path r.
Proof.
  intros x r Hx. exists r. split; [apply lookup_app_l_Some; exact Hx|split; reflexivity].
Qed.

Lemma keyed_route st target r re verb listener :
  keyed st -> router_objs st !! target = Some r ->
  keyed {| route_objs := route_objs st ++ [Route.new re verb listener];
           router_objs :=
             <[target := Router.with_route (route_key verb re)
                           (length (route_objs st)) r]> (router_objs st);
           app_objs := app_objs st |}.
Proof.
  intros Hk Hr. unfold keyed in *. cbn [route_objs router_objs].
  assert (Hk' := keyed_transfer _ _ _ (same_route_app (route_objs st)
                                         [Route.new re verb listener]) Hk).
  apply Forall_insert; [exact Hk'|].
  cbn [Router.with_route Router.routes]. apply set_Forall_key.
  - eapply Forall_lookup_1 in Hk'; [|exact Hr]. exact Hk'.
  - exists (Route.new re verb listener). split; [apply lookup_snoc|reflexivity].
Qed.

Lemma keyed_attempt st c : keyed st -> keyed (attempt st c).
Proof.
  intros Hk. unfold attempt. destruct c; cbn [perform]; rewrite ?some_eq.
  - unfold Simpress_new, bindM, Router_new, alloc_router, alloc_app. simpl.
    unfold keyed in *. simpl. apply Forall_app. split; [exact Hk|]. repeat constructor.
  - unfold Router_new, alloc_router. unfold keyed in *. simpl.
    apply Forall_app. split; [exact Hk|]. repeat constructor.
  - unfold Simpress_use. rewrite use_eq, update_app_eq.
    destruct (app_objs st !! this); exact Hk.
  - unfold Simpress_useForError. rewrite use_eq, update_app_eq.
    destruct (app_objs st !! this); exact Hk.
  - unfold bindM at 1, get_router, lift, the.
    destruct (router_objs st !! router); [|exact Hk].
    rewrite some_eq. unfold Simpress_useRouter. rewrite use_eq, update_app_eq.
    destruct (app_objs st !! this); exact Hk.
  - rewrite Simpress_route_eq. destruct (to_regexp path) as [re|]; [|exact Hk].
    destruct (app_objs st !! this) as [a|]; [|exact Hk].
    destruct (Simpress._routers a) as [|r0 rest]; [exact Hk|].
    destruct (router_objs st !! r0) as [r|] eqn:E; [|exact Hk].
    apply keyed_route; assumption.
  - destruct (Simpress_findRoute this path verb st) as [[v st']|] eqn:E; [|exact Hk].
    rewrite (looks_up_same (AppFindRoute this path verb) st v st' eq_refl E). exact Hk.
  - unfold Router_use. rewrite use_eq, update_router_eq.
    destruct (router_objs st !! this) as [r|] eqn:E; [|exact Hk].
    unfold keyed in *. cbn [route_objs router_objs]. apply Forall_insert; [exact Hk|].
    eapply Forall_lookup_1 in Hk; [|exact E]. exact Hk.
  - unfold Router_useForError. rewrite use_eq, update_router_eq.
    destruct (router_objs st !! this) as [r|] eqn:E; [|exact Hk].
    unfold keyed in *. cbn [route_objs router_objs]. apply Forall_insert; [exact Hk|].
    eapply Forall_lookup_1 in Hk; [|exact E]. exact Hk.
  - rewrite Router_route_eq. destruct (to_regexp path) as [re|]; [|exact Hk].
    destruct (router_objs st !! this) as [r|] eqn:E; [|exact Hk].
    apply keyed_route; assumption.
  - destruct (Router_findRoute this path verb st) as [[v st']|] eqn:E; [|exact Hk].
    rewrite (looks_up_same (RouterFindRoute this path verb) st v st' eq_refl E). exact Hk.
  - unfold Route_use. rewrite use_eq, update_route_eq.
    destruct (route_objs st !! this) as [r|] eqn:E; [|exact Hk].
    unfold keyed in *. cbn [route_objs router_objs].
    eapply keyed_transfer; [|exact Hk].
    apply (same_route_insert _ _ _ (Route.with_use m) E). intros r'. split; reflexivity.
  - unfold Route_useForError. rewrite use_eq, update_route_eq.
    destruct (route_objs st !! this) as [r|] eqn:E; [|exact Hk].
    unfold keyed in *. cbn [route_objs router_objs].
    eapply keyed_transfer; [|exact Hk].
    apply (same_route_insert _ _ _ (Route.with_useForError m) E).
    intros r'. split; reflexivity.
Qed.

Lemma keyed_after cs st : keyed st -> keyed (after cs st).
Proof.
  revert st. induction cs as [|c cs IH]; intros st H; [exact H|].
  simpl. apply IH. apply keyed_attempt. exact H.
Qed.

Lemma keyed_get st x r k a :
  keyed st -> router_objs st !! x = Some r -> JsMap.get (Router.routes r) k = Some a ->
  exists route, route_objs st !! a = Some route /\
    route_key (Route.method route) (Route.path route) = k.
Proof.
  intros Hk Hx Hg. unfold keyed in Hk. eapply Forall_lookup_1 in Hk; [|exact Hx].
  rewrite Forall_forall in Hk. apply get_In in Hg. apply list_elem_of_In in Hg.
  destruct (Hk _ Hg) as (route & Ha & Hkey). exists route. split; [exact Ha|].
  symmetry. exact Hkey.
Qed.

Lemma find_in_routers_some routers k st a st' :
  find_in_routers routers k st = Ok (Some a, st') ->
  exists x r, In x routers /\ router_objs st !! x = Some r /\
              JsMap.get (Router.routes r) k = Some a.
Proof.
  induction routers as [|x rest IH]; cbn [find_in_routers].
  - unfold ret. discriminate.
  - unfold bindM, get_router, lift, the.
    destruct (router_objs st !! x) as [r|] eqn:E; [|discriminate]. cbn beta iota.
    destruct (JsMap.get _ k) as [a'|] eqn:Hg.
    + unfold ret. intros H. inversion H; subst. exists x, r.
      split; [left; reflexivity|]. split; [exact E|exact Hg].
    + intros H. destruct (IH H) as (y & r' & HIn & Hy & Hg'). exists y, r'.
      split; [right; exact HIn|]. split; assumption.
Qed.

(** X19. In a store that a program has built, [findRoute] of an application
    or of a router answers only with a route that has the key asked for: the
    method of the route and the source of its pattern make up the same key,
    and, the methods being without a bar, the route has the method asked for
    and a pattern with the same source. *)
Theorem findRoute_answers_for_the_key st this path verb re a :
  built st -> to_regexp path = Ok re ->
  Simpress_findRoute this path verb st = Ok (Some a, st) \/
  Router_findRoute this path verb st = Ok (Some a, st) ->
  exists route,
    route_objs st !! a = Some route /\
    route_key (Route.method route) (Route.path route) = route_key verb re /\
    (~ In "|" (list_ascii_of_string verb) ->
     ~ In "|" (list_ascii_of_string (Route.method route)) ->
     Route.method route = verb /\
     RegExp.source (Route.path route) = RegExp.source re).
Proof.
  intros [cs ->] Hre H.
  assert (Hk : keyed (after cs empty_store)) by (apply keyed_after; constructor).
  assert (exists x r, router_objs (after cs empty_store) !! x = Some r /\
                      JsMap.get (Router.routes r) (route_key verb re) = Some a)
    as (x & r & Hx & Hg).
  { destruct H as [H|H].
    - rewrite Simpress_findRoute_eq, Hre in H.
      destruct (app_objs (after cs empty_store) !! this); [|discriminate].
      destruct (find_in_routers_some _ _ _ _ _ H) as (x & r & _ & Hx & Hg). eauto.
    - rewrite Router_findRoute_eq, Hre in H.
      destruct (router_objs (after cs empty_store) !! this) as [r|] eqn:E; [|discriminate].
      inversion H as [Hg]. eauto. }
  destruct (keyed_get _ _ _ _ _ Hk Hx Hg) as (route & Ha & Hkey).
  exists route. split; [exact Ha|]. split; [exact Hkey|].
  intros Hv Hm. unfold route_key in Hkey.
  destruct (key_split _ _ _ _ Hm Hv Hkey) as [H1 H2]. split; assumption.
Qed.

(** the route that the example asks for with [findRoute('/echo', 'POST')] *)
Lemma findRoute_answers_for_the_key_witness :
  exists route,
    route_objs Demo.store !! 1 = Some route /\ Route.method route = "POST"%string.
Proof.
  destruct (to_regexp (PString "/echo")) as [re|e] eqn:Hre;
    [|vm_compute in Hre; discriminate Hre].
  assert (Hf : Simpress_findRoute Demo.app (PString "/echo") "POST" Demo.store
                 = Ok (Some 1, Demo.store)) by (vm_compute; reflexivity).
  destruct (findRoute_answers_for_the_key Demo.store Demo.app (PString "/echo") "POST"
              re 1 demo_built Hre (or_introl Hf)) as (route & Ha & _ & Hm).
  exists route. split; [exact Ha|].
  vm_compute in Ha. inversion Ha; subst route.
  apply Hm; simpl; intros H; repeat (destruct H as [H|H]; [discriminate H|]); exact H.
Defined.

(** * The pipeline, call by call *)





(** ** The order of the tiers *)



(** ** What counts as an error *)





(** ** The registry, key by key *)

Lemma find_in_routers_frame routers k st st' :
  (forall x r, router_objs st !! x = Some r ->
     exists r', router_objs st' !! x = Some r' /\
                JsMap.get (Router.routes r') k = JsMap.get (Router.routes r) k) ->
  forall v, find_in_routers routers k st = Ok (v, st) ->
            find_in_routers routers k st' = Ok (v, st').
Proof.
  intros Hsame. induction routers as [|x rest IH]; intros v; cbn [find_in_routers].
  - unfold ret. intros H. inversion H. reflexivity.
  - unfold bindM, get_router, lift, the. unfold addr in *.
    destruct (router_objs st !! x) as [r|] eqn:E; [|discriminate].
    destruct (Hsame _ _ E) as (r' & E' & Hg). rewrite E'. cbn beta iota.
    rewrite Hg. clear Hg. destruct (@JsMap.get nat (Router.routes r) k) as [a|].
    + unfold ret. intros H. inversion H. reflexivity.
    + apply IH.
Qed.

Lemma with_route_frame (routers : list Router.t) target r key a k :
  routers !! target = Some r -> k <> key ->
  forall x rx, routers !! x = Some rx ->
    exists rx', <[target := Router.with_route key a r]> routers !! x = Some rx' /\
                JsMap.get (Router.routes rx') k = JsMap.get (Router.routes rx) k.
Proof.
  intros Ht Hk x rx Hx.
  rewrite (lookup_insert_cases _ _ _ _ _ (Router.with_route key a) Ht Hx).
  eexists. split; [reflexivity|]. destruct (Nat.eq_dec x target); [|reflexivity].
  cbn [Router.with_route Router.routes]. apply get_set_ne. exact Hk.
Qed.

(** C4. The key of a route is its method, a bar and the source of its
    pattern; routes of literal paths and of methods without a bar have the
    same key only when method and path are the same.  [route] stores the new
    route under its key: it never fails on a key that is taken, the key then
    holds the new route at the place of the old one and the other keys hold
    what they held, so that [findRoute] for another key, or on another
    router, answers as before; and [findRoute] with the same method and
    path, on a router and on the application, returns that very route
    object, whose listener, method and pattern are the ones just given. *)
Theorem route_then_findRoute st path method listener re :
  to_regexp path = Ok re ->
  let key := route_key method re in
  let a := length (route_objs st) in
  key = (method ++ "|" ++ RegExp.source re)%string /\
  (forall this r, router_objs st !! this = Some r ->
     exists st' r',
       Router_route this path method listener st = Ok (a, st') /\
       Router_findRoute this path method st' = Ok (Some a, st') /\
       route_objs st' !! a = Some (Route.new re method listener) /\
       Route.listener (Route.new re method listener) = listener /\
       router_objs st' !! this = Some r' /\
       JsMap.get (Router.routes r') key = Some a /\
       (forall k, k <> key ->
          JsMap.get (Router.routes r') k = JsMap.get (Router.routes r) k) /\
       map fst (Router.routes r') =
         match JsMap.get (Router.routes r) key with
         | Some _ => map fst (Router.routes r)
         | None => map fst (Router.routes r) ++ [key]
         end /\
       (forall that path2 verb2 re2 v,
          to_regexp path2 = Ok re2 ->
          that <> this \/ route_key verb2 re2 <> key ->
          Router_findRoute that path2 verb2 st = Ok (v, st) ->
          Router_findRoute that path2 verb2 st' = Ok (v, st'))) /\
  (forall this app r0 others r,
     app_objs st !! this = Some app -> Simpress._routers app = r0 :: others ->
     router_objs st !! r0 = Some r ->
     exists st',
       Simpress_route this path method listener st = Ok (a, st') /\
       Simpress_findRoute this path method st' = Ok (Some a, st') /\
       route_objs st' !! a = Some (Route.new re method listener) /\
       (forall path2 verb2 re2 v,
          to_regexp path2 = Ok re2 -> route_key verb2 re2 <> key ->
          Simpress_findRoute this path2 verb2 st = Ok (v, st) ->
          Simpress_findRoute this path2 verb2 st' = Ok (v, st'))) /\
  (forall p1 p2 verb1 verb2 re1 re2,
     RegExp.literal p1 = true -> RegExp.literal p2 = true ->
     ~ In "|" (list_ascii_of_string verb1) -> ~ In "|" (list_ascii_of_string verb2) ->
     to_regexp (PString p1) = Ok re1 -> to_regexp (PString p2) = Ok re2 ->
     (route_key verb1 re1 = route_key verb2 re2 <-> verb1 = verb2 /\ p1 = p2)).
Proof.
  intros Hre key a. split; [reflexivity|]. split; [|split].
  - intros this r Hr.
    assert (Hlt : this < length (router_objs st)) by (eapply lookup_lt_Some; exact Hr).
    eexists _, (Router.with_route key a r).
    split; [rewrite Router_route_eq, Hre, Hr; reflexivity|].
    split.
    { rewrite Router_findRoute_eq, Hre. cbn [router_objs].
      rewrite (lookup_insert_same _ _ _ _ Hr). cbn [Router.with_route Router.routes].
      rewrite get_set_eq. reflexivity. }
    split; [apply lookup_snoc|]. split; [reflexivity|].
    split; [apply (lookup_insert_same _ _ _ _ Hr)|].
    split; [apply get_set_eq|].
    split; [intros k Hk; apply get_set_ne; exact Hk|].
    split; [apply set_keys|].
    intros that path2 verb2 re2 v Hre2 Hdiff. rewrite !Router_findRoute_eq, Hre2.
    cbn [router_objs].
    destruct (Nat.eq_dec that this) as [->|Hne].
    + destruct Hdiff as [Hd|Hd]; [contradiction|].
      rewrite Hr, (lookup_insert_same _ _ _ _ Hr). cbn [Router.with_route Router.routes].
      rewrite (get_set_ne _ _ _ _ Hd). intros H. inversion H. reflexivity.
    + rewrite list_lookup_insert_ne by congruence. unfold addr in *.
      destruct (router_objs st !! that); [|discriminate].
      intros H. inversion H. reflexivity.
  - intros this app r0 others r Happ Hrs Hr.
    eexists.
    split; [rewrite Simpress_route_eq, Hre, Happ, Hrs, Hr; reflexivity|].
    split.
    { rewrite Simpress_findRoute_eq, Hre. cbn [app_objs]. rewrite Happ, Hrs.
      cbn [find_in_routers]. unfold bindM, get_router, lift, the. cbn [router_objs].
      rewrite (lookup_insert_same _ _ _ _ Hr). cbn beta iota.
      cbn [Router.with_route Router.routes]. rewrite get_set_eq. reflexivity. }
    split; [apply lookup_snoc|].
    intros path2 verb2 re2 v Hre2 Hd. rewrite !Simpress_findRoute_eq, Hre2.
    cbn [app_objs]. rewrite Happ. apply find_in_routers_frame. cbn [router_objs].
    apply with_route_frame; assumption.
  - intros p1 p2 verb1 verb2 re1 re2 L1 L2 V1 V2 R1 R2. split.
    + unfold route_key. intros E. destruct (key_split _ _ _ _ V1 V2 E) as [-> Hs].
      split; [reflexivity|].
      rewrite (to_regexp_source _ _ R1), (to_regexp_source _ _ R2) in Hs.
      apply (f_equal list_ascii_of_string) in Hs.
      rewrite !source_of_literal in Hs by assumption.
      inversion Hs as [Hs']. apply app_inv_tail in Hs'.
      apply list_ascii_of_string_inj. apply flat_plain_source_inj; assumption.
    + intros [-> ->]. rewrite R1 in R2. inversion R2. reflexivity.
Qed.

(** GET /about is registered in the example: the application finds the new
    route object, the fifth of the store, and still finds the route of POST
    /echo *)
Lemma route_then_findRoute_witness :
  exists st',
    Simpress_route Demo.app (PString "/about") "GET" Demo.root Demo.store = Ok (4, st') /\
    Simpress_findRoute Demo.app (PString "/about") "GET" st' = Ok (Some 4, st') /\
    Simpress_findRoute Demo.app (PString "/echo") "POST" st' = Ok (Some 1, st').
Proof.
  destruct (to_regexp (PString "/about")) as [re|e] eqn:Hre;
    [|vm_compute in Hre; discriminate Hre].
  destruct (to_regexp (PString "/echo")) as [re2|e] eqn:Hre2;
    [|vm_compute in Hre2; discriminate Hre2].
  destruct (route_then_findRoute Demo.store (PString "/about") "GET" Demo.root re Hre)
    as (_ & _ & H & Hinj).
  destruct (H Demo.app Demo.app_obj 0 [1] Demo.default_router eq_refl eq_refl eq_refl)
    as (st' & H1 & H2 & _ & Hframe).
  exists st'. split; [exact H1|]. split; [exact H2|].
  apply (Hframe (PString "/echo") "POST"%string re2 (Some 1) Hre2).
  - intros E.
    assert (Hg : ~ In "|" (list_ascii_of_string "GET"))
      by (simpl; intros [X|[X|[X|[]]]]; discriminate X).
    assert (Hp : ~ In "|" (list_ascii_of_string "POST"))
      by (simpl; intros [X|[X|[X|[X|[]]]]]; discriminate X).
    apply (Hinj "/echo"%string "/about"%string "POST"%string "GET"%string re2 re
             eq_refl eq_refl Hp Hg Hre2 Hre) in E.
    destruct E as [E _]. discriminate E.
  - vm_compute. reflexivity.
Defined.

(** ** Malformed patterns *)













(** a bound of a quantifier beyond [kMaxInt] is read as [kMaxInt]: these two
    are not out of order *)
Example quantifier_bounds_stop_at_kMaxInt :
  exists re, to_regexp (PString "/a{2147483648,2147483647}") = Ok re.
Proof. eexists. vm_compute. reflexivity. Qed.

(** ** Registration of what is registered *)

Lemma includes_mw_In l m : includes_mw l m = true <-> In (mw_id m) (map mw_id l).
Proof.
  unfold includes_mw. rewrite existsb_exists, in_map_iff. split.
  - intros (x & Hx & E). apply Nat.eqb_eq in E. exists x. auto.
  - intros (x & E & Hx). exists x. split; [exact Hx|]. apply Nat.eqb_eq. exact E.
Qed.

Lemma includes_em_In l m : includes_em l m = true <-> In (em_id m) (map em_id l).
Proof.
  unfold includes_em. rewrite existsb_exists, in_map_iff. split.
  - intros (x & Hx & E). apply Nat.eqb_eq in E. exists x. auto.
  - intros (x & E & Hx). exists x. split; [exact Hx|]. apply Nat.eqb_eq. exact E.
Qed.

Lemma push_mw_In l m : In (mw_id m) (map mw_id (push_mw l m)).
Proof.
  unfold push_mw. destruct (includes_mw l m) eqn:E; [apply includes_mw_In; exact E|].
  rewrite map_app. apply in_or_app. right. left. reflexivity.
Qed.

Lemma push_em_In l m : In (em_id m) (map em_id (push_em l m)).
Proof.
  unfold push_em. destruct (includes_em l m) eqn:E; [apply includes_em_In; exact E|].
  rewrite map_app. apply in_or_app. right. left. reflexivity.
Qed.

Lemma push_mw_same l m : In (mw_id m) (map mw_id l) -> push_mw l m = l.
Proof. intros H. apply includes_mw_In in H. unfold push_mw. rewrite H. reflexivity. Qed.

Lemma push_em_same l m : In (em_id m) (map em_id l) -> push_em l m = l.
Proof. intros H. apply includes_em_In in H. unfold push_em. rewrite H. reflexivity. Qed.

Lemma includes_router_In r l : existsb (Nat.eqb r) l = true <-> In r l.
Proof.
  rewrite existsb_exists. split.
  - intros (x & Hx & E). apply Nat.eqb_eq in E. subst. exact Hx.
  - intros H. exists r. split; [exact H|apply Nat.eqb_refl].
Qed.

Lemma update_route_same a f st r :
  route_objs st !! a = Some r -> f r = r -> update_route a f st = Ok (tt, st).
Proof.
  intros H Hf. rewrite update_route_eq, H, Hf. unfold addr in *.
  rewrite (list_insert_id _ _ _ H).
  destruct st; reflexivity.
Qed.

Lemma update_router_same a f st r :
  router_objs st !! a = Some r -> f r = r -> update_router a f st = Ok (tt, st).
Proof.
  intros H Hf. rewrite update_router_eq, H, Hf. unfold addr in *.
  rewrite (list_insert_id _ _ _ H).
  destruct st; reflexivity.
Qed.

Lemma update_app_same a f st r :
  app_objs st !! a = Some r -> f r = r -> update_app a f st = Ok (tt, st).
Proof.
  intros H Hf. rewrite update_app_eq, H, Hf. unfold addr in *.
  rewrite (list_insert_id _ _ _ H).
  destruct st; reflexivity.
Qed.

Lemma perform_registered c st :
  registers c = true -> registered c st -> perform c st = Ok (Some (receiver c), st).
Proof.
  intros Hc H. destruct c; try discriminate Hc; cbn [perform receiver registered] in *.
  - destruct H as (app & Ha & HIn). rewrite some_eq. unfold Simpress_use.
    rewrite use_eq, (update_app_same _ _ _ _ Ha); [reflexivity|].
    unfold Simpress.with_use. rewrite (push_mw_same _ _ HIn). destruct app; reflexivity.
  - destruct H as (app & Ha & HIn). rewrite some_eq. unfold Simpress_useForError.
    rewrite use_eq, (update_app_same _ _ _ _ Ha); [reflexivity|].
    unfold Simpress.with_useForError. rewrite (push_em_same _ _ HIn).
    destruct app; reflexivity.
  - destruct H as (app & r & Ha & Hr & HIn).
    unfold bindM at 1, get_router, lift, the. rewrite Hr.
    rewrite some_eq. unfold Simpress_useRouter.
    rewrite use_eq, (update_app_same _ _ _ _ Ha); [reflexivity|].
    unfold Simpress.with_useRouter. apply includes_router_In in HIn. rewrite HIn.
    destruct app; reflexivity.
  - destruct H as (r & Ha & HIn). rewrite some_eq. unfold Router_use.
    rewrite use_eq, (update_router_same _ _ _ _ Ha); [reflexivity|].
    unfold Router.with_use. rewrite (push_mw_same _ _ HIn). destruct r; reflexivity.
  - destruct H as (r & Ha & HIn). rewrite some_eq. unfold Router_useForError.
    rewrite use_eq, (update_router_same _ _ _ _ Ha); [reflexivity|].
    unfold Router.with_useForError. rewrite (push_em_same _ _ HIn). destruct r; reflexivity.
  - destruct H as (r & Ha & HIn). rewrite some_eq. unfold Route_use.
    rewrite use_eq, (update_route_same _ _ _ _ Ha); [reflexivity|].
    unfold Route.with_use. rewrite (push_mw_same _ _ HIn). destruct r; reflexivity.
  - destruct H as (r & Ha & HIn). rewrite some_eq. unfold Route_useForError.
    rewrite use_eq, (update_route_same _ _ _ _ Ha); [reflexivity|].
    unfold Route.with_useForError. rewrite (push_em_same _ _ HIn). destruct r; reflexivity.
Qed.

Lemma perform_registers c st v st1 :
  registers c = true -> perform c st = Ok (v, st1) ->
  v = Some (receiver c) /\ registered c st1.
Proof.
  intros Hc H. destruct c; try discriminate Hc; cbn [perform receiver registered] in *.
  - rewrite some_eq in H. unfold Simpress_use in H. rewrite use_eq, update_app_eq in H.
    destruct (app_objs st !! this) as [app|] eqn:E; [|discriminate H].
    inversion H; subst. split; [reflexivity|]. eexists.
    split; [apply (lookup_insert_same _ _ _ _ E)|]. apply push_mw_In.
  - rewrite some_eq in H. unfold Simpress_useForError in H.
    rewrite use_eq, update_app_eq in H.
    destruct (app_objs st !! this) as [app|] eqn:E; [|discriminate H].
    inversion H; subst. split; [reflexivity|]. eexists.
    split; [apply (lookup_insert_same _ _ _ _ E)|]. apply push_em_In.
  - unfold bindM at 1 in H. unfold get_router, lift, the in H.
    destruct (router_objs st !! router) as [r|] eqn:Er; [|discriminate H].
    rewrite some_eq in H. unfold Simpress_useRouter in H.
    rewrite use_eq, update_app_eq in H.
    destruct (app_objs st !! this) as [app|] eqn:E; [|discriminate H].
    inversion H; subst. split; [reflexivity|]. eexists _, r.
    split; [apply (lookup_insert_same _ _ _ _ E)|]. split; [exact Er|].
    cbn [Simpress.with_useRouter Simpress._routers].
    destruct (existsb (Nat.eqb router) (Simpress._routers app)) eqn:Ex.
    + apply includes_router_In. exact Ex.
    + apply in_or_app. right. left. reflexivity.
  - rewrite some_eq in H. unfold Router_use in H. rewrite use_eq, update_router_eq in H.
    destruct (router_objs st !! this) as [r|] eqn:E; [|discriminate H].
    inversion H; subst. split; [reflexivity|]. eexists.
    split; [apply (lookup_insert_same _ _ _ _ E)|]. apply push_mw_In.
  - rewrite some_eq in H. unfold Router_useForError in H.
    rewrite use_eq, update_router_eq in H.
    destruct (router_objs st !! this) as [r|] eqn:E; [|discriminate H].
    inversion H; subst. split; [reflexivity|]. eexists.
    split; [apply (lookup_insert_same _ _ _ _ E)|]. apply push_em_In.
  - rewrite some_eq in H. unfold Route_use in H. rewrite use_eq, update_route_eq in H.
    destruct (route_objs st !! this) as [r|] eqn:E; [|discriminate H].
    inversion H; subst. split; [reflexivity|]. eexists.
    split; [apply (lookup_insert_same _ _ _ _ E)|]. apply push_mw_In.
  - rewrite some_eq in H. unfold Route_useForError in H.
    rewrite use_eq, update_route_eq in H.
    destruct (route_objs st !! this) as [r|] eqn:E; [|discriminate H].
    inversion H; subst. split; [reflexivity|]. eexists.
    split; [apply (lookup_insert_same _ _ _ _ E)|]. apply push_em_In.
Qed.

(** X1. [use], [useForError] and [useRouter] do nothing when what they are to
    register is in the list of the receiver, at whatever place and however
    it came there: the call returns the receiver and leaves every object as
    it is.  After any such call what it was to register is in the list, so
    that the same call made again does nothing. *)
Theorem registering_twice_is_once c st :
  registers c = true ->
  (registered c st -> perform c st = Ok (Some (receiver c), st)) /\
  (forall v st1, perform c st = Ok (v, st1) ->
     v = Some (receiver c) /\ registered c st1 /\ perform c st1 = Ok (v, st1)).
Proof.
  intros Hc. split; [apply perform_registered; exact Hc|].
  intros v st1 H. destruct (perform_registers _ _ _ _ Hc H) as [-> Hr].
  split; [reflexivity|]. split; [exact Hr|]. apply perform_registered; assumption.
Qed.

(** the logger of the example, registered first of all, is registered once
    more when the store is built: nothing changes *)
Lemma registering_twice_is_once_witness :
  registered (AppUse Demo.app Demo.applyConsoleLogger) Demo.store /\
  perform (AppUse Demo.app Demo.applyConsoleLogger) Demo.store
    = Ok (Some Demo.app, Demo.store).
Proof.
  assert (Hr : registered (AppUse Demo.app Demo.applyConsoleLogger) Demo.store).
  { exists Demo.app_obj. split; [reflexivity|]. left. reflexivity. }
  split; [exact Hr|].
  exact (proj1 (registering_twice_is_once (AppUse Demo.app Demo.applyConsoleLogger)
                  Demo.store eq_refl) Hr).
Defined.
